(** * Raspberry Pi autofocus control algorithm (rpi.af)

    A shallow embedding of [src/ipa/raspberrypi/controller/rpi/af.cpp] and
    the properties of its phase fusion, scan state machine and lens position
    controller.

    Conventions of the embedding:
    - a C++ [double] is a rational ([Q]); infinities and NaN are not
      modelled. The additions that advance the scan target ([doScan]),
      the products compared with a contrast ([doAF], [doScan]) and the
      products converted to [int] ([switchMode]) are rounded to binary64
      ([b64_round]), because the comparison or conversion made on their
      result decides a scan state, a reported state or an integer. The other
      arithmetic is exact: the positions and ratios it yields are those
      of the code up to rounding (in particular the slew steps of
      [updateLensPosition], so that the code's test [fsmooth_ == ftarget_]
      can hold a frame later than here);
    - a division by zero gives 0 in [Q] and an infinity or NaN in the
      code. Every division of the code is guarded by a comparison that
      makes its divisor nonzero, except [conf / (conf + confEpsilon)] in
      [doPDAF], which [doAF] calls only with [conf] above a multiple of
      the unsigned [confEpsilon]; properties of [doPDAF] in continuous
      mode assume [conf + confEpsilon > 0];
    - [uint32_t] and [unsigned] values are [Z] with the wrap-around written
      out ([wrap32]); [int64_t] likewise ([wrap64s]). The conversion of an
      [unsigned] to [int] is written out too ([unsigned_to_int]); the
      arithmetic on [int] is that of [Z], as signed overflow is undefined
      in C++;
    - the members of the object are the fields of the record [Af], and a
      member function takes the object and returns the updated object,
      next to its result when it has one;
    - the tuning file reader ([read]) is not embedded: the configuration
      is a field of the object that the properties quantify over. *)

From Stdlib Require Import ZArith QArith Qabs Qround Qpower List Bool Lia Lqa.
Import ListNotations.

Open Scope Q_scope.

(** ** Numbers *)

Definition Qleb (x y : Q) : bool := Qle_bool x y.
Definition Qltb (x y : Q) : bool := negb (Qle_bool y x).
Definition Qeqb (x y : Q) : bool := Qeq_bool x y.

(** [std::min], [std::max] and [std::clamp] as the C++ library defines them
    through [operator<]. *)
Definition std_min (a b : Q) : Q := if Qltb b a then b else a.
Definition std_max (a b : Q) : Q := if Qltb a b then b else a.
Definition std_clamp (v lo hi : Q) : Q :=
  if Qltb v lo then lo else if Qltb hi v then hi else v.

(** Conversion of a [double] to [int]: truncation towards zero. *)
Definition double_to_int (q : Q) : Z := Z.quot (Qnum q) (Z.pos (Qden q)).

Definition wrap32 (z : Z) : Z := (z mod 2 ^ 32)%Z.
Definition wrap64s (z : Z) : Z := ((z + 2 ^ 63) mod 2 ^ 64 - 2 ^ 63)%Z.

(** The conversion [(int)] of an [unsigned]: the value modulo [2 ^ 32]
    that lies in the range of [int]. *)
Definition unsigned_to_int (z : Z) : Z := ((z + 2 ^ 31) mod 2 ^ 32 - 2 ^ 31)%Z.

(** ** Binary64 rounding

    Rounding of a rational to the nearest binary64 number, ties to even,
    with gradual underflow. Overflow is not modelled: a value beyond the
    largest binary64 number is rounded to 53 bits like any other. *)

Definition pow2 (e : Z) : Q := 2 ^ e.

(** The exponent of [x]: the largest [e] with [2 ^ e <= |x|], for [x]
    other than zero. *)
Definition ilog2 (x : Q) : Z :=
  let e0 := (Z.log2 (Z.abs (Qnum x)) - Z.log2 (Z.pos (Qden x)))%Z in
  if Qleb (pow2 e0) (Qabs x) then e0 else (e0 - 1)%Z.

(** The integer nearest to [x], the even one of two that are equally
    near. *)
Definition round_half_even (x : Q) : Z :=
  let f := Qfloor x in
  match Qcompare (x - inject_Z f) (1 # 2) with
  | Lt => f
  | Gt => (f + 1)%Z
  | Eq => if Z.even f then f else (f + 1)%Z
  end.

(** [x] rounded to a multiple of [2 ^ q], where [q] leaves 53 bits for a
    normal number and is [-1074] for a subnormal one. *)
Definition b64_round (x : Q) : Q :=
  if Qeqb x 0 then 0
  else
    let q := Z.max (ilog2 x - 52) (-1074) in
    inject_Z (round_half_even (x / pow2 q)) * pow2 q.

(** The operators [+], [-] and [*] of [double]. *)
Definition b64_add (x y : Q) : Q := b64_round (x + y).
Definition b64_sub (x y : Q) : Q := b64_round (x - y).
Definition b64_mul (x y : Q) : Q := b64_round (x * y).

(** A bound of the rounding error on values of magnitude at most [m]:
    half a unit in the last place. *)
Definition b64_err (m : Q) : Q := m * pow2 (-53) + pow2 (-1075).

(** ** Enumerations *)

(** Modelled from the spec: the enumerations are declared in headers
    (af.h, af_algorithm.h, af_status.h) that are not part of the sources.
    The spec's data model lists their values, in this order. *)
Inductive AfRange := AfRangeNormal | AfRangeMacro | AfRangeFull.
Inductive AfSpeed := AfSpeedNormal | AfSpeedFast.
Inductive AfMode := AfModeManual | AfModeAuto | AfModeContinuous.
Inductive AfPause := AfPauseImmediate | AfPauseDeferred | AfPauseResume.
Inductive AfState := StateIdle | StateScanning | StateFocused | StateFailed.
Inductive AfPauseState := Running | Pausing | Paused.
Inductive ScanState := Idle | Trigger | Pdaf | Coarse | Fine | Settle.

(** Modelled from the spec: [AfRangeMax] and [AfSpeedMax] close the
    enumerations of the three ranges and the two speeds; an enumerator
    received by a setter is valid when it is below them. *)
Definition AfRangeMax : Z := 3.
Definition AfSpeedMax : Z := 2.

Definition AfRange_of_Z (r : Z) : AfRange :=
  if (r =? 0)%Z then AfRangeNormal
  else if (r =? 1)%Z then AfRangeMacro else AfRangeFull.

Definition AfSpeed_of_Z (s : Z) : AfSpeed :=
  if (s =? 0)%Z then AfSpeedNormal else AfSpeedFast.

Definition AfMode_eqb (a b : AfMode) : bool :=
  match a, b with
  | AfModeManual, AfModeManual
  | AfModeAuto, AfModeAuto
  | AfModeContinuous, AfModeContinuous => true
  | _, _ => false
  end.

(** The order of [ScanState], which the code compares with [>=] and [<]. *)
Definition ScanState_ord (s : ScanState) : Z :=
  match s with
  | Idle => 0 | Trigger => 1 | Pdaf => 2 | Coarse => 3 | Fine => 4 | Settle => 5
  end%Z.

Definition ScanState_eqb (a b : ScanState) : bool :=
  (ScanState_ord a =? ScanState_ord b)%Z.
Definition ScanState_geb (a b : ScanState) : bool :=
  (ScanState_ord b <=? ScanState_ord a)%Z.
Definition ScanState_ltb (a b : ScanState) : bool :=
  (ScanState_ord a <? ScanState_ord b)%Z.

(** ** Position map *)

Module Pwl.

(** Modelled from the spec: the class [Pwl] (pwl.cpp) is not part of the
    sources. The spec gives it as a sorted piecewise-linear curve from
    dioptres to hardware units with at least two points, whose [eval]
    interpolates inside the curve and extrapolates outside it. *)
Definition t := list (Q * Q).

(** Modelled from the spec: [empty] tells whether the curve has no point
    yet, and [append] adds a point after the last one. *)
Definition empty (m : t) : bool :=
  match m with [] => true | _ => false end.

Definition append (m : t) (x y : Q) : t := m ++ [(x, y)].

(** Modelled from the spec: the span of [x] is the segment that contains
    it, the first one below the curve and the last one above it. *)
Fixpoint findSpan (m : t) (x : Q) : option ((Q * Q) * (Q * Q)) :=
  match m with
  | p0 :: ((p1 :: rest) as tl) =>
      match rest with
      | [] => Some (p0, p1)
      | _ => if Qltb x (fst p1) then Some (p0, p1) else findSpan tl x
      end
  | _ => None
  end.

(** Modelled from the spec: linear interpolation on the span of [x]. A
    map of fewer than two points is excluded by the spec; [eval] is [0]
    there. *)
Definition eval (m : t) (x : Q) : Q :=
  match findSpan m x with
  | Some ((x0, y0), (x1, y1)) => y0 + (x - x0) * (y1 - y0) / (x1 - x0)
  | None => 0
  end.

(** Modelled from the spec: [domain()] is the interval between the first
    and the last abscissa, and [clip] bounds a value to it. *)
Definition domain (m : t) : Q * Q :=
  (fst (hd (0, 0) m), fst (last m (0, 0))).

Definition clip (d : Q * Q) (v : Q) : Q :=
  std_max (fst d) (std_min (snd d) v).

End Pwl.

(** ** Configuration *)

Record RangeDependentParams := mkRange {
  focusMin : Q;
  focusMax : Q;
  focusDefault : Q
}.

Record SpeedDependentParams := mkSpeed {
  stepCoarse : Q;
  stepFine : Q;
  contrastRatio : Q;
  pdafGain : Q;
  pdafSquelch : Q;
  maxSlew : Q;
  pdafFrames : Z;
  dropoutFrames : Z;
  stepFrames : Z
}.

Record CfgParams := mkCfg {
  ranges : AfRange -> RangeDependentParams;
  speeds : AfSpeed -> SpeedDependentParams;
  confEpsilon : Z;
  confThresh : Z;
  confClip : Z;
  skipFrames : Z;
  map : Pwl.t
}.

(** The default constructors. *)
Definition RangeDependentParams_default : RangeDependentParams :=
  {| focusMin := 0.0; focusMax := 12.0; focusDefault := 1.0 |}.

Definition SpeedDependentParams_default : SpeedDependentParams :=
  {| stepCoarse := 1.0; stepFine := 0.25; contrastRatio := 0.75;
     pdafGain := -0.02; pdafSquelch := 0.125; maxSlew := 2.0;
     pdafFrames := 20; dropoutFrames := 6; stepFrames := 4 |}.

Definition CfgParams_default : CfgParams :=
  {| ranges := fun _ => RangeDependentParams_default;
     speeds := fun _ => SpeedDependentParams_default;
     confEpsilon := 8; confThresh := 16; confClip := 512; skipFrames := 5;
     map := [] |}.

Definition with_map (m : Pwl.t) (c : CfgParams) : CfgParams :=
  {| ranges := ranges c; speeds := speeds c; confEpsilon := confEpsilon c;
     confThresh := confThresh c; confClip := confClip c;
     skipFrames := skipFrames c; map := m |}.

(** [Af::CfgParams::initialise]: the default mapping from dioptres to
    hardware setting, when the tuning file gave none. *)
Definition DefaultMapX0 : Q := 0.0.
Definition DefaultMapY0 : Q := 445.0.
Definition DefaultMapX1 : Q := 15.0.
Definition DefaultMapY1 : Q := 925.0.

Definition CfgParams_initialise (c : CfgParams) : CfgParams :=
  if Pwl.empty (map c) then
    with_map (Pwl.append (Pwl.append (map c) DefaultMapX0 DefaultMapY0)
                         DefaultMapX1 DefaultMapY1) c
  else c.

(** ** Statistics and working state *)

(** The grid sizes are macros of headers that are not part of the
    sources; [computeWeights] gives them in its comments and assertions:
    the PDAF grid is 16x12 and the focus statistics grid 4x3. *)
Definition PDAF_DATA_ROWS : nat := 12.
Definition PDAF_DATA_COLS : nat := 16.
Definition FOCUS_REGIONS : nat := 12.

Definition Grid := list (list Z).

(** Element [g[i][j]] of a grid; the C++ arrays have a fixed size, so the
    default value is never read on a full grid. *)
Definition cell (g : Grid) (i j : nat) : Z := nth j (nth i g []) 0%Z.

(** The PDAF statistics of a frame: confidence and phase of every cell. *)
Record PdafData := mkPdafData {
  pdaf_conf : Grid;
  pdaf_phase : Grid
}.

Module ScanRecord.
Record t := mk {
  focus : Q;
  contrast : Q;
  phase : Q;
  conf : Q
}.
End ScanRecord.

Record AfStatus := mkAfStatus {
  state : AfState;
  pauseState : AfPauseState;
  lensSetting : option Z
}.

(** The members of the class [Af]. The stats region, the metering windows
    and [useWindows_] only feed [computeWeights], whose results
    ([phaseWeights_], [contrastWeights_], [sumWeights_]) are kept here. *)
Record Af := mkAf {
  cfg_ : CfgParams;
  range_ : AfRange;
  speed_ : AfSpeed;
  mode_ : AfMode;
  pauseFlag_ : bool;
  phaseWeights_ : Grid;
  contrastWeights_ : list Z;
  sumWeights_ : Z;
  scanState_ : ScanState;
  initted_ : bool;
  ftarget_ : Q;
  fsmooth_ : Q;
  prevContrast_ : Q;
  skipCount_ : Z;
  stepCount_ : Z;
  dropCount_ : Z;
  scanMaxIndex_ : nat;
  scanMaxContrast_ : Q;
  scanMinContrast_ : Q;
  scanData_ : list ScanRecord.t;
  reportState_ : AfState
}.

(** Assignments to single members. *)
Definition set_cfg (v : CfgParams) (a : Af) : Af :=
  mkAf v (range_ a) (speed_ a) (mode_ a) (pauseFlag_ a) (phaseWeights_ a)
    (contrastWeights_ a) (sumWeights_ a) (scanState_ a) (initted_ a)
    (ftarget_ a) (fsmooth_ a) (prevContrast_ a) (skipCount_ a)
    (stepCount_ a) (dropCount_ a) (scanMaxIndex_ a) (scanMaxContrast_ a)
    (scanMinContrast_ a) (scanData_ a) (reportState_ a).
Definition set_range (v : AfRange) (a : Af) : Af :=
  mkAf (cfg_ a) v (speed_ a) (mode_ a) (pauseFlag_ a) (phaseWeights_ a)
    (contrastWeights_ a) (sumWeights_ a) (scanState_ a) (initted_ a)
    (ftarget_ a) (fsmooth_ a) (prevContrast_ a) (skipCount_ a)
    (stepCount_ a) (dropCount_ a) (scanMaxIndex_ a) (scanMaxContrast_ a)
    (scanMinContrast_ a) (scanData_ a) (reportState_ a).
Definition set_speed (v : AfSpeed) (a : Af) : Af :=
  mkAf (cfg_ a) (range_ a) v (mode_ a) (pauseFlag_ a) (phaseWeights_ a)
    (contrastWeights_ a) (sumWeights_ a) (scanState_ a) (initted_ a)
    (ftarget_ a) (fsmooth_ a) (prevContrast_ a) (skipCount_ a)
    (stepCount_ a) (dropCount_ a) (scanMaxIndex_ a) (scanMaxContrast_ a)
    (scanMinContrast_ a) (scanData_ a) (reportState_ a).
Definition set_mode (v : AfMode) (a : Af) : Af :=
  mkAf (cfg_ a) (range_ a) (speed_ a) v (pauseFlag_ a) (phaseWeights_ a)
    (contrastWeights_ a) (sumWeights_ a) (scanState_ a) (initted_ a)
    (ftarget_ a) (fsmooth_ a) (prevContrast_ a) (skipCount_ a)
    (stepCount_ a) (dropCount_ a) (scanMaxIndex_ a) (scanMaxContrast_ a)
    (scanMinContrast_ a) (scanData_ a) (reportState_ a).
Definition set_pauseFlag (v : bool) (a : Af) : Af :=
  mkAf (cfg_ a) (range_ a) (speed_ a) (mode_ a) v (phaseWeights_ a)
    (contrastWeights_ a) (sumWeights_ a) (scanState_ a) (initted_ a)
    (ftarget_ a) (fsmooth_ a) (prevContrast_ a) (skipCount_ a)
    (stepCount_ a) (dropCount_ a) (scanMaxIndex_ a) (scanMaxContrast_ a)
    (scanMinContrast_ a) (scanData_ a) (reportState_ a).
Definition set_scanState (v : ScanState) (a : Af) : Af :=
  mkAf (cfg_ a) (range_ a) (speed_ a) (mode_ a) (pauseFlag_ a)
    (phaseWeights_ a) (contrastWeights_ a) (sumWeights_ a) v (initted_ a)
    (ftarget_ a) (fsmooth_ a) (prevContrast_ a) (skipCount_ a)
    (stepCount_ a) (dropCount_ a) (scanMaxIndex_ a) (scanMaxContrast_ a)
    (scanMinContrast_ a) (scanData_ a) (reportState_ a).
Definition set_initted (v : bool) (a : Af) : Af :=
  mkAf (cfg_ a) (range_ a) (speed_ a) (mode_ a) (pauseFlag_ a)
    (phaseWeights_ a) (contrastWeights_ a) (sumWeights_ a) (scanState_ a) v
    (ftarget_ a) (fsmooth_ a) (prevContrast_ a) (skipCount_ a)
    (stepCount_ a) (dropCount_ a) (scanMaxIndex_ a) (scanMaxContrast_ a)
    (scanMinContrast_ a) (scanData_ a) (reportState_ a).
Definition set_ftarget (v : Q) (a : Af) : Af :=
  mkAf (cfg_ a) (range_ a) (speed_ a) (mode_ a) (pauseFlag_ a)
    (phaseWeights_ a) (contrastWeights_ a) (sumWeights_ a) (scanState_ a)
    (initted_ a) v (fsmooth_ a) (prevContrast_ a) (skipCount_ a)
    (stepCount_ a) (dropCount_ a) (scanMaxIndex_ a) (scanMaxContrast_ a)
    (scanMinContrast_ a) (scanData_ a) (reportState_ a).
Definition set_fsmooth (v : Q) (a : Af) : Af :=
  mkAf (cfg_ a) (range_ a) (speed_ a) (mode_ a) (pauseFlag_ a)
    (phaseWeights_ a) (contrastWeights_ a) (sumWeights_ a) (scanState_ a)
    (initted_ a) (ftarget_ a) v (prevContrast_ a) (skipCount_ a)
    (stepCount_ a) (dropCount_ a) (scanMaxIndex_ a) (scanMaxContrast_ a)
    (scanMinContrast_ a) (scanData_ a) (reportState_ a).
Definition set_prevContrast (v : Q) (a : Af) : Af :=
  mkAf (cfg_ a) (range_ a) (speed_ a) (mode_ a) (pauseFlag_ a)
    (phaseWeights_ a) (contrastWeights_ a) (sumWeights_ a) (scanState_ a)
    (initted_ a) (ftarget_ a) (fsmooth_ a) v (skipCount_ a) (stepCount_ a)
    (dropCount_ a) (scanMaxIndex_ a) (scanMaxContrast_ a)
    (scanMinContrast_ a) (scanData_ a) (reportState_ a).
Definition set_skipCount (v : Z) (a : Af) : Af :=
  mkAf (cfg_ a) (range_ a) (speed_ a) (mode_ a) (pauseFlag_ a)
    (phaseWeights_ a) (contrastWeights_ a) (sumWeights_ a) (scanState_ a)
    (initted_ a) (ftarget_ a) (fsmooth_ a) (prevContrast_ a) v
    (stepCount_ a) (dropCount_ a) (scanMaxIndex_ a) (scanMaxContrast_ a)
    (scanMinContrast_ a) (scanData_ a) (reportState_ a).
Definition set_stepCount (v : Z) (a : Af) : Af :=
  mkAf (cfg_ a) (range_ a) (speed_ a) (mode_ a) (pauseFlag_ a)
    (phaseWeights_ a) (contrastWeights_ a) (sumWeights_ a) (scanState_ a)
    (initted_ a) (ftarget_ a) (fsmooth_ a) (prevContrast_ a) (skipCount_ a)
    v (dropCount_ a) (scanMaxIndex_ a) (scanMaxContrast_ a)
    (scanMinContrast_ a) (scanData_ a) (reportState_ a).
Definition set_dropCount (v : Z) (a : Af) : Af :=
  mkAf (cfg_ a) (range_ a) (speed_ a) (mode_ a) (pauseFlag_ a)
    (phaseWeights_ a) (contrastWeights_ a) (sumWeights_ a) (scanState_ a)
    (initted_ a) (ftarget_ a) (fsmooth_ a) (prevContrast_ a) (skipCount_ a)
    (stepCount_ a) v (scanMaxIndex_ a) (scanMaxContrast_ a)
    (scanMinContrast_ a) (scanData_ a) (reportState_ a).
Definition set_scanMaxIndex (v : nat) (a : Af) : Af :=
  mkAf (cfg_ a) (range_ a) (speed_ a) (mode_ a) (pauseFlag_ a)
    (phaseWeights_ a) (contrastWeights_ a) (sumWeights_ a) (scanState_ a)
    (initted_ a) (ftarget_ a) (fsmooth_ a) (prevContrast_ a) (skipCount_ a)
    (stepCount_ a) (dropCount_ a) v (scanMaxContrast_ a)
    (scanMinContrast_ a) (scanData_ a) (reportState_ a).
Definition set_scanMaxContrast (v : Q) (a : Af) : Af :=
  mkAf (cfg_ a) (range_ a) (speed_ a) (mode_ a) (pauseFlag_ a)
    (phaseWeights_ a) (contrastWeights_ a) (sumWeights_ a) (scanState_ a)
    (initted_ a) (ftarget_ a) (fsmooth_ a) (prevContrast_ a) (skipCount_ a)
    (stepCount_ a) (dropCount_ a) (scanMaxIndex_ a) v (scanMinContrast_ a)
    (scanData_ a) (reportState_ a).
Definition set_scanMinContrast (v : Q) (a : Af) : Af :=
  mkAf (cfg_ a) (range_ a) (speed_ a) (mode_ a) (pauseFlag_ a)
    (phaseWeights_ a) (contrastWeights_ a) (sumWeights_ a) (scanState_ a)
    (initted_ a) (ftarget_ a) (fsmooth_ a) (prevContrast_ a) (skipCount_ a)
    (stepCount_ a) (dropCount_ a) (scanMaxIndex_ a) (scanMaxContrast_ a) v
    (scanData_ a) (reportState_ a).
Definition set_scanData (v : list ScanRecord.t) (a : Af) : Af :=
  mkAf (cfg_ a) (range_ a) (speed_ a) (mode_ a) (pauseFlag_ a)
    (phaseWeights_ a) (contrastWeights_ a) (sumWeights_ a) (scanState_ a)
    (initted_ a) (ftarget_ a) (fsmooth_ a) (prevContrast_ a) (skipCount_ a)
    (stepCount_ a) (dropCount_ a) (scanMaxIndex_ a) (scanMaxContrast_ a)
    (scanMinContrast_ a) v (reportState_ a).
Definition set_reportState (v : AfState) (a : Af) : Af :=
  mkAf (cfg_ a) (range_ a) (speed_ a) (mode_ a) (pauseFlag_ a)
    (phaseWeights_ a) (contrastWeights_ a) (sumWeights_ a) (scanState_ a)
    (initted_ a) (ftarget_ a) (fsmooth_ a) (prevContrast_ a) (skipCount_ a)
    (stepCount_ a) (dropCount_ a) (scanMaxIndex_ a) (scanMaxContrast_ a)
    (scanMinContrast_ a) (scanData_ a) v.

(** The parameters of the active range and of the active speed. *)
Definition range (a : Af) : RangeDependentParams := ranges (cfg_ a) (range_ a).
Definition speed (a : Af) : SpeedDependentParams := speeds (cfg_ a) (speed_ a).

(** [Af::Af]: the state of a new object. [scanMaxIndex_] has no
    initialiser; it is written by [doScan] before it is read, and is [0]
    here. The weights are zero until [computeWeights] runs. *)
Definition Af_new : Af :=
  {| cfg_ := CfgParams_default;
     range_ := AfRangeNormal;
     speed_ := AfSpeedNormal;
     mode_ := AfModeManual;
     pauseFlag_ := false;
     phaseWeights_ := repeat (repeat 0%Z PDAF_DATA_COLS) PDAF_DATA_ROWS;
     contrastWeights_ := repeat 0%Z FOCUS_REGIONS;
     sumWeights_ := 0;
     scanState_ := Idle;
     initted_ := false;
     ftarget_ := -1.0;
     fsmooth_ := -1.0;
     prevContrast_ := 0.0;
     skipCount_ := 0;
     stepCount_ := 0;
     dropCount_ := 0;
     scanMaxIndex_ := 0;
     scanMaxContrast_ := 0.0;
     scanMinContrast_ := 1.0e9;
     scanData_ := [];
     reportState_ := StateIdle |}.

(** [Af::initialise] *)
Definition initialise (a : Af) : Af :=
  set_cfg (CfgParams_initialise (cfg_ a)) a.

(** ** Signal fusion *)

(** The body of the two loops of [Af::getPhase] at cell [(i, j)]; the
    accumulators are [sumWc] ([uint32_t]) and [sumWcp] ([int64_t]). *)
Definition getPhase_cell (a : Af) (data : PdafData) (acc : Z * Z)
    (i j : nat) : Z * Z :=
  let '(sumWc, sumWcp) := acc in
  let w := cell (phaseWeights_ a) i j in
  if (w =? 0)%Z then acc
  else
    let c := cell (pdaf_conf data) i j in
    if (confThresh (cfg_ a) <=? c)%Z then
      let c := if (confClip (cfg_ a) <? c)%Z then confClip (cfg_ a) else c in
      let c := wrap32 (c - Z.shiftr (confThresh (cfg_ a)) 2) in
      let sumWc := wrap32 (sumWc + w * c) in
      let c := wrap32 (c - Z.shiftr (confThresh (cfg_ a)) 2) in
      let sumWcp := wrap64s (sumWcp + w * cell (pdaf_phase data) i j * c) in
      (sumWc, sumWcp)
    else acc.

Definition getPhase_sums (a : Af) (data : PdafData) : Z * Z :=
  fold_left
    (fun acc i =>
       fold_left (fun acc j => getPhase_cell a data acc i j)
                 (seq 0 PDAF_DATA_COLS) acc)
    (seq 0 PDAF_DATA_ROWS) (0, 0)%Z.

(** [Af::getPhase]: the returned flag, and the values left in [phase] and
    [conf]. *)
Definition getPhase (a : Af) (data : PdafData) : bool * Q * Q :=
  let '(sumWc, sumWcp) := getPhase_sums a data in
  if (0 <? sumWeights_ a)%Z && (sumWeights_ a <=? sumWc)%Z then
    (true, inject_Z sumWcp / inject_Z sumWc,
     inject_Z sumWc / inject_Z (sumWeights_ a))
  else (false, 0.0, 0.0).

(** [Af::getContrast], on the values [contrast_val[1][1]] of the focus
    regions. *)
Definition getContrast (a : Af) (focus_stats : list Z) : Q :=
  let sumWc :=
    fold_left
      (fun sumWc i =>
         let w := nth i (contrastWeights_ a) 0%Z in
         wrap32 (sumWc + w * Z.shiftr (nth i focus_stats 0%Z) 10))
      (seq 0 FOCUS_REGIONS) 0%Z in
  if (sumWeights_ a =? 0)%Z then 0.0
  else inject_Z sumWc / inject_Z (sumWeights_ a).

(** ** Lens position controller *)

(** [Af::updateLensPosition] *)
Definition updateLensPosition (a : Af) : Af :=
  let a :=
    if ScanState_geb (scanState_ a) Pdaf then
      set_ftarget (std_clamp (ftarget_ a) (focusMin (range a)) (focusMax (range a))) a
    else a in
  if initted_ a then
    (* from a known lens position: apply slew rate limit *)
    set_fsmooth (std_clamp (ftarget_ a)
                           (fsmooth_ a - maxSlew (speed a))
                           (fsmooth_ a + maxSlew (speed a))) a
  else
    (* from an unknown position: go straight to target, but add delay *)
    set_skipCount (skipFrames (cfg_ a))
      (set_initted true (set_fsmooth (ftarget_ a) a)).

(** ** Scan and tracking engine *)

(** [Af::startProgrammedScan] *)
Definition startProgrammedScan (a : Af) : Af :=
  let a := set_ftarget (focusMin (range a)) a in
  let a := updateLensPosition a in
  let a := set_scanState Coarse a in
  let a := set_scanMaxContrast 0.0 a in
  let a := set_scanMinContrast 1.0e9 a in
  let a := set_scanMaxIndex 0 a in
  let a := set_scanData [] a in
  let a := set_stepCount (stepFrames (speed a)) a in
  set_reportState StateScanning a.

(** [Af::startAF] *)
Definition startAF (a : Af) : Af :=
  if (0 <? dropoutFrames (speed a))%Z &&
     (AfMode_eqb (mode_ a) AfModeContinuous || (0 <? pdafFrames (speed a))%Z)
  then
    let a :=
      if negb (initted_ a) then
        updateLensPosition (set_ftarget (focusDefault (range a)) a)
      else a in
    let a :=
      set_stepCount (if AfMode_eqb (mode_ a) AfModeContinuous then 0%Z
                     else pdafFrames (speed a)) a in
    let a := set_scanState Pdaf a in
    let a := set_scanData [] a in
    let a := set_dropCount 0 a in
    set_reportState StateScanning a
  else startProgrammedScan a.

(** [Af::goIdle] *)
Definition goIdle (a : Af) : Af :=
  set_scanData [] (set_reportState StateIdle (set_scanState Idle a)).

(** [Af::doPDAF]. In continuous mode the confidence is divided by
    [conf + confEpsilon]; the code's only call, in [doAF], is made with
    [conf] above a multiple of [confEpsilon], which is unsigned, so the
    divisor is positive there. *)
Definition doPDAF (a : Af) (phase conf : Q) : Af :=
  (* Apply loop gain *)
  let phase := phase * pdafGain (speed a) in
  let '(phase, a) :=
    if AfMode_eqb (mode_ a) AfModeContinuous then
      let phase := phase * (conf / (conf + inject_Z (confEpsilon (cfg_ a)))) in
      if Qltb (Qabs phase) (pdafSquelch (speed a)) then
        let x := phase / pdafSquelch (speed a) in
        (phase * (x * x), a)
      else (phase, a)
    else if (stepFrames (speed a) <=? stepCount_ a)%Z then
      if Qltb (Qabs phase) (pdafSquelch (speed a)) then
        (phase, set_stepCount (stepFrames (speed a)) a)
      else (phase, a)
    else
      (* both operands are unsigned: an integer division *)
      (phase * inject_Z (stepCount_ a / stepFrames (speed a)), a) in
  (* Apply slew rate limit. Report failure if out of bounds. *)
  let '(phase, a) :=
    if Qltb phase (- maxSlew (speed a)) then
      (- maxSlew (speed a),
       set_reportState (if Qleb (ftarget_ a) (focusMin (range a))
                        then StateFailed else StateScanning) a)
    else if Qltb (maxSlew (speed a)) phase then
      (maxSlew (speed a),
       set_reportState (if Qleb (focusMax (range a)) (ftarget_ a)
                        then StateFailed else StateScanning) a)
    else (phase, set_reportState StateFocused a) in
  set_ftarget (fsmooth_ a + phase) a.

Definition vec_empty (l : list ScanRecord.t) : bool :=
  match l with [] => true | _ => false end.

(** Element [scanData_[i]]. The vector is indexed without a check; every
    call below reads inside the vector, and the record of zeros stands for
    a read outside it. *)
Definition scanAt (i : nat) (l : list ScanRecord.t) : ScanRecord.t :=
  nth i l (ScanRecord.mk 0 0 0 0).

(** [Af::earlyTerminationByPhase]: the returned flag and the object. *)
Definition earlyTerminationByPhase (a : Af) (phase : Q) : bool * Af :=
  let n := length (scanData_ a) in
  if (0 <? n)%nat &&
     Qleb (inject_Z (confEpsilon (cfg_ a)))
          (ScanRecord.conf (scanAt (n - 1) (scanData_ a)))
  then
    let oldFocus := ScanRecord.focus (scanAt (n - 1) (scanData_ a)) in
    let oldPhase := ScanRecord.phase (scanAt (n - 1) (scanData_ a)) in
    if Qltb 0.0 ((ftarget_ a - oldFocus) * (phase - oldPhase)) then
      let param := phase / (phase - oldPhase) in
      if Qleb (-3.0) param && Qleb param 3.5 then
        (true, set_ftarget (ftarget_ a + param * (oldFocus - ftarget_ a)) a)
      else (false, a)
    else (false, a)
  else (false, a).

(** [Af::findPeak] *)
Definition findPeak (a : Af) (i : nat) : Q :=
  let f := ScanRecord.focus (scanAt i (scanData_ a)) in
  if (0 <? i)%nat && (i + 1 <? length (scanData_ a))%nat then
    let dropLo := ScanRecord.contrast (scanAt i (scanData_ a))
                  - ScanRecord.contrast (scanAt (i - 1) (scanData_ a)) in
    let dropHi := ScanRecord.contrast (scanAt i (scanData_ a))
                  - ScanRecord.contrast (scanAt (i + 1) (scanData_ a)) in
    if Qleb 0.0 dropLo && Qltb dropLo dropHi then
      let param := 0.3125 * (1.0 - dropLo / dropHi) * (1.6 - dropLo / dropHi) in
      f + param * (ScanRecord.focus (scanAt (i - 1) (scanData_ a)) - f)
    else if Qleb 0.0 dropHi && Qltb dropHi dropLo then
      let param := 0.3125 * (1.0 - dropHi / dropLo) * (1.6 - dropHi / dropLo) in
      f + param * (ScanRecord.focus (scanAt (i + 1) (scanData_ a)) - f)
    else f
  else f.

(** [Af::doScan] *)
Definition doScan (a : Af) (contrast phase conf : Q) : Af :=
  (* Record lens position, contrast and phase values for the current scan *)
  let a :=
    if vec_empty (scanData_ a) || Qltb (scanMaxContrast_ a) contrast then
      set_scanMaxIndex (length (scanData_ a)) (set_scanMaxContrast contrast a)
    else a in
  let a :=
    if Qltb contrast (scanMinContrast_ a) then set_scanMinContrast contrast a
    else a in
  let a :=
    set_scanData (scanData_ a ++ [ScanRecord.mk (ftarget_ a) contrast phase conf]) a in
  let a :=
    match scanState_ a with
    | Coarse =>
        if Qleb (focusMax (range a)) (ftarget_ a) ||
           Qltb contrast (b64_mul (contrastRatio (speed a)) (scanMaxContrast_ a))
        then
          (* Finished coarse scan, or termination based on contrast.
             Jump to just after max contrast and start fine scan. *)
          let a :=
            set_ftarget (std_min (ftarget_ a)
                                 (findPeak a (scanMaxIndex_ a)
                                  + 2.0 * stepFine (speed a))) a in
          set_scanData [] (set_scanState Fine a)
        else set_ftarget (b64_add (ftarget_ a) (stepCoarse (speed a))) a
    | _ => (* ScanState::Fine *)
        if Qleb (ftarget_ a) (focusMin (range a)) ||
           (5 <=? length (scanData_ a))%nat ||
           Qltb contrast (b64_mul (contrastRatio (speed a)) (scanMaxContrast_ a))
        then
          (* Finished fine scan, or termination based on contrast.
             Use quadratic peak-finding to find best contrast position. *)
          set_scanState Settle (set_ftarget (findPeak a (scanMaxIndex_ a)) a)
        else set_ftarget (b64_sub (ftarget_ a) (stepFine (speed a))) a
    end in
  set_stepCount (if Qeqb (ftarget_ a) (fsmooth_ a) then 0%Z
                 else stepFrames (speed a)) a.

(** [Af::doAF] *)
Definition doAF (a : Af) (contrast phase conf : Q) : Af :=
  (* Skip frames at startup and after sensor mode change *)
  if (0 <? skipCount_ a)%Z then set_skipCount (skipCount_ a - 1) a
  else if ScanState_eqb (scanState_ a) Pdaf then
    if Qltb ((if (dropCount_ a =? 0)%Z then 0.25 else 1.0)
             * inject_Z (confEpsilon (cfg_ a))) conf
    then
      let a := doPDAF a phase conf in
      let a :=
        if (0 <? stepCount_ a)%Z then set_stepCount (stepCount_ a - 1) a
        else if negb (AfMode_eqb (mode_ a) AfModeContinuous)
             then set_scanState Idle a
             else a in
      set_dropCount 0 a
    else
      let a := set_dropCount (wrap32 (dropCount_ a + 1)) a in
      if (dropCount_ a =? dropoutFrames (speed a))%Z then startProgrammedScan a
      else a
  else if ScanState_geb (scanState_ a) Coarse && Qeqb (fsmooth_ a) (ftarget_ a)
  then
    if (0 <? stepCount_ a)%Z then set_stepCount (stepCount_ a - 1) a
    else if ScanState_eqb (scanState_ a) Settle then
      let a :=
        set_reportState
          (if Qleb (b64_mul (contrastRatio (speed a)) (scanMaxContrast_ a))
                   (prevContrast_ a)
              && Qleb (scanMinContrast_ a)
                      (b64_mul (contrastRatio (speed a)) (scanMaxContrast_ a))
           then StateFocused else StateFailed) a in
      let a :=
        set_scanState
          (if AfMode_eqb (mode_ a) AfModeContinuous && negb (pauseFlag_ a)
              && (0 <? dropoutFrames (speed a))%Z
           then Pdaf else Idle) a in
      set_scanData [] a
    else
      (* [conf >= confEpsilon && earlyTerminationByPhase(phase)]: the call
         is made only when the first operand holds *)
      let '(early, a) :=
        if Qleb (inject_Z (confEpsilon (cfg_ a))) conf
        then earlyTerminationByPhase a phase
        else (false, a) in
      if early then
        set_stepCount (if AfMode_eqb (mode_ a) AfModeContinuous then 0%Z
                       else stepFrames (speed a))
                      (set_scanState Settle a)
      else doScan a contrast phase conf
  else a.

(** ** Per-frame entry points *)

(** The per-frame update inside [Af::prepare]: [doAF] followed by
    [updateLensPosition]. *)
Definition frameUpdate (a : Af) (contrast phase conf : Q) : Af :=
  updateLensPosition (doAF a contrast phase conf).

(** [Af::prepare]. [pdaf] is the PDAF data of the image metadata, when it
    has any; the result is the object and the status it publishes. *)
Definition prepare (a : Af) (pdaf : option PdafData) : Af * AfStatus :=
  (* Initialize for triggered scan or start of CAF mode *)
  let a := if ScanState_eqb (scanState_ a) Trigger then startAF a else a in
  let a :=
    if initted_ a then
      let '(phase, conf) :=
        match pdaf with
        | Some data => let '(_, phase, conf) := getPhase a data in (phase, conf)
        | None => (0.0, 0.0)
        end in
      frameUpdate a (prevContrast_ a) phase conf
    else a in
  (* Report status and produce new lens setting *)
  (a,
   {| pauseState :=
        if pauseFlag_ a then
          if ScanState_eqb (scanState_ a) Idle then Paused else Pausing
        else Running;
      state :=
        if AfMode_eqb (mode_ a) AfModeAuto
           && negb (ScanState_eqb (scanState_ a) Idle)
        then StateScanning else reportState_ a;
      lensSetting :=
        if initted_ a
        then Some (double_to_int (Pwl.eval (map (cfg_ a)) (fsmooth_ a)))
        else None |}).

(** [Af::process] *)
Definition process (a : Af) (focus_stats : list Z) : Af :=
  set_prevContrast (getContrast a focus_stats) a.

(** ** Controls *)

(** [Af::setRange]; [r] is the enumerator received. *)
Definition setRange (a : Af) (r : N) : Af :=
  if (Z.of_N r <? AfRangeMax)%Z then set_range (AfRange_of_Z (Z.of_N r)) a
  else a.

(** [Af::setSpeed]; [s] is the enumerator received. *)
Definition setSpeed (a : Af) (s : N) : Af :=
  if (Z.of_N s <? AfSpeedMax)%Z then
    let s := AfSpeed_of_Z (Z.of_N s) in
    let a :=
      if ScanState_eqb (scanState_ a) Pdaf &&
         (pdafFrames (speed a) <? pdafFrames (speeds (cfg_ a) s))%Z
      then
        set_stepCount
          (wrap32 (stepCount_ a
                   + (pdafFrames (speeds (cfg_ a) s) - pdafFrames (speed a)))) a
      else a in
    set_speed s a
  else a.

(** [Af::setLensPosition]. [hwpos] tells whether the pointer is non-null;
    the result is the object, the returned flag, and the value written
    through the pointer, if any. *)
Definition setLensPosition (a : Af) (dioptres : Q) (hwpos : bool)
    : Af * bool * option Z :=
  let '(a, changed) :=
    if AfMode_eqb (mode_ a) AfModeManual then
      let a := set_ftarget (Pwl.clip (Pwl.domain (map (cfg_ a))) dioptres) a in
      let changed := negb (initted_ a && Qeqb (fsmooth_ a) (ftarget_ a)) in
      (updateLensPosition a, changed)
    else (a, false) in
  (a, changed,
   if hwpos then Some (double_to_int (Pwl.eval (map (cfg_ a)) (fsmooth_ a)))
   else None).

(** [Af::getLensPosition] *)
Definition getLensPosition (a : Af) : option Q :=
  if initted_ a then Some (fsmooth_ a) else None.

(** [Af::cancelScan] *)
Definition cancelScan (a : Af) : Af :=
  if AfMode_eqb (mode_ a) AfModeAuto then goIdle a else a.

(** [Af::triggerScan] *)
Definition triggerScan (a : Af) : Af :=
  if AfMode_eqb (mode_ a) AfModeAuto && ScanState_eqb (scanState_ a) Idle
  then set_scanState Trigger a
  else a.

(** [Af::setMode] *)
Definition setMode (a : Af) (mode : AfMode) : Af :=
  if negb (AfMode_eqb (mode_ a) mode) then
    let a := set_pauseFlag false (set_mode mode a) in
    if AfMode_eqb mode AfModeContinuous then set_scanState Trigger a
    else if negb (AfMode_eqb mode AfModeAuto)
            || ScanState_ltb (scanState_ a) Coarse
         then goIdle a
         else a
  else a.

(** [Af::getMode] *)
Definition getMode (a : Af) : AfMode := mode_ a.

(** [Af::pause] *)
Definition pause (a : Af) (p : AfPause) : Af :=
  let resume := match p with AfPauseResume => true | _ => false end in
  let immediate := match p with AfPauseImmediate => true | _ => false end in
  if AfMode_eqb (mode_ a) AfModeContinuous then
    if resume && pauseFlag_ a then
      let a := set_pauseFlag false a in
      if ScanState_ltb (scanState_ a) Coarse then set_scanState Trigger a else a
    else if negb resume && negb (pauseFlag_ a) then
      let a := set_pauseFlag true a in
      if immediate || ScanState_ltb (scanState_ a) Coarse then goIdle a else a
    else a
  else a.

(** ** Runs of frames *)

(** The inputs of one per-frame update: contrast, phase and confidence. *)
Definition FrameInput : Type := Q * Q * Q.

Definition frameStep (a : Af) (i : FrameInput) : Af :=
  let '(contrast, phase, conf) := i in frameUpdate a contrast phase conf.

(** The object after a sequence of per-frame updates. *)
Definition frames (a : Af) (inputs : list FrameInput) : Af :=
  fold_left frameStep inputs a.

(** Whether the scan is in state [Coarse] at the start and after every
    update of the sequence. *)
Fixpoint staysCoarse (a : Af) (inputs : list FrameInput) : bool :=
  ScanState_eqb (scanState_ a) Coarse &&
  match inputs with
  | [] => true
  | i :: rest => staysCoarse (frameStep a i) rest
  end.


(** ** Phase fusion as the specification words it

    The definitions of this section follow the spec (Signal Fusion), not
    the code; [getPhase] above is compared with them. *)

(** The cells of the PDAF grid, in raster order. *)
Definition pdafCells : list (nat * nat) :=
  list_prod (seq 0 PDAF_DATA_ROWS) (seq 0 PDAF_DATA_COLS).

(** A cell counts when its weight is nonzero and its raw confidence is at
    least [confThresh]. *)
Definition cellCounts (a : Af) (data : PdafData) (ij : nat * nat) : bool :=
  negb (cell (phaseWeights_ a) (fst ij) (snd ij) =? 0)%Z &&
  (confThresh (cfg_ a) <=? cell (pdaf_conf data) (fst ij) (snd ij))%Z.

(** The confidence of a cell clipped to [confClip], less a quarter of
    [confThresh] taken [k] times. *)
Definition biasedConf (k : Z) (a : Af) (data : PdafData) (ij : nat * nat) : Z :=
  (Z.min (cell (pdaf_conf data) (fst ij) (snd ij)) (confClip (cfg_ a))
   - k * (confThresh (cfg_ a) / 4))%Z.

Definition sumZ (l : list Z) : Z := fold_right Z.add 0%Z l.

(** [sumWc]: the sum over the counting cells of weight times confidence,
    biased once. *)
Definition spec_sumWc (a : Af) (data : PdafData) : Z :=
  sumZ (List.map
          (fun ij => cell (phaseWeights_ a) (fst ij) (snd ij)
                     * biasedConf 1 a data ij)%Z
          (filter (cellCounts a data) pdafCells)).

(** [sumWcp]: the sum over the counting cells of weight times raw phase
    times confidence, biased twice. *)
Definition spec_sumWcp (a : Af) (data : PdafData) : Z :=
  sumZ (List.map
          (fun ij => cell (phaseWeights_ a) (fst ij) (snd ij)
                     * cell (pdaf_phase data) (fst ij) (snd ij)
                     * biasedConf 2 a data ij)%Z
          (filter (cellCounts a data) pdafCells)).

(** The result of the fusion: valid when [0 < sumWeights <= sumWc], with
    [phase = sumWcp / sumWc] and [conf = sumWc / sumWeights]; otherwise
    invalid with phase and confidence zero. *)
Definition spec_getPhase (a : Af) (data : PdafData) : bool * Q * Q :=
  if (0 <? sumWeights_ a)%Z && (sumWeights_ a <=? spec_sumWc a data)%Z then
    (true, inject_Z (spec_sumWcp a data) / inject_Z (spec_sumWc a data),
     inject_Z (spec_sumWc a data) / inject_Z (sumWeights_ a))
  else (false, 0.0, 0.0).

(** ** Vocabulary of the properties *)

(** [b] has the configuration and the selectors of [a]. *)
Definition same_setup (a b : Af) : Prop :=
  cfg_ b = cfg_ a /\ range_ b = range_ a /\ speed_ b = speed_ a /\
  mode_ b = mode_ a /\ pauseFlag_ b = pauseFlag_ a.

(** [b] has the smoothed lens position of [a]. *)
Definition same_lens (a b : Af) : Prop :=
  fsmooth_ b = fsmooth_ a /\ initted_ b = initted_ a.

(** [x] lies in the focus range [r]. *)
Definition inRange (r : RangeDependentParams) (x : Q) : Prop :=
  focusMin r <= x <= focusMax r.


(** The rounding error one addition [ftarget_ += stepCoarse] of a coarse
    scan can make: the sums lie between [focusMin] and
    [focusMax + stepCoarse]. *)
Definition coarseStepErr (a : Af) : Q :=
  b64_err (Qabs (focusMin (range a)) + Qabs (focusMax (range a))
           + stepCoarse (speed a)).

(** The number of scan steps after which a coarse scan has reached
    [focusMax] when every step advances the target by [stepCoarse - e] at
    least. *)
Definition coarseStepBoundWith (e : Q) (a : Af) : Z :=
  Qceiling ((focusMax (range a) - focusMin (range a))
            / (stepCoarse (speed a) - e)).




(** ** Example runs *)

(** [n] frames whose metadata carries no PDAF data. *)
Definition noPdafFrames (a : Af) (n : nat) : Af :=
  Nat.iter n (fun a => fst (prepare a None)) a.

(** A new object, moved by hand to [d] dioptres. *)
Definition manualAt (d : Q) : Af :=
  fst (fst (setLensPosition (initialise Af_new) d false)).

(** The default window of [computeWeights]: the middle third of the rows
    and the middle half of the columns, each cell weighing 24. *)
Definition defaultWeights : Grid :=
  List.map (fun i =>
         List.map (fun j =>
                if ((4 <=? i) && (i <? 8) && (4 <=? j) && (j <? 12))%nat
                then 24%Z else 0%Z)
             (seq 0 PDAF_DATA_COLS))
      (seq 0 PDAF_DATA_ROWS).

(** An object with the default weights, and PDAF data whose confidence is
    100 and whose phase is -32 in every cell. *)
Definition weightedAf : Af :=
  mkAf (cfg_ (manualAt 3.0)) AfRangeNormal AfSpeedNormal AfModeAuto false
    defaultWeights (repeat 0%Z FOCUS_REGIONS) 768 Pdaf true 3.0 3.0 0.0 0 0 0
    0 0.0 1.0e9 [] StateScanning.

Definition flatPdaf : PdafData :=
  {| pdaf_conf := repeat (repeat 100%Z PDAF_DATA_COLS) PDAF_DATA_ROWS;
     pdaf_phase := repeat (repeat (-32)%Z PDAF_DATA_COLS) PDAF_DATA_ROWS |}.

(** The lens is at 12 dioptres, a scan is triggered in Auto mode, and ten
    frames pass: five are skipped and five count as PDAF dropouts. *)
Definition beforeDropoutScan : Af :=
  noPdafFrames (triggerScan (setMode (manualAt 12.0) AfModeAuto)) 10.

(** The lens is at 15 dioptres, the end of the default map and outside the
    default focus range, and Continuous mode is selected. *)
Definition continuousFromFifteen : Af :=
  setMode (manualAt 15.0) AfModeContinuous.

(** A scan that has reached [Settle] with its countdown expired, in
    Continuous mode with the default configuration: the lens is at the
    peak found, and the contrast there is the highest of the scan. *)
Definition settledScan : Af :=
  set_scanData [ScanRecord.mk 6.0 90 0 0; ScanRecord.mk 5.75 100 0 0;
                ScanRecord.mk 5.5 70 0 0]
    (set_scanMinContrast 70
       (set_scanMaxContrast 100
          (set_prevContrast 98
             (set_skipCount 0
                (set_scanState Settle
                   (set_mode AfModeContinuous (manualAt 5.75))))))).

(** A configuration whose fast speed has a larger PDAF budget (50 frames)
    than the normal one (20), and a triggered scan that tracks in [Pdaf]
    with 7 frames left. *)
Definition fastSpeedCfg : CfgParams :=
  {| ranges := ranges CfgParams_default;
     speeds := fun s =>
       match s with
       | AfSpeedNormal => SpeedDependentParams_default
       | AfSpeedFast =>
           {| stepCoarse := 2.0; stepFine := 0.5; contrastRatio := 0.75;
              pdafGain := -0.03; pdafSquelch := 0.2; maxSlew := 3.0;
              pdafFrames := 50; dropoutFrames := 6; stepFrames := 4 |}
       end;
     confEpsilon := 8; confThresh := 16; confClip := 512; skipFrames := 5;
     map := [(0.0, 445.0); (15.0, 925.0)] |}.

Definition trackingPdaf : Af :=
  set_stepCount 7
    (set_skipCount 0
       (startAF
          (set_scanState Trigger
             (set_mode AfModeAuto (set_cfg fastSpeedCfg (manualAt 3.0)))))).

(** A coarse scan history whose contrast peaks at 6 dioptres and falls off
    faster towards 7 than towards 5. *)
Definition peakedScan : Af :=
  set_scanData [ScanRecord.mk 4.0 60 0 0; ScanRecord.mk 5.0 80 0 0;
                ScanRecord.mk 6.0 100 0 0; ScanRecord.mk 7.0 50 0 0]
    (manualAt 7.0).

(** A programmed scan started on a new object with the default
    configuration (focus range [0, 12], coarse step 1), and frames without
    PDAF confidence whose contrast falls slowly from frame to frame: the
    contrast peaks at the first scan step, decreases strictly afterwards,
    and stays above [contrastRatio] times the peak. *)
Definition coarseStart : Af := startProgrammedScan (initialise Af_new).

Definition slowDecay (k : nat) : FrameInput :=
  (1000 - inject_Z (Z.of_nat k), 0, 0).

Definition slowDecayFrames (n : nat) : list FrameInput :=
  List.map slowDecay (seq 0 n).

(** The default configuration with the focus range [[0, 1]] and the
    coarse step 0.1, as binary64 holds it. *)
Definition tenthStepCfg : CfgParams :=
  {| ranges := fun _ =>
       {| focusMin := 0; focusMax := 1; focusDefault := 0 |};
     speeds := fun _ =>
       {| stepCoarse := b64_round 0.1; stepFine := b64_round 0.01;
          contrastRatio := 0.75; pdafGain := -0.02; pdafSquelch := 0.125;
          maxSlew := 2.0; pdafFrames := 20; dropoutFrames := 6;
          stepFrames := 4 |};
     confEpsilon := 8; confThresh := 16; confClip := 512; skipFrames := 5;
     map := [(0.0, 445.0); (15.0, 925.0)] |}.

(** A scan that has reached [Settle] with its countdown expired, where
    the contrasts are the binary64 quotients that [getContrast] yields
    for the sums 4224 and 3168 over [sumWeights_ = 4704]. *)
Definition roundedSettle : Af :=
  set_scanMinContrast (b64_round (3168 # 4704))
    (set_scanMaxContrast (b64_round (4224 # 4704))
       (set_prevContrast (b64_round (3168 # 4704)) settledScan)).

(** The lens moved by hand to 5 dioptres and then asked to go to 12: the
    target is 12 and the lens, one slew step on, is at 7. *)
Definition manualFiveToTwelve : Af :=
  fst (fst (setLensPosition (manualAt 5) 12 false)).

(** A coarse scan two steps in, whose last sample has a usable phase. *)
Definition phasedScan : Af :=
  set_ftarget 3.0
    (set_scanState Coarse
       (set_scanData [ScanRecord.mk 1.0 40 (-30) 20; ScanRecord.mk 2.0 50 (-20) 20]
          (manualAt 3.0))).

(** ** The two halves of [doScan] *)

(** The first half of [Af::doScan]: the running maximum and minimum are
    updated and the sample is appended to the history. *)
Definition recordSample (a : Af) (contrast phase conf : Q) : Af :=
  let a :=
    if vec_empty (scanData_ a) || Qltb (scanMaxContrast_ a) contrast then
      set_scanMaxIndex (length (scanData_ a)) (set_scanMaxContrast contrast a)
    else a in
  let a :=
    if Qltb contrast (scanMinContrast_ a) then set_scanMinContrast contrast a
    else a in
  set_scanData (scanData_ a ++ [ScanRecord.mk (ftarget_ a) contrast phase conf]) a.

(** The highest contrast of the history is [scanMaxContrast_], and
    [scanMaxIndex_] is the index of a record that has it. *)
Definition scanMaxOk (a : Af) : Prop :=
  scanData_ a = [] \/
  ((scanMaxIndex_ a < length (scanData_ a))%nat /\
   ScanRecord.contrast (scanAt (scanMaxIndex_ a) (scanData_ a))
   == scanMaxContrast_ a /\
   Forall (fun r => ScanRecord.contrast r <= scanMaxContrast_ a) (scanData_ a)).



(** ** Metering windows and weights

    The members [statsRegion_], [windows_] and [useWindows_] of the class,
    which only [computeWeights] and its callers use, are kept beside the
    record [Af] in the record [AfW]. Rectangles have signed [x], [y] and
    unsigned [width], [height], which [computeWeights] converts with
    [(int)]; its [int] arithmetic is written on [Z] (its overflow is
    undefined in C++). The weights
    are accumulated without wrap-around: with at most [MaxWindows]
    windows, which is what [setWindows] keeps, a cell holds at most 240
    and [sumWeights_] at most 46080. *)

Record Rectangle := mkRectangle {
  rect_x : Z;
  rect_y : Z;
  rect_width : Z;
  rect_height : Z
}.

(** The fields of [CameraMode] that [switchMode] reads. The crop is
    converted with [(int)] and the scaled size, a binary64 product, with
    [(unsigned)]; both truncate. *)
Record CameraMode := mkCameraMode {
  cropX : Q;
  cropY : Q;
  cm_width : Z;
  cm_height : Z;
  scaleX : Q;
  scaleY : Q
}.

Record AfW := mkAfW {
  af : Af;
  statsRegion_ : Rectangle;
  windows_ : list Rectangle;
  useWindows_ : bool
}.

(** [Af::Af], with the members left out of [Af_new]. *)
Definition AfW_new : AfW :=
  {| af := Af_new; statsRegion_ := mkRectangle 0 0 0 0; windows_ := [];
     useWindows_ := false |}.

Definition set_af (v : Af) (o : AfW) : AfW :=
  mkAfW v (statsRegion_ o) (windows_ o) (useWindows_ o).

Definition set_weights (pw : Grid) (cw : list Z) (sw : Z) (a : Af) : Af :=
  mkAf (cfg_ a) (range_ a) (speed_ a) (mode_ a) (pauseFlag_ a) pw cw sw
    (scanState_ a) (initted_ a) (ftarget_ a) (fsmooth_ a) (prevContrast_ a)
    (skipCount_ a) (stepCount_ a) (dropCount_ a) (scanMaxIndex_ a)
    (scanMaxContrast_ a) (scanMinContrast_ a) (scanData_ a) (reportState_ a).

Definition MaxWindows : Z := 10.
Definition MaxCellWeight : Z := Z.quot 240 MaxWindows.

(** Element [n] of a list replaced by [f] of it. *)
Fixpoint upd {A : Type} (n : nat) (f : A -> A) (l : list A) : list A :=
  match l, n with
  | [], _ => []
  | x :: tl, O => f x :: tl
  | x :: tl, S m => x :: upd m f tl
  end.

(** [g[i][j] += a] and [g[i][j] = v]. *)
Definition grid_add (g : Grid) (i j : nat) (a : Z) : Grid :=
  upd i (upd j (fun v => v + a)%Z) g.
Definition grid_set (g : Grid) (i j : nat) (v : Z) : Grid :=
  upd i (upd j (fun _ => v)) g.

(** The body of the loop over [j] in [Af::computeWeights], for the window
    [w], the row [i] and the height [y1] of the overlap in that row; the
    accumulators are [phaseWeights_] and [sumWeights_]. *)
Definition addWindowCell (sr : Rectangle) (cellW cellA : Z) (w : Rectangle)
    (i : nat) (y1 : Z) (acc : Grid * Z) (j : nat) : Grid * Z :=
  let x0 := Z.max (rect_x sr + cellW * Z.of_nat j) (rect_x w) in
  let x1 := Z.min (rect_x sr + cellW * (Z.of_nat j + 1))
                  (rect_x w + unsigned_to_int (rect_width w)) in
  if (x1 <=? x0)%Z then acc
  else
    let a := (y1 * (x1 - x0))%Z in
    let a := Z.quot (MaxCellWeight * a + cellA - 1) cellA in
    (grid_add (fst acc) i j a, (snd acc + a)%Z).

(** The body of the loop over [i]. *)
Definition addWindowRow (sr : Rectangle) (cellH cellW cellA : Z)
    (w : Rectangle) (acc : Grid * Z) (i : nat) : Grid * Z :=
  let y0 := Z.max (rect_y sr + cellH * Z.of_nat i) (rect_y w) in
  let y1 := Z.min (rect_y sr + cellH * (Z.of_nat i + 1))
                  (rect_y w + unsigned_to_int (rect_height w)) in
  if (y1 <=? y0)%Z then acc
  else
    let y1 := (y1 - y0)%Z in
    fold_left (addWindowCell sr cellW cellA w i y1) (seq 0 PDAF_DATA_COLS) acc.

(** The body of the loop over the windows. *)
Definition addWindow (sr : Rectangle) (cellH cellW cellA : Z)
    (acc : Grid * Z) (w : Rectangle) : Grid * Z :=
  fold_left (addWindowRow sr cellH cellW cellA w) (seq 0 PDAF_DATA_ROWS) acc.

(** The default AF window: the middle 1/2 width of the middle 1/3 height. *)
Definition addDefaultWindow (acc : Grid * Z) : Grid * Z :=
  fold_left
    (fun acc i =>
       fold_left
         (fun acc j =>
            (grid_set (fst acc) i j MaxCellWeight, (snd acc + MaxCellWeight)%Z))
         (seq (PDAF_DATA_COLS / 4) (3 * PDAF_DATA_COLS / 4 - PDAF_DATA_COLS / 4))
         acc)
    (seq (PDAF_DATA_ROWS / 3) (2 * PDAF_DATA_ROWS / 3 - PDAF_DATA_ROWS / 3))
    acc.

Definition FocusStatsRows : nat := 3.
Definition FocusStatsCols : nat := 4.
Definition YFactor : nat := PDAF_DATA_ROWS / FocusStatsRows.
Definition XFactor : nat := PDAF_DATA_COLS / FocusStatsCols.

(** The scaling from the PDAF grid to the focus statistics grid: entry
    [FocusStatsCols * i + j] sums a block of [YFactor] by [XFactor] cells. *)
Definition blockWeights (pw : Grid) : list Z :=
  flat_map
    (fun i =>
       List.map
         (fun j =>
            fold_left
              (fun w y =>
                 fold_left
                   (fun w x => (w + cell pw (YFactor * i + y) (XFactor * j + x))%Z)
                   (seq 0 XFactor) w)
              (seq 0 YFactor) 0%Z)
         (seq 0 FocusStatsCols))
    (seq 0 FocusStatsRows).

(** The weights [Af::computeWeights] computes: [phaseWeights_],
    [contrastWeights_] and [sumWeights_]. *)
Definition computeWeights_of (sr : Rectangle) (windows : list Rectangle)
    (useWindows : bool) : Grid * list Z * Z :=
  let acc := (repeat (repeat 0%Z PDAF_DATA_COLS) PDAF_DATA_ROWS, 0%Z) in
  let acc :=
    if useWindows && (Z.of_nat PDAF_DATA_COLS <=? rect_width sr)%Z
       && (Z.of_nat PDAF_DATA_ROWS <=? rect_height sr)%Z
    then
      let cellH := (rect_height sr / Z.of_nat PDAF_DATA_ROWS)%Z in
      let cellW := (rect_width sr / Z.of_nat PDAF_DATA_COLS)%Z in
      let cellA := (cellH * cellW)%Z in
      fold_left (addWindow sr cellH cellW cellA) windows acc
    else acc in
  let acc := if (snd acc =? 0)%Z then addDefaultWindow acc else acc in
  (fst acc, blockWeights (fst acc), snd acc).

(** [Af::computeWeights] *)
Definition computeWeights (o : AfW) : AfW :=
  let '(pw, cw, sw) :=
    computeWeights_of (statsRegion_ o) (windows_ o) (useWindows_ o) in
  set_af (set_weights pw cw sw (af o)) o.

(** [Af::switchMode] *)
Definition switchMode (o : AfW) (cameraMode : CameraMode) : AfW :=
  (* Assume that PDAF and Focus stats grids cover the visible area *)
  let sr :=
    mkRectangle (double_to_int (cropX cameraMode))
                (double_to_int (cropY cameraMode))
                (double_to_int (b64_mul (inject_Z (cm_width cameraMode))
                                        (scaleX cameraMode)))
                (double_to_int (b64_mul (inject_Z (cm_height cameraMode))
                                        (scaleY cameraMode))) in
  let o := mkAfW (af o) sr (windows_ o) (useWindows_ o) in
  let o := computeWeights o in
  let a := af o in
  let a :=
    if ScanState_geb (scanState_ a) Coarse && ScanState_ltb (scanState_ a) Settle
    then startProgrammedScan a
    else a in
  set_af (set_skipCount (skipFrames (cfg_ a)) a) o.

(** [Af::setMetering] *)
Definition setMetering (o : AfW) (mode : bool) : AfW :=
  if negb (Bool.eqb (useWindows_ o) mode) then
    computeWeights (mkAfW (af o) (statsRegion_ o) (windows_ o) mode)
  else o.

(** The loop of [Af::setWindows]: windows are appended until the vector
    holds [MaxWindows] of them. *)
Fixpoint pushWindows (acc wins : list Rectangle) : list Rectangle :=
  match wins with
  | [] => acc
  | w :: rest =>
      let acc := acc ++ [w] in
      if (MaxWindows <=? Z.of_nat (length acc))%Z then acc
      else pushWindows acc rest
  end.

(** [Af::setWindows] *)
Definition setWindows (o : AfW) (wins : list Rectangle) : AfW :=
  computeWeights
    (mkAfW (af o) (statsRegion_ o) (pushWindows [] wins) (useWindows_ o)).

(** The weight one window gives to the cell [(i, j)], as a formula: zero
    when they do not overlap, and else the overlap area scaled to
    [MaxCellWeight] for a whole cell and rounded up. *)
Definition cellOverlapWeight (sr : Rectangle) (cellH cellW cellA : Z)
    (w : Rectangle) (i j : nat) : Z :=
  let y0 := Z.max (rect_y sr + cellH * Z.of_nat i) (rect_y w) in
  let y1 := Z.min (rect_y sr + cellH * (Z.of_nat i + 1))
                  (rect_y w + unsigned_to_int (rect_height w)) in
  let x0 := Z.max (rect_x sr + cellW * Z.of_nat j) (rect_x w) in
  let x1 := Z.min (rect_x sr + cellW * (Z.of_nat j + 1))
                  (rect_x w + unsigned_to_int (rect_width w)) in
  if (y1 <=? y0)%Z || (x1 <=? x0)%Z then 0%Z
  else Z.quot (MaxCellWeight * ((y1 - y0) * (x1 - x0)) + cellA - 1) cellA.

(** A grid of [PDAF_DATA_ROWS] rows of [PDAF_DATA_COLS] cells. *)
Definition gridShape (g : Grid) : Prop :=
  length g = PDAF_DATA_ROWS /\ Forall (fun r => length r = PDAF_DATA_COLS) g.

(** The sum of all cells of a grid. *)
Definition gridSum (g : Grid) : Z := sumZ (List.map sumZ g).

(** The weight all the windows together give to the cell [(i, j)]. *)
Definition windowsWeight (sr : Rectangle) (windows : list Rectangle)
    (i j : nat) : Z :=
  let cellH := (rect_height sr / Z.of_nat PDAF_DATA_ROWS)%Z in
  let cellW := (rect_width sr / Z.of_nat PDAF_DATA_COLS)%Z in
  sumZ (List.map
          (fun w => cellOverlapWeight sr cellH cellW (cellH * cellW) w i j)
          windows).

(** Whether the windows are used: metering by windows is on and the
    statistics region is at least as large as the PDAF grid. *)
Definition windowsUsed (sr : Rectangle) (useWindows : bool) : bool :=
  useWindows && (Z.of_nat PDAF_DATA_COLS <=? rect_width sr)%Z
  && (Z.of_nat PDAF_DATA_ROWS <=? rect_height sr)%Z.

Definition zeroGrid : Grid := repeat (repeat 0%Z PDAF_DATA_COLS) PDAF_DATA_ROWS.


(** A statistics region of 1600 by 1200 and two metering windows, one of
    which covers the whole region. *)
Definition sampleRegion : Rectangle := mkRectangle 0 0 1600 1200.
Definition sampleWindows : list Rectangle :=
  [mkRectangle 150 50 200 200; mkRectangle 0 0 1600 1200].


(** An object with the statistics region and the windows above, and
    metering by windows. *)
Definition sampleAfW : AfW :=
  mkAfW (initialise Af_new) sampleRegion sampleWindows true.

(** ** The interface as a sequence of calls *)

(** The calls a client makes on the object once it is constructed and
    configured. *)
Inductive Call : Type :=
  | CallSwitchMode (cameraMode : CameraMode)
  | CallPrepare (pdaf : option PdafData)
  | CallProcess (focus_stats : list Z)
  | CallSetRange (r : N)
  | CallSetSpeed (s : N)
  | CallSetMetering (mode : bool)
  | CallSetWindows (wins : list Rectangle)
  | CallSetLensPosition (dioptres : Q) (hwpos : bool)
  | CallCancelScan
  | CallTriggerScan
  | CallSetMode (mode : AfMode)
  | CallPause (p : AfPause).

(** A member function of the scan engine, on the whole object. *)
Definition onAf (f : Af -> Af) (o : AfW) : AfW := set_af (f (af o)) o.

(** The object after a call; what the call returns or publishes is
    dropped. *)
Definition call (o : AfW) (c : Call) : AfW :=
  match c with
  | CallSwitchMode cameraMode => switchMode o cameraMode
  | CallPrepare pdaf => onAf (fun a => fst (prepare a pdaf)) o
  | CallProcess focus_stats => onAf (fun a => process a focus_stats) o
  | CallSetRange r => onAf (fun a => setRange a r) o
  | CallSetSpeed s => onAf (fun a => setSpeed a s) o
  | CallSetMetering mode => setMetering o mode
  | CallSetWindows wins => setWindows o wins
  | CallSetLensPosition dioptres hwpos =>
      onAf (fun a => fst (fst (setLensPosition a dioptres hwpos))) o
  | CallCancelScan => onAf cancelScan o
  | CallTriggerScan => onAf triggerScan o
  | CallSetMode mode => onAf (fun a => setMode a mode) o
  | CallPause p => onAf (fun a => pause a p) o
  end.

Definition calls (o : AfW) (cs : list Call) : AfW := fold_left call cs o.

(** The object as constructed, with the configuration [cfg]. *)
Definition AfW_configured (cfg : CfgParams) : AfW :=
  set_af (set_cfg cfg Af_new) AfW_new.

(** What holds of the scan engine between calls: manual mode keeps the
    scan idle, only continuous mode is ever paused, tracking and scanning
    need a known lens position, and an idle or tracking engine holds no
    scan history. *)
Definition engineInv (a : Af) : Prop :=
  (mode_ a = AfModeManual -> scanState_ a = Idle) /\
  (pauseFlag_ a = true -> mode_ a = AfModeContinuous) /\
  (ScanState_geb (scanState_ a) Pdaf = true -> initted_ a = true) /\
  (scanState_ a = Idle \/ scanState_ a = Pdaf -> scanData_ a = []).

(** What holds of the weights between calls. *)
Definition weightsInv (a : Af) : Prop :=
  gridShape (phaseWeights_ a) /\
  (forall i j, (i < PDAF_DATA_ROWS)%nat -> (j < PDAF_DATA_COLS)%nat ->
     0 <= cell (phaseWeights_ a) i j <= 240)%Z /\
  gridSum (phaseWeights_ a) = sumWeights_ a /\
  length (contrastWeights_ a) = FOCUS_REGIONS /\
  Forall (fun w => 0 <= w)%Z (contrastWeights_ a) /\
  sumZ (contrastWeights_ a) = sumWeights_ a.

Definition objectInv (o : AfW) : Prop :=
  (length (windows_ o) <= 10)%nat /\ engineInv (af o) /\ weightsInv (af o).

(** [b] has the weights of [a]. *)
Definition same_weights (a b : Af) : Prop :=
  phaseWeights_ b = phaseWeights_ a /\
  contrastWeights_ b = contrastWeights_ a /\
  sumWeights_ b = sumWeights_ a.

(** Whether the engine is in state [Pdaf] at the start and after every
    update of the sequence. *)
Fixpoint staysPdaf (a : Af) (inputs : list FrameInput) : bool :=
  ScanState_eqb (scanState_ a) Pdaf &&
  match inputs with
  | [] => true
  | i :: rest => staysPdaf (frameStep a i) rest
  end.

(** The number of frames a triggered PDAF tracking can still stay in
    [Pdaf]: the frames to skip, [dropoutFrames] frames for each step left,
    and the frames left before a dropout. *)
Definition pdafFramesLeft (a : Af) : Z :=
  (skipCount_ a + stepCount_ a * dropoutFrames (speed a)
   + (dropoutFrames (speed a) - 1 - dropCount_ a))%Z.

(** A triggered PDAF tracking as [startAF] starts it from the constructed
    and initialised object in mode [AfModeAuto]. *)
Definition triggeredPdaf : Af :=
  startAF (set_mode AfModeAuto (initialise Af_new)).

(** A camera mode of 1600 by 1200 without crop or scaling. *)
Definition sampleCameraMode : CameraMode :=
  mkCameraMode 0 0 1600 1200 1 1.

(** The object after a sequence of calls of [prepare]; the statuses are
    dropped. *)
Definition prepares (a : Af) (pdafs : list (option PdafData)) : Af :=
  fold_left (fun a pdaf => fst (prepare a pdaf)) pdafs a.
(** * Properties *)

(** ** Comparisons *)

Lemma Qleb_le (x y : Q) : Qleb x y = true <-> x <= y.
Proof. apply Qle_bool_iff. Qed.

Lemma Qltb_lt (x y : Q) : Qltb x y = true <-> x < y.
Proof.
  unfold Qltb. rewrite negb_true_iff. split.
  - intros H. apply Qnot_le_lt. intros Hle.
    apply Qle_bool_iff in Hle. congruence.
  - intros H. destruct (Qle_bool y x) eqn:E; [|reflexivity].
    apply Qle_bool_iff in E. exfalso. exact (Qlt_not_le _ _ H E).
Qed.

Lemma Qltb_ge (x y : Q) : Qltb x y = false <-> y <= x.
Proof.
  unfold Qltb. rewrite negb_false_iff. apply Qle_bool_iff.
Qed.

Lemma Qleb_gt (x y : Q) : Qleb x y = false <-> y < x.
Proof.
  rewrite <- Qltb_lt. unfold Qltb, Qleb.
  destruct (Qle_bool x y); simpl; split; congruence.
Qed.

Lemma Qeqb_eq (x y : Q) : Qeqb x y = true <-> x == y.
Proof. apply Qeq_bool_iff. Qed.

Lemma ScanState_eqb_eq (s t : ScanState) : ScanState_eqb s t = true <-> s = t.
Proof. destruct s, t; cbv; split; congruence. Qed.

Lemma AfMode_eqb_eq (m n : AfMode) : AfMode_eqb m n = true <-> m = n.
Proof. destruct m, n; cbv; split; congruence. Qed.

(** Case analysis on one comparison of the goal, leaving its meaning as a
    hypothesis. *)
Ltac cmp_case :=
  match goal with
  | |- context [Qltb ?x ?y] =>
      let E := fresh "E" in
      destruct (Qltb x y) eqn:E;
      [apply Qltb_lt in E | apply Qltb_ge in E]
  | |- context [Qleb ?x ?y] =>
      let E := fresh "E" in
      destruct (Qleb x y) eqn:E;
      [apply Qleb_le in E | apply Qleb_gt in E]
  end.

Lemma std_clamp_bounds (v lo hi : Q) :
  lo <= hi -> lo <= std_clamp v lo hi /\ std_clamp v lo hi <= hi.
Proof.
  intros H. unfold std_clamp. repeat cmp_case; split; lra.
Qed.

(** ** Binary64 rounding *)

Lemma pow2_pos (e : Z) : 0 < pow2 e.
Proof. apply Qpower_0_lt. reflexivity. Qed.


Lemma pow2_le (a b : Z) : (a <= b)%Z -> pow2 a <= pow2 b.
Proof. intros H. apply Qpower_le_compat_l; [exact H | discriminate]. Qed.

Lemma pow2_lt (a b : Z) : (a < b)%Z -> pow2 a < pow2 b.
Proof. intros H. apply Qpower_lt_compat_l; [exact H | reflexivity]. Qed.








(** ** Field access after an assignment *)

Ltac af_simpl :=
  unfold range, speed in *;
  cbn [cfg_ range_ speed_ mode_ pauseFlag_ phaseWeights_ contrastWeights_
       sumWeights_ scanState_ initted_ ftarget_ fsmooth_ prevContrast_
       skipCount_ stepCount_ dropCount_ scanMaxIndex_ scanMaxContrast_
       scanMinContrast_ scanData_ reportState_
       set_cfg set_range set_speed set_mode set_pauseFlag set_scanState
       set_initted set_ftarget set_fsmooth set_prevContrast set_skipCount
       set_stepCount set_dropCount set_scanMaxIndex set_scanMaxContrast
       set_scanMinContrast set_scanData set_reportState fst snd] in *.

(** Case analysis on a condition the goal branches on. *)
Ltac branch :=
  match goal with
  | |- context [if ?b then _ else _] =>
      lazymatch b with
      | context [if _ then _ else _] => fail
      | _ => let E := fresh "E" in destruct b eqn:E
      end
  | |- context [match ?s with Coarse => _ | _ => _ end] =>
      let E := fresh "E" in destruct s eqn:E
  end.

(** A member function that only assigns other members. *)
Ltac frame :=
  intros; repeat split; af_simpl; repeat (branch; af_simpl); reflexivity.

(** ** What the member functions leave unchanged *)

Lemma same_setup_refl a : same_setup a a.
Proof. repeat split. Qed.

Lemma same_setup_trans a b c : same_setup a b -> same_setup b c -> same_setup a c.
Proof.
  unfold same_setup. intros (?&?&?&?&?) (?&?&?&?&?). repeat split; congruence.
Qed.

Lemma same_setup_range a b : same_setup a b -> range b = range a.
Proof. unfold same_setup, range. intros (->&->&_). reflexivity. Qed.

Lemma same_setup_speed a b : same_setup a b -> speed b = speed a.
Proof. unfold same_setup, speed. intros (->&_&->&_). reflexivity. Qed.

Lemma updateLensPosition_setup a : same_setup a (updateLensPosition a).
Proof. unfold same_setup, updateLensPosition. frame. Qed.

Lemma updateLensPosition_scanState a :
  scanState_ (updateLensPosition a) = scanState_ a.
Proof. unfold updateLensPosition. frame. Qed.

Lemma updateLensPosition_initted a : initted_ (updateLensPosition a) = true.
Proof.
  unfold updateLensPosition.
  destruct (ScanState_geb (scanState_ a) Pdaf); af_simpl;
    destruct (initted_ a) eqn:E; af_simpl; auto.
Qed.

Lemma startProgrammedScan_setup a : same_setup a (startProgrammedScan a).
Proof.
  unfold startProgrammedScan. af_simpl.
  destruct (updateLensPosition_setup (set_ftarget (focusMin (range a)) a))
    as (?&?&?&?&?).
  repeat split; af_simpl; assumption.
Qed.

Lemma startProgrammedScan_initted a : initted_ (startProgrammedScan a) = true.
Proof.
  unfold startProgrammedScan. af_simpl. apply updateLensPosition_initted.
Qed.

Lemma startProgrammedScan_fsmooth a :
  fsmooth_ (startProgrammedScan a)
  = fsmooth_ (updateLensPosition (set_ftarget (focusMin (range a)) a)).
Proof. reflexivity. Qed.

Lemma doPDAF_setup a p cf : same_setup a (doPDAF a p cf).
Proof. unfold same_setup, doPDAF. frame. Qed.

Lemma doPDAF_lens a p cf : same_lens a (doPDAF a p cf).
Proof. unfold same_lens, doPDAF. frame. Qed.

Lemma doPDAF_scanState a p cf : scanState_ (doPDAF a p cf) = scanState_ a.
Proof. unfold doPDAF. frame. Qed.

Lemma earlyTerminationByPhase_setup a p :
  same_setup a (snd (earlyTerminationByPhase a p)).
Proof. unfold same_setup, earlyTerminationByPhase. frame. Qed.

Lemma earlyTerminationByPhase_lens a p :
  same_lens a (snd (earlyTerminationByPhase a p)).
Proof. unfold same_lens, earlyTerminationByPhase. frame. Qed.

Lemma earlyTerminationByPhase_scan a p :
  scanState_ (snd (earlyTerminationByPhase a p)) = scanState_ a /\
  scanData_ (snd (earlyTerminationByPhase a p)) = scanData_ a.
Proof. unfold earlyTerminationByPhase. frame. Qed.

Lemma doScan_setup a c p cf : same_setup a (doScan a c p cf).
Proof. unfold same_setup, doScan. frame. Qed.

Lemma doScan_lens a c p cf : same_lens a (doScan a c p cf).
Proof. unfold same_lens, doScan. frame. Qed.

Lemma same_lens_trans a b c : same_lens a b -> same_lens b c -> same_lens a c.
Proof. unfold same_lens. intros (?&?) (?&?). split; congruence. Qed.

(** [doAF] reaches [updateLensPosition] only through [startProgrammedScan],
    on the frame a PDAF dropout starts a scan; on every other frame it
    leaves the smoothed position as it is. *)
Lemma doAF_cases a c p cf :
  (same_setup a (doAF a c p cf) /\ same_lens a (doAF a c p cf)) \/
  (scanState_ a = Pdaf /\
   doAF a c p cf
   = startProgrammedScan (set_dropCount (wrap32 (dropCount_ a + 1)) a)).
Proof.
  unfold doAF.
  destruct (0 <? skipCount_ a)%Z; [left; unfold same_setup, same_lens; frame|].
  destruct (ScanState_eqb (scanState_ a) Pdaf) eqn:Epdaf.
  - assert (scanState_ a = Pdaf) as HP
      by (destruct (scanState_ a); try discriminate; reflexivity).
    destruct (Qltb _ cf).
    + left. destruct (doPDAF_setup a p cf) as (?&?&?&?&?).
      destruct (doPDAF_lens a p cf) as (?&?).
      unfold same_setup, same_lens.
      repeat split; af_simpl; repeat (branch; af_simpl); assumption.
    + af_simpl. branch; [right; split; [exact HP | reflexivity]|].
      left. unfold same_setup, same_lens. frame.
  - left. branch; [|split; [apply same_setup_refl | split; reflexivity]].
    branch; [unfold same_setup, same_lens; frame|].
    branch; [unfold same_setup, same_lens; frame|].
    destruct (if Qleb (inject_Z (confEpsilon (cfg_ a))) cf
              then earlyTerminationByPhase a p else (false, a))
      as [early a'] eqn:Ee.
    assert (same_setup a a' /\ same_lens a a') as [Hs Hl].
    { destruct (Qleb (inject_Z (confEpsilon (cfg_ a))) cf).
      - pose proof (earlyTerminationByPhase_setup a p) as H1.
        pose proof (earlyTerminationByPhase_lens a p) as H2.
        rewrite Ee in H1, H2. split; assumption.
      - inversion Ee; subst. split; [apply same_setup_refl | split; reflexivity]. }
    destruct early.
    + split.
      * eapply same_setup_trans; [exact Hs|]. unfold same_setup. frame.
      * eapply same_lens_trans; [exact Hl|]. unfold same_lens. frame.
    + split.
      * eapply same_setup_trans; [exact Hs|]. apply doScan_setup.
      * eapply same_lens_trans; [exact Hl|]. apply doScan_lens.
Qed.

(** ** Slew rate limit of [updateLensPosition] *)

Lemma Qabs_diff_le (x y d : Q) : Qabs (x - y) <= d <-> y - d <= x /\ x <= y + d.
Proof.
  rewrite Qabs_Qle_condition. split; intros [H1 H2]; split; lra.
Qed.

Lemma updateLensPosition_within_slew a :
  initted_ a = true -> 0 <= maxSlew (speed a) ->
  Qabs (fsmooth_ (updateLensPosition a) - fsmooth_ a) <= maxSlew (speed a).
Proof.
  intros Hi Hs. apply Qabs_diff_le.
  unfold updateLensPosition.
  destruct (ScanState_geb (scanState_ a) Pdaf); af_simpl;
    rewrite Hi; af_simpl; unfold std_clamp; repeat cmp_case; split; lra.
Qed.

Lemma startProgrammedScan_within_slew a :
  initted_ a = true -> 0 <= maxSlew (speed a) ->
  Qabs (fsmooth_ (startProgrammedScan a) - fsmooth_ a) <= maxSlew (speed a).
Proof.
  intros Hi Hs. rewrite startProgrammedScan_fsmooth.
  apply (updateLensPosition_within_slew (set_ftarget (focusMin (range a)) a));
    assumption.
Qed.

(** With a known lens position, [startAF] moves the lens only when it
    starts a programmed scan. *)
Lemma startAF_cases a :
  initted_ a = true ->
  (same_setup a (startAF a) /\ same_lens a (startAF a)) \/
  startAF a = startProgrammedScan a.
Proof.
  intros Hi. unfold startAF.
  destruct (_ && _); [left | right; reflexivity].
  rewrite Hi. unfold same_setup, same_lens. frame.
Qed.

Lemma frameUpdate_setup a c p cf : same_setup a (frameUpdate a c p cf).
Proof.
  unfold frameUpdate.
  eapply same_setup_trans; [|apply updateLensPosition_setup].
  destruct (doAF_cases a c p cf) as [[H _] | [_ ->]]; [exact H|].
  eapply same_setup_trans; [|apply startProgrammedScan_setup].
  unfold same_setup. frame.
Qed.

Lemma frameUpdate_initted a c p cf : initted_ (frameUpdate a c p cf) = true.
Proof. apply updateLensPosition_initted. Qed.

(** One per-frame update moves the lens by one slew step, or by two on the
    frame a PDAF dropout starts a programmed scan. *)
Lemma frameUpdate_within_slew a c p cf :
  initted_ a = true -> 0 <= maxSlew (speed a) ->
  Qabs (fsmooth_ (frameUpdate a c p cf) - fsmooth_ a) <= 2 * maxSlew (speed a)
  /\ (scanState_ a <> Pdaf ->
      Qabs (fsmooth_ (frameUpdate a c p cf) - fsmooth_ a) <= maxSlew (speed a)).
Proof.
  intros Hi Hs. unfold frameUpdate.
  destruct (doAF_cases a c p cf) as [[Hset [Hf Hin]] | [HP Heq]].
  - pose proof (updateLensPosition_within_slew (doAF a c p cf)) as H.
    rewrite (same_setup_speed _ _ Hset), Hf, Hin in H.
    specialize (H Hi Hs). apply Qabs_diff_le in H.
    split; [|intros _]; apply Qabs_diff_le; lra.
  - split; [|congruence]. rewrite Heq.
    set (a1 := set_dropCount (wrap32 (dropCount_ a + 1)) a).
    assert (initted_ a1 = true) as Hi1 by exact Hi.
    assert (0 <= maxSlew (speed a1)) as Hs1 by exact Hs.
    pose proof (startProgrammedScan_within_slew a1 Hi1 Hs1) as H1.
    pose proof (updateLensPosition_within_slew (startProgrammedScan a1)) as H2.
    rewrite (same_setup_speed _ _ (startProgrammedScan_setup a1)) in H2.
    specialize (H2 (startProgrammedScan_initted a1) Hs1).
    change (fsmooth_ a1) with (fsmooth_ a) in H1.
    change (speed a1) with (speed a) in H1, H2.
    apply Qabs_diff_le in H1, H2. apply Qabs_diff_le. lra.
Qed.

Lemma prepare_within_slew a pdaf :
  initted_ a = true -> 0 <= maxSlew (speed a) ->
  Qabs (fsmooth_ (fst (prepare a pdaf)) - fsmooth_ a) <= 2 * maxSlew (speed a).
Proof.
  intros Hi Hs. unfold prepare. cbn [fst].
  set (a1 := if ScanState_eqb (scanState_ a) Trigger then startAF a else a).
  assert ((same_setup a a1 /\ same_lens a a1) \/
          (a1 = startProgrammedScan a)) as Hcase.
  { subst a1. destruct (ScanState_eqb (scanState_ a) Trigger).
    - apply startAF_cases, Hi.
    - left. split; [apply same_setup_refl | split; reflexivity]. }
  set (pc := match pdaf with
             | Some data => let '(_, phase, conf) := getPhase a1 data in (phase, conf)
             | None => (0.0, 0.0)
             end).
  destruct pc as [ph cf].
  destruct Hcase as [[Hset [Hf Hin]] | Heq].
  - rewrite Hin, Hi.
    pose proof (frameUpdate_within_slew a1 (prevContrast_ a1) ph cf) as H.
    rewrite (same_setup_speed _ _ Hset), Hf, Hin in H.
    destruct (H Hi Hs) as [H1 _]. exact H1.
  - assert (initted_ a1 = true) as Hi1
        by (rewrite Heq; apply startProgrammedScan_initted).
    rewrite Hi1.
    pose proof (frameUpdate_within_slew a1 (prevContrast_ a1) ph cf) as H.
    assert (speed a1 = speed a) as Hsp
        by (rewrite Heq; apply same_setup_speed, startProgrammedScan_setup).
    rewrite Hsp in H. destruct (H Hi1 Hs) as [_ H2].
    assert (scanState_ a1 <> Pdaf) as Hne by (rewrite Heq; discriminate).
    specialize (H2 Hne).
    pose proof (startProgrammedScan_within_slew a Hi Hs) as H3.
    rewrite <- Heq in H3.
    apply Qabs_diff_le in H2, H3. apply Qabs_diff_le. lra.
Qed.

(** Outside [Trigger] and with a known lens position, the state part of
    [prepare] is one per-frame update on the fused PDAF inputs; without
    PDAF data phase and confidence are zero. *)
Lemma prepare_is_frameUpdate a pdaf :
  ScanState_eqb (scanState_ a) Trigger = false ->
  initted_ a = true ->
  exists phase conf,
    fst (prepare a pdaf) = frameUpdate a (prevContrast_ a) phase conf /\
    (pdaf = None -> phase = 0.0 /\ conf = 0.0).
Proof.
  intros Ht Hi. unfold prepare. rewrite Ht, Hi. cbn [fst].
  destruct pdaf as [data|].
  - destruct (getPhase a data) as [[valid ph] cf].
    exists ph, cf. split; [reflexivity | discriminate].
  - exists 0.0, 0.0. split; [reflexivity | split; reflexivity].
Qed.

(** C2, as the per-frame bound reads: on the frame that starts a
    programmed scan after PDAF dropouts, the per-frame update calls
    [updateLensPosition] twice (in [startProgrammedScan], reached from
    [doAF], and at its own end), and the smoothed position moves from 12
    to 8 dioptres, twice the slew limit of 2. *)
Lemma slew_twice_in_one_frame :
  let a := beforeDropoutScan in
  let a' := frameUpdate a (prevContrast_ a) 0.0 0.0 in
  fst (prepare a None) = a' /\
  initted_ a = true /\
  maxSlew (speed a) == 2 /\
  fsmooth_ a == 12 /\
  fsmooth_ a' == 8 /\
  ~ Qabs (fsmooth_ a' - fsmooth_ a) <= maxSlew (speed a).
Proof.
  vm_compute. repeat split; try reflexivity.
  intros H. apply H. reflexivity.
Qed.

(** A per-frame update that does not start a programmed scan calls
    [updateLensPosition] once. *)
Lemma frameUpdate_one_call a c p cf :
  initted_ a = true -> 0 <= maxSlew (speed a) ->
  ~ (scanState_ a = Pdaf /\ scanState_ (frameUpdate a c p cf) = Coarse) ->
  Qabs (fsmooth_ (frameUpdate a c p cf) - fsmooth_ a) <= maxSlew (speed a).
Proof.
  intros Hi Hs Hno. unfold frameUpdate in *.
  rewrite updateLensPosition_scanState in Hno.
  destruct (doAF_cases a c p cf) as [[Hset [Hf Hin]] | [HP Heq]].
  - pose proof (updateLensPosition_within_slew (doAF a c p cf)) as H.
    rewrite (same_setup_speed _ _ Hset), Hf, Hin in H. exact (H Hi Hs).
  - exfalso. apply Hno. split; [exact HP|]. rewrite Heq. reflexivity.
Qed.

(** [startAF] enters [Pdaf] or starts a programmed scan. *)
Lemma startAF_scanState a :
  (scanState_ (startAF a) = Pdaf /\ startAF a <> startProgrammedScan a \/
   startAF a = startProgrammedScan a) /\
  (scanState_ (startAF a) = Pdaf \/ scanState_ (startAF a) = Coarse).
Proof.
  unfold startAF. destruct (_ && _).
  - split; [left; split; [reflexivity|] | left; reflexivity].
    intros H. apply (f_equal scanState_) in H. discriminate H.
  - split; [right; reflexivity | right; reflexivity].
Qed.

(** A frame that starts in a scan state ends in one or, from [Settle],
    in [Pdaf] or [Idle]. *)
Lemma frameUpdate_from_Coarse a c p cf :
  scanState_ a = Coarse ->
  ScanState_geb (scanState_ (frameUpdate a c p cf)) Coarse = true.
Proof.
  intros Hc. unfold frameUpdate. rewrite updateLensPosition_scanState.
  unfold doAF. rewrite Hc.
  change (ScanState_eqb Coarse Pdaf) with false.
  change (ScanState_eqb Coarse Settle) with false.
  change (ScanState_geb Coarse Coarse) with true. cbv iota. cbn [andb].
  destruct (0 <? skipCount_ a)%Z; [af_simpl; rewrite Hc; reflexivity|].
  destruct (Qeqb (fsmooth_ a) (ftarget_ a)); [|rewrite Hc; reflexivity].
  destruct (0 <? stepCount_ a)%Z; [af_simpl; rewrite Hc; reflexivity|].
  assert (forall b, scanState_ b = Coarse ->
            ScanState_geb (scanState_ (doScan b c p cf)) Coarse = true) as Hscan.
  { intros b Hb. unfold doScan. af_simpl.
    repeat (branch; af_simpl);
      try match goal with E : scanState_ b = _ |- _ => rewrite E end;
      first [reflexivity | congruence]. }
  destruct (Qleb _ cf); [|apply Hscan; exact Hc].
  pose proof (earlyTerminationByPhase_scan a p) as [Hs _].
  destruct (earlyTerminationByPhase a p) as [early a']. cbn [snd] in Hs.
  destruct early; [reflexivity|]. apply Hscan. rewrite Hs. exact Hc.
Qed.

(** A [prepare] that does not start a programmed scan calls
    [updateLensPosition] once. *)
Lemma prepare_one_call a pdaf :
  initted_ a = true -> 0 <= maxSlew (speed a) ->
  ~ ((scanState_ a = Trigger \/ scanState_ a = Pdaf) /\
     ScanState_geb (scanState_ (fst (prepare a pdaf))) Coarse = true) ->
  Qabs (fsmooth_ (fst (prepare a pdaf)) - fsmooth_ a) <= maxSlew (speed a).
Proof.
  intros Hi Hs Hno. unfold prepare in *. cbn [fst] in *.
  set (a1 := if ScanState_eqb (scanState_ a) Trigger then startAF a else a)
    in *.
  set (pc := match pdaf with
             | Some data => let '(_, phase, conf) := getPhase a1 data in (phase, conf)
             | None => (0.0, 0.0)
             end) in *.
  destruct pc as [ph cf].
  destruct (ScanState_eqb (scanState_ a) Trigger) eqn:Et.
  - apply ScanState_eqb_eq in Et.
    destruct (startAF_cases a Hi) as [[Hset [Hf Hin]] | Heq].
    + (* [startAF] enters [Pdaf] and leaves the lens *)
      assert (initted_ a1 = true) as Hi1 by (subst a1; congruence).
      rewrite Hi1 in *.
      pose proof (frameUpdate_one_call a1 (prevContrast_ a1) ph cf) as H.
      subst a1. rewrite (same_setup_speed _ _ Hset), Hf in H.
      apply H; [exact Hi1 | exact Hs|].
      intros [_ Hc]. apply Hno. split; [left; exact Et|].
      rewrite Hc. reflexivity.
    + (* [startAF] starts the scan *)
      exfalso. apply Hno. split; [left; exact Et|].
      assert (initted_ a1 = true) as Hi1
          by (subst a1; rewrite Heq; apply startProgrammedScan_initted).
      rewrite Hi1. apply frameUpdate_from_Coarse.
      subst a1. rewrite Heq. reflexivity.
  - subst a1. rewrite Hi in *.
    apply frameUpdate_one_call; [exact Hi | exact Hs|].
    intros [HP Hc]. apply Hno. split; [right; exact HP|].
    rewrite Hc. reflexivity.
Qed.

(** C2, amended: with a known lens position and a slew limit that is not
    negative, every call of [updateLensPosition] changes [fsmooth_] by at
    most [maxSlew] of the active speed. A per-frame update ([doAF]
    followed by [updateLensPosition], and so [prepare]) makes one such
    call, and [fsmooth_] changes by at most [maxSlew], except on the frame
    that starts a programmed scan: there [startProgrammedScan] makes a
    call of its own, and [fsmooth_] changes by at most twice [maxSlew].
    A per-frame update starts a programmed scan when it goes from [Pdaf]
    to [Coarse]; a [prepare] when it goes from [Trigger] or [Pdaf] to a
    scan state. *)
Theorem updateLensPosition_slew_limit (a : Af) :
  initted_ a = true ->
  0 <= maxSlew (speed a) ->
  Qabs (fsmooth_ (updateLensPosition a) - fsmooth_ a) <= maxSlew (speed a) /\
  (forall c p cf,
     let b := frameUpdate a c p cf in
     Qabs (fsmooth_ b - fsmooth_ a) <= 2 * maxSlew (speed a) /\
     (~ (scanState_ a = Pdaf /\ scanState_ b = Coarse) ->
      Qabs (fsmooth_ b - fsmooth_ a) <= maxSlew (speed a))) /\
  (forall pdaf,
     let b := fst (prepare a pdaf) in
     Qabs (fsmooth_ b - fsmooth_ a) <= 2 * maxSlew (speed a) /\
     (~ ((scanState_ a = Trigger \/ scanState_ a = Pdaf) /\
         ScanState_geb (scanState_ b) Coarse = true) ->
      Qabs (fsmooth_ b - fsmooth_ a) <= maxSlew (speed a))).
Proof.
  intros Hi Hs. split; [|split].
  - apply updateLensPosition_within_slew; assumption.
  - intros c p cf. cbv zeta. split.
    + apply frameUpdate_within_slew; assumption.
    + apply frameUpdate_one_call; assumption.
  - intros pdaf. cbv zeta. split.
    + apply prepare_within_slew; assumption.
    + apply prepare_one_call; assumption.
Qed.

Lemma updateLensPosition_slew_limit_witness :
  Qabs (fsmooth_ (updateLensPosition beforeDropoutScan)
        - fsmooth_ beforeDropoutScan)
  <= maxSlew (speed beforeDropoutScan) /\
  (forall c p cf,
     let b := frameUpdate beforeDropoutScan c p cf in
     Qabs (fsmooth_ b - fsmooth_ beforeDropoutScan)
     <= 2 * maxSlew (speed beforeDropoutScan) /\
     (~ (scanState_ beforeDropoutScan = Pdaf /\ scanState_ b = Coarse) ->
      Qabs (fsmooth_ b - fsmooth_ beforeDropoutScan)
      <= maxSlew (speed beforeDropoutScan))) /\
  (forall pdaf,
     let b := fst (prepare beforeDropoutScan pdaf) in
     Qabs (fsmooth_ b - fsmooth_ beforeDropoutScan)
     <= 2 * maxSlew (speed beforeDropoutScan) /\
     (~ ((scanState_ beforeDropoutScan = Trigger \/
          scanState_ beforeDropoutScan = Pdaf) /\
         ScanState_geb (scanState_ b) Coarse = true) ->
      Qabs (fsmooth_ b - fsmooth_ beforeDropoutScan)
      <= maxSlew (speed beforeDropoutScan))).
Proof.
  apply (updateLensPosition_slew_limit beforeDropoutScan).
  - vm_compute. reflexivity.
  - vm_compute. discriminate.
Defined.

(** ** Focus range *)

Lemma updateLensPosition_in_range b :
  focusMin (range b) <= focusMax (range b) ->
  0 <= maxSlew (speed b) ->
  ScanState_geb (scanState_ b) Pdaf = true ->
  inRange (range b) (ftarget_ (updateLensPosition b)) /\
  ((initted_ b = true -> inRange (range b) (fsmooth_ b)) ->
   inRange (range b) (fsmooth_ (updateLensPosition b))).
Proof.
  intros Hr Hs Hst. unfold updateLensPosition, inRange. rewrite Hst.
  af_simpl.
  pose proof (std_clamp_bounds (ftarget_ b) _ _ Hr) as [Hlo Hhi].
  set (t := std_clamp (ftarget_ b) _ _) in *. clearbody t.
  destruct (initted_ b); af_simpl.
  - split; [split; assumption|]. intros Hin. specialize (Hin eq_refl).
    unfold std_clamp. repeat cmp_case; lra.
  - split; [split; assumption|]. intros _. split; assumption.
Qed.

(** C3, as stated: the lens is moved by hand to 15 dioptres, outside the
    focus range [0, 12] of the default configuration, and Continuous mode
    is selected. The next frame enters [Pdaf] and clamps [ftarget_] to 12,
    but [fsmooth_] follows at the slew limit and is 13 after the update. *)
Lemma fsmooth_outside_range_in_Pdaf :
  let a := startAF continuousFromFifteen in
  let a' := frameUpdate a (prevContrast_ a) 0.0 0.0 in
  fst (prepare continuousFromFifteen None) = a' /\
  scanState_ a' = Pdaf /\
  focusMax (range a') == 12 /\
  fsmooth_ a' == 13 /\
  ~ inRange (range a') (fsmooth_ a').
Proof.
  vm_compute. repeat split; try reflexivity.
  intros [_ H]. apply H. reflexivity.
Qed.

(** One call of [updateLensPosition] in a state from [Pdaf] on, with a
    known lens position outside the focus range: the lens moves towards
    the range by [maxSlew], or into the range; it does not move away and
    does not cross the range. *)
Lemma updateLensPosition_approach b :
  focusMin (range b) <= focusMax (range b) ->
  0 <= maxSlew (speed b) ->
  ScanState_geb (scanState_ b) Pdaf = true ->
  initted_ b = true ->
  let f' := fsmooth_ (updateLensPosition b) in
  (focusMax (range b) < fsmooth_ b ->
   focusMin (range b) <= f' /\ f' <= fsmooth_ b /\
   (focusMax (range b) < f' -> f' == fsmooth_ b - maxSlew (speed b))) /\
  (fsmooth_ b < focusMin (range b) ->
   f' <= focusMax (range b) /\ fsmooth_ b <= f' /\
   (f' < focusMin (range b) -> f' == fsmooth_ b + maxSlew (speed b))).
Proof.
  intros Hr Hs Hst Hi. cbv zeta. unfold updateLensPosition. rewrite Hst.
  af_simpl. rewrite Hi. af_simpl.
  pose proof (std_clamp_bounds (ftarget_ b) _ _ Hr) as [Hlo Hhi].
  unfold range in Hlo, Hhi.
  set (t := std_clamp (ftarget_ b) _ _) in *. clearbody t.
  unfold std_clamp. split; intros Hout;
    repeat cmp_case; repeat split; intros; lra.
Qed.

(** C3, amended: after a per-frame update ([doAF] followed by
    [updateLensPosition]) that ends in a state from [Pdaf] on, [ftarget_]
    lies within the active focus range; [fsmooth_] lies within it when it
    did before the update (or no lens position was known yet). A known
    position outside the range is not clamped: the update moves it
    towards the range, by [maxSlew] for each of its one or two calls of
    [updateLensPosition], or into the range; it moves it neither away
    from the range nor across it. The range is taken with
    [focusMin <= focusMax] and the slew limit is not negative. *)
Theorem frameUpdate_in_range (a : Af) (c p cf : Q) :
  focusMin (range a) <= focusMax (range a) ->
  0 <= maxSlew (speed a) ->
  ScanState_geb (scanState_ (frameUpdate a c p cf)) Pdaf = true ->
  let f' := fsmooth_ (frameUpdate a c p cf) in
  range (frameUpdate a c p cf) = range a /\
  inRange (range a) (ftarget_ (frameUpdate a c p cf)) /\
  ((initted_ a = true -> inRange (range a) (fsmooth_ a)) ->
   inRange (range a) f') /\
  (initted_ a = true -> focusMax (range a) < fsmooth_ a ->
   focusMin (range a) <= f' /\ f' <= fsmooth_ a /\
   (focusMax (range a) < f' ->
    f' == fsmooth_ a - maxSlew (speed a) \/
    f' == fsmooth_ a - 2 * maxSlew (speed a))) /\
  (initted_ a = true -> fsmooth_ a < focusMin (range a) ->
   f' <= focusMax (range a) /\ fsmooth_ a <= f' /\
   (f' < focusMin (range a) ->
    f' == fsmooth_ a + maxSlew (speed a) \/
    f' == fsmooth_ a + 2 * maxSlew (speed a))).
Proof.
  intros Hr Hs Hst. cbv zeta.
  split; [apply same_setup_range, frameUpdate_setup|].
  unfold frameUpdate in *. rewrite updateLensPosition_scanState in Hst.
  set (b := doAF a c p cf) in *.
  assert (same_setup a b) as Hset.
  { subst b. destruct (doAF_cases a c p cf) as [[H _] | [_ ->]]; [exact H|].
    eapply same_setup_trans; [|apply startProgrammedScan_setup].
    unfold same_setup. frame. }
  pose proof (updateLensPosition_in_range b) as Hb.
  pose proof (updateLensPosition_approach b) as Hap.
  rewrite (same_setup_range _ _ Hset), (same_setup_speed _ _ Hset) in Hb, Hap.
  destruct (Hb Hr Hs Hst) as [Hft Hfs]. specialize (Hap Hr Hs Hst).
  cbv zeta in Hap.
  split; [exact Hft|]. split.
  { intros Hin. apply Hfs. intros Hib.
    subst b. destruct (doAF_cases a c p cf) as [[_ [Hf Hi]] | [HP Heq]].
    - rewrite Hf. apply Hin. congruence.
    - rewrite Heq, startProgrammedScan_fsmooth.
      set (a1 := set_ftarget _ _).
      assert (ScanState_geb (scanState_ a1) Pdaf = true) as Hst1
          by (subst a1; af_simpl; rewrite HP; reflexivity).
      destruct (updateLensPosition_in_range a1 Hr Hs Hst1) as [_ H1].
      apply H1. exact Hin. }
  (* the position [fsmooth_ b] the last call starts from *)
  assert (initted_ a = true ->
          initted_ b = true /\
          (fsmooth_ b = fsmooth_ a \/
           (inRange (range a) (fsmooth_ b) -> False) /\
           ((focusMax (range a) < fsmooth_ a ->
             focusMax (range a) < fsmooth_ b /\
             fsmooth_ b == fsmooth_ a - maxSlew (speed a)) /\
            (fsmooth_ a < focusMin (range a) ->
             fsmooth_ b < focusMin (range a) /\
             fsmooth_ b == fsmooth_ a + maxSlew (speed a))) \/
           inRange (range a) (fsmooth_ b))) as Hmid.
  { intros Hi. subst b.
    destruct (doAF_cases a c p cf) as [[_ [Hf Hin]] | [HP Heq]].
    - split; [congruence | left; exact Hf].
    - rewrite Heq. split; [apply startProgrammedScan_initted|].
      rewrite startProgrammedScan_fsmooth.
      set (a1 := set_ftarget (focusMin (range _)) _).
      assert (ScanState_geb (scanState_ a1) Pdaf = true) as Hst1
          by (subst a1; af_simpl; rewrite HP; reflexivity).
      assert (initted_ a1 = true) as Hi1 by exact Hi.
      pose proof (updateLensPosition_approach a1 Hr Hs Hst1 Hi1) as H1.
      cbv zeta in H1. change (fsmooth_ a1) with (fsmooth_ a) in H1.
      change (range a1) with (range a) in H1.
      change (speed a1) with (speed a) in H1.
      destruct H1 as [Hab Hbe]. unfold inRange.
      set (f1 := fsmooth_ (updateLensPosition a1)) in *. clearbody f1.
      destruct (Qlt_le_dec (focusMax (range a)) f1) as [Hhi | Hhi].
      + right. left. split; [intros [_ H]; lra|]. split.
        * intros Ha. destruct (Hab Ha) as (_ & _ & H). split; [exact Hhi|].
          apply H. exact Hhi.
        * intros Ha. exfalso.
          destruct (Hbe Ha) as (H & _). lra.
      + destruct (Qlt_le_dec f1 (focusMin (range a))) as [Hlo | Hlo].
        * right. left. split; [intros [H _]; lra|]. split.
          -- intros Ha. exfalso. destruct (Hab Ha) as (H & _). lra.
          -- intros Ha. destruct (Hbe Ha) as (_ & _ & H).
             split; [exact Hlo|]. apply H. exact Hlo.
        * right. right. split; assumption. }
  split.
  - intros Hi Ha. destruct (Hmid Hi) as [Hib [Hsame | [[Hno [Hup _]] | Hin]]].
    + rewrite Hsame in Hap. destruct Hap as [Hap _]; [exact Hib|].
      destruct (Hap Ha) as (H1 & H2 & H3).
      split; [exact H1|]. split; [exact H2|]. intros H. left. apply H3, H.
    + destruct (Hup Ha) as [Hb1 Hb2].
      destruct Hap as [Hap _]; [exact Hib|].
      destruct (Hap Hb1) as (H1 & H2 & H3).
      split; [exact H1|]. split; [lra|]. intros H. right.
      rewrite (H3 H), Hb2. ring.
    + assert (inRange (range a) (fsmooth_ (updateLensPosition b))) as [H1 H2]
          by (apply Hfs; intros _; exact Hin).
      split; [exact H1|]. split; [lra|]. intros H. lra.
  - intros Hi Ha. destruct (Hmid Hi) as [Hib [Hsame | [[Hno [_ Hdn]] | Hin]]].
    + rewrite Hsame in Hap. destruct Hap as [_ Hap]; [exact Hib|].
      destruct (Hap Ha) as (H1 & H2 & H3).
      split; [exact H1|]. split; [exact H2|]. intros H. left. apply H3, H.
    + destruct (Hdn Ha) as [Hb1 Hb2].
      destruct Hap as [_ Hap]; [exact Hib|].
      destruct (Hap Hb1) as (H1 & H2 & H3).
      split; [exact H1|]. split; [lra|]. intros H. right.
      rewrite (H3 H), Hb2. ring.
    + assert (inRange (range a) (fsmooth_ (updateLensPosition b))) as [H1 H2]
          by (apply Hfs; intros _; exact Hin).
      split; [lra|]. split; [lra|]. intros H. lra.
Qed.

Lemma frameUpdate_in_range_witness :
  let a := startAF continuousFromFifteen in
  let f' := fsmooth_ (frameUpdate a 0 0 0) in
  fsmooth_ a == 15 /\
  inRange (range a) (ftarget_ (frameUpdate a 0 0 0)) /\
  focusMin (range a) <= f' /\ f' <= fsmooth_ a /\
  f' == fsmooth_ a - maxSlew (speed a).
Proof.
  cbv zeta.
  destruct (frameUpdate_in_range (startAF continuousFromFifteen) 0 0 0)
    as (_ & Hft & _ & Hab & _).
  - vm_compute. discriminate.
  - vm_compute. discriminate.
  - vm_compute. reflexivity.
  - split; [vm_compute; reflexivity|]. split; [exact Hft|].
    destruct Hab as (H1 & H2 & H3).
    + vm_compute. reflexivity.
    + vm_compute. reflexivity.
    + split; [exact H1|]. split; [exact H2|]. vm_compute. reflexivity.
Defined.

(** ** End of a scan *)

Lemma updateLensPosition_report a :
  reportState_ (updateLensPosition a) = reportState_ a /\
  scanData_ (updateLensPosition a) = scanData_ a.
Proof. unfold updateLensPosition. frame. Qed.

(** C4, as stated: the contrasts are the binary64 quotients 4224 / 4704
    (the highest of the scan) and 3168 / 4704 (the last and the lowest),
    and [contrastRatio] is 0.75. The product of 0.75 and the highest
    contrast is above the last contrast, by less than one unit in the
    last place, so the test of the claim fails; the code compares with
    the product rounded to binary64, which is the last contrast itself,
    and reports [Focused]. *)
Lemma settle_test_rounds_the_product :
  let a := roundedSettle in
  skipCount_ a = 0%Z /\ scanState_ a = Settle /\ stepCount_ a = 0%Z /\
  fsmooth_ a == ftarget_ a /\
  contrastRatio (speed a) == 0.75 /\
  prevContrast_ a < contrastRatio (speed a) * scanMaxContrast_ a /\
  b64_mul (contrastRatio (speed a)) (scanMaxContrast_ a) == prevContrast_ a /\
  (forall c p cf, reportState_ (doAF a c p cf) = StateFocused).
Proof.
  cbv zeta. repeat split; try (vm_compute; reflexivity).
Qed.

(** C4, amended: a frame processed in [Settle] with no skip pending, the
    countdown expired and the lens arrived reports [Focused] exactly when
    the last contrast is at least the level and the lowest contrast of
    the scan is at most the level, and [Failed] otherwise, where the level
    is the product of [contrastRatio] and [scanMaxContrast] rounded to
    binary64, as the code computes it; the next state is [Pdaf] exactly in
    Continuous mode with the pause latch clear and [dropoutFrames > 0],
    and [Idle] otherwise; the scan history is cleared either way.
    [updateLensPosition] leaves all three as they are. *)
Theorem doAF_settle_outcome (a : Af) (c p cf : Q) :
  skipCount_ a = 0%Z ->
  scanState_ a = Settle ->
  stepCount_ a = 0%Z ->
  fsmooth_ a == ftarget_ a ->
  let a' := doAF a c p cf in
  let level := b64_mul (contrastRatio (speed a)) (scanMaxContrast_ a) in
  let focused := level <= prevContrast_ a /\ scanMinContrast_ a <= level in
  let tracking := mode_ a = AfModeContinuous /\ pauseFlag_ a = false /\
                  (0 < dropoutFrames (speed a))%Z in
  (reportState_ a' = StateFocused <-> focused) /\
  (reportState_ a' = StateFailed <-> ~ focused) /\
  (scanState_ a' = Pdaf <-> tracking) /\
  (scanState_ a' = Idle <-> ~ tracking) /\
  scanData_ a' = [] /\
  reportState_ (frameUpdate a c p cf) = reportState_ a' /\
  scanState_ (frameUpdate a c p cf) = scanState_ a' /\
  scanData_ (frameUpdate a c p cf) = scanData_ a'.
Proof.
  intros Hskip Hst Hstep Harr. cbv zeta.
  unfold frameUpdate. rewrite updateLensPosition_scanState.
  destruct (updateLensPosition_report (doAF a c p cf)) as [-> ->].
  assert (doAF a c p cf
          = set_scanData []
              (set_scanState
                 (if AfMode_eqb (mode_ a) AfModeContinuous
                     && negb (pauseFlag_ a)
                     && (0 <? dropoutFrames (speed a))%Z
                  then Pdaf else Idle)
                 (set_reportState
                    (if Qleb (b64_mul (contrastRatio (speed a))
                                      (scanMaxContrast_ a))
                             (prevContrast_ a)
                        && Qleb (scanMinContrast_ a)
                                (b64_mul (contrastRatio (speed a))
                                         (scanMaxContrast_ a))
                     then StateFocused else StateFailed) a))) as ->.
  { unfold doAF. apply Qeqb_eq in Harr. rewrite Hskip, Hst, Hstep, Harr.
    reflexivity. }
  af_simpl.
  set (level := b64_mul (contrastRatio (speeds (cfg_ a) (speed_ a)))
                        (scanMaxContrast_ a)).
  assert (Qleb level (prevContrast_ a) && Qleb (scanMinContrast_ a) level
          = true
          <-> level <= prevContrast_ a /\ scanMinContrast_ a <= level)
    as Hfoc by (rewrite andb_true_iff, !Qleb_le; reflexivity).
  assert (AfMode_eqb (mode_ a) AfModeContinuous && negb (pauseFlag_ a)
          && (0 <? dropoutFrames (speeds (cfg_ a) (speed_ a)))%Z = true
          <-> mode_ a = AfModeContinuous /\ pauseFlag_ a = false /\
              (0 < dropoutFrames (speeds (cfg_ a) (speed_ a)))%Z)
    as Htrk.
  { rewrite !andb_true_iff, AfMode_eqb_eq, negb_true_iff, Z.ltb_lt. tauto. }
  destruct (Qleb _ (prevContrast_ a) && Qleb (scanMinContrast_ a) _);
    destruct (AfMode_eqb _ _ && _ && _);
    repeat match goal with |- _ /\ _ => split end;
    try reflexivity;
    try (split; [discriminate | intros H; apply Hfoc in H; discriminate]);
    try (split; [discriminate | intros H; apply Htrk in H; discriminate]);
    try (split; [intros _; apply Hfoc; reflexivity | reflexivity]);
    try (split; [intros _; apply Htrk; reflexivity | reflexivity]);
    try (split; [discriminate | intros H; exfalso; apply H, Hfoc; reflexivity]);
    try (split; [discriminate | intros H; exfalso; apply H, Htrk; reflexivity]);
    try (split; [intros _ H; apply Hfoc in H; discriminate | reflexivity]);
    try (split; [intros _ H; apply Htrk in H; discriminate | reflexivity]).
Qed.

Lemma doAF_settle_outcome_witness :
  reportState_ (doAF settledScan 98 0 0) = StateFocused /\
  scanState_ (doAF settledScan 98 0 0) = Pdaf /\
  scanData_ (doAF settledScan 98 0 0) = [].
Proof.
  destruct (doAF_settle_outcome settledScan 98 0 0)
    as (Hf & _ & Hp & _ & Hd & _).
  - reflexivity.
  - reflexivity.
  - reflexivity.
  - reflexivity.
  - split; [apply Hf | split; [apply Hp | exact Hd]].
    + split; vm_compute; discriminate.
    + repeat split.
Defined.

(** ** Manual lens position *)

(** C7: on a new object (Manual mode, no lens position known, the default
    map of [(0, 445)] and [(15, 925)]), [setLensPosition(5.0)] reports a
    change, [getLensPosition()] then returns 5.0, and the value written to
    [hwpos] is [445 + 5.0 * (925 - 445) / 15 = 605]. *)
Theorem setLensPosition_manual_five :
  let a0 := initialise Af_new in
  let r := setLensPosition a0 5.0 true in
  mode_ a0 = AfModeManual /\
  getLensPosition a0 = None /\
  map (cfg_ a0) = [(0.0, 445.0); (15.0, 925.0)] /\
  getLensPosition (fst (fst r)) = Some 5.0 /\
  snd (fst r) = true /\
  snd r = Some 605%Z /\
  snd r = Some (double_to_int (445 + 5.0 * (925 - 445) / 15)).
Proof. vm_compute. repeat split. Qed.

(** C10, as stated: the returned flag does not tell whether the call
    changed the target. In Manual mode with the lens at 7 dioptres on its
    way to the target 12, [setLensPosition(12)] returns true and leaves
    the target at 12, and [setLensPosition(7)] returns false and changes
    the target to 7. *)
Lemma setLensPosition_flag_is_not_target_change :
  let a := manualFiveToTwelve in
  let r12 := setLensPosition a 12 false in
  let r7 := setLensPosition a 7 false in
  mode_ a = AfModeManual /\ initted_ a = true /\
  fsmooth_ a == 7 /\ ftarget_ a == 12 /\
  snd (fst r12) = true /\ ftarget_ (fst (fst r12)) == ftarget_ a /\
  snd (fst r7) = false /\ ftarget_ (fst (fst r7)) == 7 /\
  ~ ftarget_ (fst (fst r7)) == ftarget_ a.
Proof.
  vm_compute. repeat split; try reflexivity. discriminate.
Qed.

(** C10, amended: in a mode other than Manual, [setLensPosition] leaves
    the object as it is and returns false, and still writes the hardware
    setting of the current [fsmooth_] through a non-null [hwpos]; in every
    mode the returned flag is true exactly when the mode is Manual and the
    lens is not already known to be at the clipped position asked for
    (not: when the call changed the target). *)
Theorem setLensPosition_outside_manual (a : Af) (dioptres : Q) (hwpos : bool) :
  (mode_ a <> AfModeManual ->
   setLensPosition a dioptres hwpos
   = (a, false,
      if hwpos then Some (double_to_int (Pwl.eval (map (cfg_ a)) (fsmooth_ a)))
      else None)) /\
  (snd (fst (setLensPosition a dioptres hwpos)) = true <->
   mode_ a = AfModeManual /\
   ~ (initted_ a = true /\
      fsmooth_ a == Pwl.clip (Pwl.domain (map (cfg_ a))) dioptres)).
Proof.
  unfold setLensPosition. split.
  - intros Hm. destruct (AfMode_eqb (mode_ a) AfModeManual) eqn:E.
    + apply AfMode_eqb_eq in E. contradiction.
    + reflexivity.
  - destruct (AfMode_eqb (mode_ a) AfModeManual) eqn:E.
    + apply AfMode_eqb_eq in E. af_simpl. rewrite negb_true_iff.
      split.
      * intros H. split; [exact E|]. intros [Hi Hq].
        apply Qeqb_eq in Hq. rewrite Hi, Hq in H. discriminate.
      * intros [_ H]. destruct (initted_ a); [|reflexivity].
        destruct (Qeqb _ _) eqn:Eq; [|reflexivity].
        exfalso. apply H. split; [reflexivity | apply Qeqb_eq, Eq].
    + af_simpl. split; [discriminate|]. intros [Hm _].
      apply AfMode_eqb_eq in Hm. congruence.
Qed.

Lemma setLensPosition_outside_manual_witness :
  setLensPosition trackingPdaf 5.0 true = (trackingPdaf, false, Some 541%Z).
Proof.
  destruct (setLensPosition_outside_manual trackingPdaf 5.0 true) as [H _].
  rewrite H.
  - reflexivity.
  - discriminate.
Defined.

(** ** Speed selection *)

(** C8: [setSpeed] leaves the object as it is for an enumerator that is
    not below [AfSpeedMax]. For a valid one the speed selector becomes the
    new speed; in [Pdaf], when the new speed has a larger [pdafFrames]
    budget, [stepCount_] grows by the increase of the budget (in 32-bit
    unsigned arithmetic); in every other state, and when the budget does
    not grow, [stepCount_] is unchanged. Nothing else changes. *)
Theorem setSpeed_extends_stepCount (a : Af) (s : N) :
  let s' := AfSpeed_of_Z (Z.of_N s) in
  let old := pdafFrames (speed a) in
  let new := pdafFrames (speeds (cfg_ a) s') in
  ((AfSpeedMax <= Z.of_N s)%Z -> setSpeed a s = a) /\
  ((Z.of_N s < AfSpeedMax)%Z ->
   setSpeed a s = set_speed s' (set_stepCount (stepCount_ (setSpeed a s)) a) /\
   speed_ (setSpeed a s) = s' /\
   (scanState_ a = Pdaf -> (old < new)%Z ->
    stepCount_ (setSpeed a s) = wrap32 (stepCount_ a + (new - old)) /\
    ((0 <= stepCount_ a)%Z -> (stepCount_ a + (new - old) < 2 ^ 32)%Z ->
     (stepCount_ (setSpeed a s) - stepCount_ a = new - old)%Z)) /\
   (scanState_ a <> Pdaf -> stepCount_ (setSpeed a s) = stepCount_ a) /\
   ((new <= old)%Z -> stepCount_ (setSpeed a s) = stepCount_ a)).
Proof.
  cbv zeta. unfold setSpeed. split.
  - intros H. apply Z.ltb_ge in H. rewrite H. reflexivity.
  - intros H. apply Z.ltb_lt in H. rewrite H.
    set (s' := AfSpeed_of_Z (Z.of_N s)).
    destruct (ScanState_eqb (scanState_ a) Pdaf) eqn:Es;
      destruct (pdafFrames (speed a) <? pdafFrames (speeds (cfg_ a) s'))%Z
        eqn:Eb; cbn [andb].
    + apply Z.ltb_lt in Eb. split; [reflexivity|]. split; [reflexivity|].
      af_simpl. split; [|split].
      * intros _ _. split; [reflexivity|]. intros H0 H1.
        unfold wrap32. rewrite Z.mod_small; lia.
      * intros Hst. apply ScanState_eqb_eq in Es. contradiction.
      * intros Hle. lia.
    + apply Z.ltb_ge in Eb. split; [destruct a; reflexivity|].
      split; [reflexivity|]. af_simpl. split; [|split].
      * intros _ Hlt. lia.
      * reflexivity.
      * reflexivity.
    + split; [destruct a; reflexivity|].
      split; [reflexivity|]. af_simpl. split; [|split].
      * intros Hst. apply ScanState_eqb_eq in Hst. congruence.
      * reflexivity.
      * reflexivity.
    + split; [destruct a; reflexivity|].
      split; [reflexivity|]. af_simpl. split; [|split].
      * intros Hst. apply ScanState_eqb_eq in Hst. congruence.
      * reflexivity.
      * reflexivity.
Qed.

Lemma setSpeed_extends_stepCount_witness :
  setSpeed trackingPdaf 2 = trackingPdaf /\
  speed_ (setSpeed trackingPdaf 1) = AfSpeedFast /\
  stepCount_ trackingPdaf = 7%Z /\
  stepCount_ (setSpeed trackingPdaf 1) = 37%Z /\
  stepCount_ (setSpeed (goIdle trackingPdaf) 1) = 7%Z.
Proof.
  destruct (setSpeed_extends_stepCount trackingPdaf 2) as [Hout _].
  destruct (setSpeed_extends_stepCount trackingPdaf 1) as [_ Hin].
  destruct (setSpeed_extends_stepCount (goIdle trackingPdaf) 1) as [_ Hidle].
  split; [apply Hout; vm_compute; discriminate|].
  destruct Hin as (_ & Hsp & Hext & _); [reflexivity|].
  destruct Hidle as (_ & _ & _ & Hother & _); [reflexivity|].
  split; [exact Hsp|]. split; [reflexivity|]. split.
  - destruct Hext as [He _]; [reflexivity | reflexivity |].
    rewrite He. reflexivity.
  - rewrite Hother; [reflexivity | discriminate].
Defined.

(** ** PDAF tracking and dropouts *)

(** C9: in [Pdaf] with no skip pending, the frame runs [doPDAF] exactly
    when the confidence exceeds [0.25 * confEpsilon] if [dropCount_] is
    zero and [confEpsilon] if it is not (four times as much); a tracked
    frame takes the target and the report of [doPDAF] and resets
    [dropCount_]; any other frame only increments [dropCount_], and
    [startProgrammedScan] runs exactly when the incremented count equals
    [dropoutFrames]. *)
Theorem doAF_pdaf_confidence_tiers (a : Af) (c p cf : Q) :
  skipCount_ a = 0%Z ->
  scanState_ a = Pdaf ->
  let bar := (if (dropCount_ a =? 0)%Z then 0.25 else 1.0)
             * inject_Z (confEpsilon (cfg_ a)) in
  let a' := doAF a c p cf in
  let dropped := set_dropCount (wrap32 (dropCount_ a + 1)) a in
  (bar < cf ->
   ftarget_ a' = ftarget_ (doPDAF a p cf) /\
   reportState_ a' = reportState_ (doPDAF a p cf) /\
   dropCount_ a' = 0%Z /\
   scanState_ a' <> Coarse) /\
  (cf <= bar ->
   a' = if (wrap32 (dropCount_ a + 1) =? dropoutFrames (speed a))%Z
        then startProgrammedScan dropped else dropped) /\
  (scanState_ a' = Coarse <->
   cf <= bar /\ wrap32 (dropCount_ a + 1) = dropoutFrames (speed a)) /\
  ((dropCount_ a = 0%Z -> bar == 0.25 * inject_Z (confEpsilon (cfg_ a))) /\
   (dropCount_ a <> 0%Z ->
    bar == 4 * (0.25 * inject_Z (confEpsilon (cfg_ a))))).
Proof.
  intros Hskip Hst. cbv zeta.
  assert (forall b : Af, scanState_ b = Pdaf ->
            scanState_
              (set_dropCount 0
                 (if (0 <? stepCount_ b)%Z
                  then set_stepCount (stepCount_ b - 1) b
                  else if negb (AfMode_eqb (mode_ b) AfModeContinuous)
                       then set_scanState Idle b else b)) <> Coarse) as Hnc.
  { intros b Hb. af_simpl. repeat (branch; af_simpl); congruence. }
  unfold doAF. rewrite Hskip, Hst.
  cbn [Z.ltb Z.compare ScanState_eqb ScanState_ord Z.eqb Pos.eqb].
  set (bar := (if (dropCount_ a =? 0)%Z then 0.25 else 1.0)
              * inject_Z (confEpsilon (cfg_ a))).
  destruct (Qltb bar cf) eqn:Eb.
  - apply Qltb_lt in Eb.
    pose proof (doPDAF_scanState a p cf) as Hps. rewrite Hst in Hps.
    split; [|split; [|split]].
    + intros _. split; [|split; [|split]].
      * af_simpl. repeat (branch; af_simpl); reflexivity.
      * af_simpl. repeat (branch; af_simpl); reflexivity.
      * reflexivity.
      * apply Hnc, Hps.
    + intros Hle. lra.
    + split.
      * intros H. exfalso. exact (Hnc _ Hps H).
      * intros [Hle _]. lra.
    + subst bar. split; intros H.
      * rewrite H. reflexivity.
      * apply Z.eqb_neq in H. rewrite H. ring.
  - apply Qltb_ge in Eb. af_simpl.
    split; [|split; [|split]].
    + intros Hlt. lra.
    + intros _. reflexivity.
    + destruct (wrap32 (dropCount_ a + 1)
                =? dropoutFrames (speeds (cfg_ a) (speed_ a)))%Z eqn:Ed.
      * apply Z.eqb_eq in Ed. split; [intros _; split; assumption|].
        intros _. reflexivity.
      * apply Z.eqb_neq in Ed. af_simpl. rewrite Hst.
        split; [discriminate | intros [_ H]; contradiction].
    + subst bar. split; intros H.
      * rewrite H. reflexivity.
      * apply Z.eqb_neq in H. rewrite H. ring.
Qed.

Lemma doAF_pdaf_confidence_tiers_witness :
  (* no dropout yet: a confidence of 3 exceeds 0.25 * 8 and is tracked *)
  dropCount_ (doAF trackingPdaf 0 16 3) = 0%Z /\
  (* after one dropout the same confidence is below 8 and counts again *)
  doAF (set_dropCount 1 trackingPdaf) 0 16 3
  = set_dropCount 2 trackingPdaf /\
  (* the sixth dropout in a row starts the programmed scan *)
  scanState_ (doAF (set_dropCount 5 trackingPdaf) 0 16 3) = Coarse.
Proof.
  destruct (doAF_pdaf_confidence_tiers trackingPdaf 0 16 3)
    as [Htrack _]; [reflexivity | reflexivity |].
  destruct (doAF_pdaf_confidence_tiers (set_dropCount 1 trackingPdaf) 0 16 3)
    as (_ & Hdrop & _); [reflexivity | reflexivity |].
  destruct (doAF_pdaf_confidence_tiers (set_dropCount 5 trackingPdaf) 0 16 3)
    as (_ & _ & Hscan & _); [reflexivity | reflexivity |].
  split; [|split].
  - apply Htrack. vm_compute. reflexivity.
  - rewrite Hdrop; [vm_compute; reflexivity | vm_compute; discriminate].
  - apply Hscan. split; [vm_compute; discriminate | vm_compute; reflexivity].
Defined.

(** ** Peak interpolation *)

Lemma ratio_bounds (x y : Q) : 0 <= x -> x < y -> 0 <= x / y /\ x / y < 1.
Proof.
  intros Hx Hy. split.
  - apply Qle_shift_div_l; lra.
  - apply Qlt_shift_div_r; lra.
Qed.

(** The interpolation offset lies in (0, 1/2]; it is below 1/2 when the
    two drops differ from zero. *)
Lemma peak_offset_bounds (r : Q) :
  0 <= r -> r < 1 ->
  0 < 0.3125 * (1.0 - r) * (1.6 - r) /\
  0.3125 * (1.0 - r) * (1.6 - r) <= 1 # 2.
Proof.
  intros H0 H1.
  assert (0 < 1.0 - r) by lra.
  assert (0.6 < 1.6 - r) by lra.
  split.
  - apply Qmult_lt_0_compat; [apply Qmult_lt_0_compat|]; lra.
  - assert ((1.0 - r) * (1.6 - r) <= 1.0 * 1.6); [|lra].
    apply Qmult_le_compat_nonneg; split; lra.
Qed.

Lemma scanAt_middle (pre post : list ScanRecord.t) (lo mid hi : ScanRecord.t) :
  let l := pre ++ lo :: mid :: hi :: post in
  let i := S (length pre) in
  scanAt (i - 1) l = lo /\ scanAt i l = mid /\ scanAt (i + 1) l = hi /\
  (0 <? i)%nat = true /\ (i + 1 <? length l)%nat = true.
Proof.
  cbv zeta. unfold scanAt. repeat split.
  - rewrite app_nth2 by lia.
    replace (S (length pre) - 1 - length pre)%nat with 0%nat by lia.
    reflexivity.
  - rewrite app_nth2 by lia.
    replace (S (length pre) - length pre)%nat with 1%nat by lia.
    reflexivity.
  - rewrite app_nth2 by lia.
    replace (S (length pre) + 1 - length pre)%nat with 2%nat by lia.
    reflexivity.
  - apply Nat.ltb_lt. rewrite length_app. simpl. lia.
Qed.

(** A point moved from [f] by a fraction [t] in (0, 1/2] of the way to
    the neighbour at [f + e] stays strictly between that neighbour and the
    one at [f - e], and is closer to the one it moved towards. *)
Lemma moved_towards (f e t x nb other : Q) :
  ~ e == 0 -> 0 < t -> t <= 1 # 2 ->
  nb == f + e -> other == f - e -> x == f + t * (nb - f) ->
  Qabs (x - nb) < Qabs (x - other) /\
  (0 < e -> other < x /\ x < nb) /\
  (e < 0 -> nb < x /\ x < other).
Proof.
  intros He Ht0 Ht1 Hnb Hother Hx.
  assert (x == f + t * e) as Hx' by (rewrite Hx, Hnb; ring).
  destruct (Q_dec e 0) as [[Hneg | Hpos] | Hz]; [| |contradiction].
  - (* [e < 0] *)
    assert (0 < t * - e) as H1 by (apply Qmult_lt_0_compat; lra).
    assert (t * - e <= (1 # 2) * - e) as H2
        by (apply Qmult_le_compat_r; lra).
    assert (t * - e == - (t * e)) as H3 by ring.
    split; [|split; [intros; lra | intros _; split; lra]].
    rewrite (Qabs_pos (x - nb)) by lra.
    rewrite (Qabs_neg (x - other)) by lra. lra.
  - (* [0 < e] *)
    assert (0 < t * e) as H1 by (apply Qmult_lt_0_compat; lra).
    assert (t * e <= (1 # 2) * e) as H2
        by (apply Qmult_le_compat_r; lra).
    split; [|split; [intros _; split; lra | intros; lra]].
    rewrite (Qabs_neg (x - nb)) by lra.
    rewrite (Qabs_pos (x - other)) by lra. lra.
Qed.

(** C6: in a scan history with three consecutive samples [(f - d, c1)],
    [(f, c2)] and [(f + d, c2 - e)], where [c2 > c1], [e > 0] and [d] is
    not zero, [findPeak] at the middle sample returns a focus strictly
    between [f - d] and [f + d]. With [r] the ratio of the smaller contrast
    drop to the larger one, the result is [f] moved by the fraction
    [0.3125 * (1 - r) * (1.6 - r)] of the way to the neighbour with the
    smaller drop, and is closer to that neighbour than to the other; with
    equal drops it is [f]. *)
Theorem findPeak_interpolates (a : Af) (pre post : list ScanRecord.t)
    (lo mid hi : ScanRecord.t) (f d c1 c2 e : Q) :
  scanData_ a = pre ++ lo :: mid :: hi :: post ->
  ScanRecord.focus lo == f - d -> ScanRecord.contrast lo == c1 ->
  ScanRecord.focus mid == f -> ScanRecord.contrast mid == c2 ->
  ScanRecord.focus hi == f + d -> ScanRecord.contrast hi == c2 - e ->
  c1 < c2 -> 0 < e -> ~ d == 0 ->
  let peak := findPeak a (S (length pre)) in
  let dropLo := c2 - c1 in
  let dropHi := e in
  let offset r := 0.3125 * (1.0 - r) * (1.6 - r) in
  (0 < d -> f - d < peak /\ peak < f + d) /\
  (d < 0 -> f + d < peak /\ peak < f - d) /\
  (dropLo < dropHi ->
   peak == f + offset (dropLo / dropHi) * ((f - d) - f) /\
   Qabs (peak - (f - d)) < Qabs (peak - (f + d))) /\
  (dropHi < dropLo ->
   peak == f + offset (dropHi / dropLo) * ((f + d) - f) /\
   Qabs (peak - (f + d)) < Qabs (peak - (f - d))) /\
  (dropLo == dropHi -> peak == f).
Proof.
  intros Hdata Hfl Hcl Hfm Hcm Hfh Hch Hc He Hd. cbv zeta.
  unfold findPeak. rewrite Hdata.
  destruct (scanAt_middle pre post lo mid hi) as (-> & -> & -> & -> & ->).
  cbn [andb].
  set (DL := ScanRecord.contrast mid - ScanRecord.contrast lo).
  set (DH := ScanRecord.contrast mid - ScanRecord.contrast hi).
  assert (DL == c2 - c1) as HDL by (subst DL; rewrite Hcm, Hcl; reflexivity).
  assert (DH == e) as HDH by (subst DH; rewrite Hcm, Hch; ring).
  assert (Qleb 0.0 DL = true) as -> by (apply Qleb_le; lra).
  assert (Qleb 0.0 DH = true) as -> by (apply Qleb_le; lra).
  cbn [andb].
  assert (forall t nb,
            ScanRecord.focus mid + t * (nb - ScanRecord.focus mid)
            == f + t * (nb - f)) as Hmove
      by (intros t nb; rewrite Hfm; reflexivity).
  destruct (Qltb DL DH) eqn:E1; [apply Qltb_lt in E1 | apply Qltb_ge in E1].
  - (* the drop towards the lower neighbour is the smaller one *)
    destruct (ratio_bounds DL DH) as [Hr0 Hr1]; [lra | lra |].
    destruct (peak_offset_bounds _ Hr0 Hr1) as [Ht0 Ht1].
    assert (~ - d == 0) as Hd' by (intros H; apply Hd; lra).
    assert (ScanRecord.focus lo == f + - d) as Hnb by (rewrite Hfl; ring).
    assert (f + d == f - - d) as Hother by ring.
    destruct (moved_towards f (- d) _ _ _ _ Hd' Ht0 Ht1 Hnb Hother
                (Hmove _ _)) as (B1 & B2 & B3).
    split; [intros Hpos; destruct B3; [lra|]; split; lra|].
    split; [intros Hneg; destruct B2; [lra|]; split; lra|].
    split; [|split].
    + intros _. split.
      * rewrite Hfm, Hfl, HDL, HDH. reflexivity.
      * rewrite <- Hfl. exact B1.
    + intros Hlt. lra.
    + intros Heq. lra.
  - destruct (Qltb DH DL) eqn:E2; [apply Qltb_lt in E2 | apply Qltb_ge in E2].
    + (* the drop towards the upper neighbour is the smaller one *)
      destruct (ratio_bounds DH DL) as [Hr0 Hr1]; [lra | lra |].
      destruct (peak_offset_bounds _ Hr0 Hr1) as [Ht0 Ht1].
      destruct (moved_towards f d _ _ _ _ Hd Ht0 Ht1 Hfh (Qeq_refl _)
                  (Hmove _ _)) as (B1 & B2 & B3).
      split; [intros Hpos; destruct B2; [lra|]; split; lra|].
      split; [intros Hneg; destruct B3; [lra|]; split; lra|].
      split; [|split].
      * intros Hlt. lra.
      * intros _. split.
        -- rewrite Hfm, Hfh, HDL, HDH. reflexivity.
        -- rewrite <- Hfh. exact B1.
      * intros Heq. lra.
    + (* equal drops: the middle sample itself *)
      split; [intros; lra|]. split; [intros; lra|]. split; [|split].
      * intros Hlt. lra.
      * intros Hlt. lra.
      * intros _. exact Hfm.
Qed.

Lemma findPeak_interpolates_witness :
  5 < findPeak peakedScan 2 /\ findPeak peakedScan 2 < 7 /\
  Qabs (findPeak peakedScan 2 - 5) < Qabs (findPeak peakedScan 2 - 7).
Proof.
  destruct (findPeak_interpolates peakedScan
              [ScanRecord.mk 4.0 60 0 0] []
              (ScanRecord.mk 5.0 80 0 0) (ScanRecord.mk 6.0 100 0 0)
              (ScanRecord.mk 7.0 50 0 0) 6 1 80 100 50)
    as (Hbetween & _ & Hlo & _).
  - reflexivity.
  - reflexivity.
  - reflexivity.
  - reflexivity.
  - reflexivity.
  - reflexivity.
  - reflexivity.
  - reflexivity.
  - reflexivity.
  - vm_compute. discriminate.
  - destruct Hlo as [_ Hc]; [reflexivity|].
    destruct Hbetween as [B1 B2]; [reflexivity|].
    split; [|split].
    + exact B1.
    + exact B2.
    + exact Hc.
Defined.

(** ** Phase fusion *)

Lemma wrap32_small (z : Z) : (0 <= z < 2 ^ 32)%Z -> wrap32 z = z.
Proof. intros H. unfold wrap32. apply Z.mod_small. exact H. Qed.

Lemma wrap32_add_l (x t : Z) : wrap32 (wrap32 x + t) = wrap32 (x + t).
Proof. unfold wrap32. apply Zplus_mod_idemp_l. Qed.

Lemma wrap64s_small (z : Z) : (- 2 ^ 63 <= z < 2 ^ 63)%Z -> wrap64s z = z.
Proof. intros H. unfold wrap64s. rewrite Z.mod_small; lia. Qed.

Lemma wrap64s_add_l (y t : Z) : wrap64s (wrap64s y + t) = wrap64s (y + t).
Proof.
  unfold wrap64s.
  replace ((y + 2 ^ 63) mod 2 ^ 64 - 2 ^ 63 + t + 2 ^ 63)%Z
    with ((y + 2 ^ 63) mod 2 ^ 64 + t)%Z by lia.
  rewrite Zplus_mod_idemp_l. f_equal. f_equal. lia.
Qed.

(** The two nested loops visit the cells in raster order. *)
Lemma nested_loops_raster {A : Type} (f : A -> nat -> nat -> A)
    (rows cols : list nat) (acc : A) :
  fold_left (fun acc i => fold_left (fun acc j => f acc i j) cols acc) rows acc
  = fold_left (fun acc ij => f acc (fst ij) (snd ij)) (list_prod rows cols) acc.
Proof.
  revert acc. induction rows as [|r rows IH]; intros acc; [reflexivity|].
  cbn [fold_left list_prod]. rewrite fold_left_app, <- IH. f_equal.
  clear IH. revert acc. induction cols as [|c cols IHc]; intros acc;
    [reflexivity|].
  cbn [fold_left List.map]. apply IHc.
Qed.

Section PhaseFusion.

Variable a : Af.
Variable data : PdafData.

Hypothesis thresh_nonneg : (0 <= confThresh (cfg_ a))%Z.
Hypothesis thresh_le_clip : (confThresh (cfg_ a) <= confClip (cfg_ a))%Z.
Hypothesis clip_fits : (confClip (cfg_ a) < 2 ^ 32)%Z.

(** One pass of the loop body adds the cell's terms to both sums. *)
Lemma getPhase_cell_adds (X Y : Z) (ij : nat * nat) :
  getPhase_cell a data (wrap32 X, wrap64s Y) (fst ij) (snd ij)
  = if cellCounts a data ij then
      (wrap32 (X + cell (phaseWeights_ a) (fst ij) (snd ij)
                   * biasedConf 1 a data ij),
       wrap64s (Y + cell (phaseWeights_ a) (fst ij) (snd ij)
                    * cell (pdaf_phase data) (fst ij) (snd ij)
                    * biasedConf 2 a data ij))
    else (wrap32 X, wrap64s Y).
Proof.
  unfold getPhase_cell, cellCounts, biasedConf.
  destruct (cell (phaseWeights_ a) (fst ij) (snd ij) =? 0)%Z; cbn [negb andb];
    [reflexivity|].
  destruct (confThresh (cfg_ a) <=? cell (pdaf_conf data) (fst ij) (snd ij))%Z
    eqn:Ec; [|reflexivity].
  apply Z.leb_le in Ec.
  rewrite Z.shiftr_div_pow2 by lia. change (2 ^ 2)%Z with 4%Z.
  set (q := (confThresh (cfg_ a) / 4)%Z).
  assert (0 <= q /\ 4 * q <= confThresh (cfg_ a))%Z as [Hq0 Hq4].
  { subst q. pose proof (Z.mul_div_le (confThresh (cfg_ a)) 4).
    pose proof (Z.div_pos (confThresh (cfg_ a)) 4). lia. }
  set (c := cell (pdaf_conf data) (fst ij) (snd ij)) in *.
  assert ((if (confClip (cfg_ a) <? c)%Z then confClip (cfg_ a) else c)
          = Z.min c (confClip (cfg_ a))) as ->.
  { destruct (confClip (cfg_ a) <? c)%Z eqn:E;
      [apply Z.ltb_lt in E | apply Z.ltb_ge in E]; lia. }
  set (m := Z.min c (confClip (cfg_ a))).
  assert (confThresh (cfg_ a) <= m < 2 ^ 32)%Z as Hm by (subst m; lia).
  rewrite (wrap32_small (m - q)) by lia.
  rewrite (wrap32_small (m - q - q)) by lia.
  rewrite wrap32_add_l, wrap64s_add_l.
  f_equal; f_equal; f_equal; lia.
Qed.

Lemma getPhase_fold (l : list (nat * nat)) (X Y : Z) :
  fold_left (fun acc ij => getPhase_cell a data acc (fst ij) (snd ij)) l
            (wrap32 X, wrap64s Y)
  = (wrap32 (X + sumZ (List.map
                         (fun ij => cell (phaseWeights_ a) (fst ij) (snd ij)
                                    * biasedConf 1 a data ij)%Z
                         (filter (cellCounts a data) l))),
     wrap64s (Y + sumZ (List.map
                          (fun ij => cell (phaseWeights_ a) (fst ij) (snd ij)
                                     * cell (pdaf_phase data) (fst ij) (snd ij)
                                     * biasedConf 2 a data ij)%Z
                          (filter (cellCounts a data) l)))).
Proof.
  revert X Y. induction l as [|ij l IH]; intros X Y.
  - cbn. rewrite !Z.add_0_r. reflexivity.
  - cbn [fold_left filter]. rewrite getPhase_cell_adds.
    destruct (cellCounts a data ij).
    + rewrite IH. unfold sumZ. cbn [List.map fold_right].
      rewrite !Z.add_assoc. reflexivity.
    + apply IH.
Qed.

(** The accumulators of the code are the sums of the specification,
    reduced to their C++ types. *)
Lemma getPhase_sums_spec :
  getPhase_sums a data
  = (wrap32 (spec_sumWc a data), wrap64s (spec_sumWcp a data)).
Proof.
  unfold getPhase_sums. rewrite nested_loops_raster.
  change (0, 0)%Z with (wrap32 0, wrap64s 0).
  rewrite getPhase_fold, !Z.add_0_l.
  unfold spec_sumWc, spec_sumWcp, pdafCells. reflexivity.
Qed.

End PhaseFusion.

(** *** The sums fit their types on the grids the pipeline produces *)

Lemma sumZ_bounds (l : list Z) (lo hi : Z) :
  (forall x, In x l -> lo <= x <= hi)%Z ->
  (lo * Z.of_nat (length l) <= sumZ l <= hi * Z.of_nat (length l))%Z.
Proof.
  induction l as [|x l IH]; intros H.
  - cbn. lia.
  - cbn [sumZ fold_right length]. fold (sumZ l).
    pose proof (H x (or_introl eq_refl)).
    assert (forall y, In y l -> lo <= y <= hi)%Z as Hl
        by (intros y Hy; apply H; right; exact Hy).
    specialize (IH Hl). rewrite Nat2Z.inj_succ. lia.
Qed.

Lemma sumZ_map_bounds {A : Type} (f : A -> Z) (l : list A) (lo hi : Z) :
  (forall x, In x l -> lo <= f x <= hi)%Z ->
  (lo * Z.of_nat (length l) <= sumZ (List.map f l)
   <= hi * Z.of_nat (length l))%Z.
Proof.
  intros H. rewrite <- (length_map f l). apply sumZ_bounds.
  intros y Hy. apply in_map_iff in Hy. destruct Hy as (x & <- & Hx).
  apply H, Hx.
Qed.

Lemma filter_length_le {A : Type} (f : A -> bool) (l : list A) :
  (length (filter f l) <= length l)%nat.
Proof.
  induction l as [|x l IH]; cbn; [lia|]. destruct (f x); cbn; lia.
Qed.

(** With weights of at most 240 (ten windows of at most 24 each, as
    [computeWeights] produces them), 16-bit confidences and phases, and
    [confThresh <= confClip], neither sum leaves its type. *)
Lemma spec_sums_fit (a : Af) (data : PdafData) :
  (0 <= confThresh (cfg_ a) <= confClip (cfg_ a))%Z ->
  (forall i j, (i < PDAF_DATA_ROWS)%nat -> (j < PDAF_DATA_COLS)%nat ->
     0 <= cell (phaseWeights_ a) i j <= 240 /\
     0 <= cell (pdaf_conf data) i j < 2 ^ 16 /\
     - 2 ^ 15 <= cell (pdaf_phase data) i j < 2 ^ 15)%Z ->
  (0 <= spec_sumWc a data < 2 ^ 32)%Z /\
  (- 2 ^ 63 <= spec_sumWcp a data < 2 ^ 63)%Z.
Proof.
  intros [Ht Hc] Hcells.
  set (q := (confThresh (cfg_ a) / 4)%Z).
  assert (0 <= q /\ 4 * q <= confThresh (cfg_ a))%Z as [Hq0 Hq4].
  { subst q. pose proof (Z.mul_div_le (confThresh (cfg_ a)) 4).
    pose proof (Z.div_pos (confThresh (cfg_ a)) 4). lia. }
  assert (forall ij, In ij (filter (cellCounts a data) pdafCells) ->
            0 <= cell (phaseWeights_ a) (fst ij) (snd ij) <= 240 /\
            - 2 ^ 15 <= cell (pdaf_phase data) (fst ij) (snd ij) < 2 ^ 15 /\
            0 <= biasedConf 2 a data ij /\
            biasedConf 2 a data ij <= biasedConf 1 a data ij < 2 ^ 16)%Z
    as Hterm.
  { intros [i j] Hin. apply filter_In in Hin. destruct Hin as [Hin Hcnt].
    unfold pdafCells in Hin. apply in_prod_iff in Hin.
    destruct Hin as [Hi Hj]. apply in_seq in Hi, Hj.
    destruct (Hcells i j) as (Hw & Hcf & Hph); [lia | lia |].
    unfold cellCounts in Hcnt. apply andb_true_iff in Hcnt.
    destruct Hcnt as [_ Hge]. apply Z.leb_le in Hge.
    cbn [fst snd] in *. unfold biasedConf. cbn [fst snd]. fold q.
    repeat split; lia. }
  pose proof (filter_length_le (cellCounts a data) pdafCells) as Hlen.
  change (length pdafCells) with 192%nat in Hlen.
  split.
  - unfold spec_sumWc.
    pose proof (sumZ_map_bounds
                  (fun ij => cell (phaseWeights_ a) (fst ij) (snd ij)
                             * biasedConf 1 a data ij)%Z
                  (filter (cellCounts a data) pdafCells) 0 (240 * 2 ^ 16))
      as Hb.
    assert (forall ij, In ij (filter (cellCounts a data) pdafCells) ->
              0 <= cell (phaseWeights_ a) (fst ij) (snd ij)
                   * biasedConf 1 a data ij <= 240 * 2 ^ 16)%Z as Hx.
    { intros ij Hin. destruct (Hterm ij Hin) as (Hw & _ & H0 & H1 & H2).
      split; [apply Z.mul_nonneg_nonneg; lia|].
      apply Z.mul_le_mono_nonneg; lia. }
    specialize (Hb Hx). lia.
  - unfold spec_sumWcp.
    pose proof (sumZ_map_bounds
                  (fun ij => cell (phaseWeights_ a) (fst ij) (snd ij)
                             * cell (pdaf_phase data) (fst ij) (snd ij)
                             * biasedConf 2 a data ij)%Z
                  (filter (cellCounts a data) pdafCells)
                  (- (240 * 2 ^ 15 * 2 ^ 16)) (240 * 2 ^ 15 * 2 ^ 16))
      as Hb.
    assert (forall ij, In ij (filter (cellCounts a data) pdafCells) ->
              - (240 * 2 ^ 15 * 2 ^ 16)
              <= cell (phaseWeights_ a) (fst ij) (snd ij)
                 * cell (pdaf_phase data) (fst ij) (snd ij)
                 * biasedConf 2 a data ij
              <= 240 * 2 ^ 15 * 2 ^ 16)%Z as Hx.
    { intros ij Hin. destruct (Hterm ij Hin) as (Hw & Hp & H0 & H1 & H2).
      set (w := cell (phaseWeights_ a) (fst ij) (snd ij)) in *.
      set (ph := cell (pdaf_phase data) (fst ij) (snd ij)) in *.
      set (c2 := biasedConf 2 a data ij) in *.
      assert (0 <= w * c2 <= 240 * 2 ^ 16)%Z as Hwc
          by (split; [apply Z.mul_nonneg_nonneg; lia
                     | apply Z.mul_le_mono_nonneg; lia]).
      replace (w * ph * c2)%Z with (ph * (w * c2))%Z by ring.
      destruct (Z.le_gt_cases 0 ph) as [Hpos | Hneg].
      - assert (0 <= ph * (w * c2) <= 2 ^ 15 * (240 * 2 ^ 16))%Z
          by (split; [apply Z.mul_nonneg_nonneg; lia
                     | apply Z.mul_le_mono_nonneg; lia]).
        lia.
      - assert (0 <= (- ph) * (w * c2) <= 2 ^ 15 * (240 * 2 ^ 16))%Z
          by (split; [apply Z.mul_nonneg_nonneg; lia
                     | apply Z.mul_le_mono_nonneg; lia]).
        lia. }
    specialize (Hb Hx). lia.
Qed.

(** C1: when the configuration has [confThresh <= confClip] and the two
    sums fit their C++ types, [getPhase] computes the fusion of the
    specification: it returns true exactly when
    [0 < sumWeights <= sumWc], with [phase = sumWcp / sumWc] and
    [conf = sumWc / sumWeights], and otherwise returns false with phase and
    confidence zero. Here [sumWc] sums, over the cells of nonzero weight
    and raw confidence at least [confThresh], the weight times the
    confidence clipped to [confClip] less [confThresh / 4]. *)
Theorem getPhase_valid_iff (a : Af) (data : PdafData) :
  (0 <= confThresh (cfg_ a) <= confClip (cfg_ a))%Z ->
  (confClip (cfg_ a) < 2 ^ 32)%Z ->
  (0 <= spec_sumWc a data < 2 ^ 32)%Z ->
  (- 2 ^ 63 <= spec_sumWcp a data < 2 ^ 63)%Z ->
  let valid := fst (fst (getPhase a data)) in
  let phase := snd (fst (getPhase a data)) in
  let conf := snd (getPhase a data) in
  getPhase a data = spec_getPhase a data /\
  (valid = true <->
   (0 < sumWeights_ a)%Z /\ (sumWeights_ a <= spec_sumWc a data)%Z) /\
  (valid = true ->
   phase = inject_Z (spec_sumWcp a data) / inject_Z (spec_sumWc a data) /\
   conf = inject_Z (spec_sumWc a data) / inject_Z (sumWeights_ a)) /\
  (valid = false -> phase == 0 /\ conf == 0).
Proof.
  intros [Ht Hc] Hclip Hwc Hwcp. cbv zeta.
  assert (getPhase a data = spec_getPhase a data) as ->.
  { unfold getPhase, spec_getPhase.
    rewrite (getPhase_sums_spec a data Ht Hc Hclip).
    rewrite (wrap32_small _ Hwc), (wrap64s_small _ Hwcp). reflexivity. }
  split; [reflexivity|].
  unfold spec_getPhase.
  destruct ((0 <? sumWeights_ a)%Z && (sumWeights_ a <=? spec_sumWc a data)%Z)
    eqn:E; cbn [fst snd].
  - apply andb_true_iff in E. destruct E as [E1 E2].
    apply Z.ltb_lt in E1. apply Z.leb_le in E2.
    split; [split; [intros _; split; assumption | reflexivity]|].
    split; [intros _; split; reflexivity | discriminate].
  - split; [split; [discriminate|]|].
    + intros [H1 H2]. apply Z.ltb_lt in H1. apply Z.leb_le in H2.
      rewrite H1, H2 in E. discriminate.
    + split; [discriminate | intros _; split; reflexivity].
Qed.

Lemma getPhase_valid_iff_witness :
  spec_sumWc weightedAf flatPdaf = 73728%Z /\
  spec_sumWcp weightedAf flatPdaf = (-2260992)%Z /\
  getPhase weightedAf flatPdaf
  = (true, inject_Z (-2260992) / inject_Z 73728, inject_Z 73728 / inject_Z 768).
Proof.
  destruct (getPhase_valid_iff weightedAf flatPdaf) as [H _].
  - vm_compute. split; discriminate.
  - reflexivity.
  - vm_compute. split; [discriminate | reflexivity].
  - vm_compute. split; [discriminate | reflexivity].
  - split; [vm_compute; reflexivity|].
    split; [vm_compute; reflexivity|].
    rewrite H. vm_compute. reflexivity.
Defined.

(** ** Length of the coarse scan *)



(** The frame that takes a scan step: no skip pending, the lens arrived,
    the countdown expired, and a confidence below [confEpsilon]. *)
Lemma doAF_scan_step s c p cf :
  scanState_ s = Coarse ->
  skipCount_ s = 0%Z -> stepCount_ s = 0%Z ->
  fsmooth_ s == ftarget_ s ->
  cf < inject_Z (confEpsilon (cfg_ s)) ->
  doAF s c p cf = doScan s c p cf.
Proof.
  intros Hst Hskip Hstep Harr Hcf. unfold doAF.
  apply Qeqb_eq in Harr. apply Qleb_gt in Hcf.
  rewrite Hst, Hskip, Hstep, Harr, Hcf. reflexivity.
Qed.



Lemma inject_Z_of_nat_nonneg (n : nat) : 0 <= inject_Z (Z.of_nat n).
Proof.
  change 0 with (inject_Z 0). rewrite <- Zle_Qle. apply Nat2Z.is_nonneg.
Qed.

Section CoarseScan.

Variable a0 : Af.
Variable e : Q.
Variable P : Q -> Prop.
Hypothesis step_pos : e < stepCoarse (speed a0).
Hypothesis range_ok : focusMin (range a0) <= focusMax (range a0).
Hypothesis P_start : P (focusMin (range a0)).
Hypothesis P_step :
  forall t, P t -> focusMin (range a0) <= t -> t < focusMax (range a0) ->
    P (b64_add t (stepCoarse (speed a0))) /\
    t + stepCoarse (speed a0) - e <= b64_add t (stepCoarse (speed a0)).







End CoarseScan.


Lemma coarseStepErr_nonneg (a : Af) :
  0 <= stepCoarse (speed a) -> 0 <= coarseStepErr a.
Proof.
  intros Hstep. unfold coarseStepErr, b64_err.
  pose proof (Qabs_nonneg (focusMin (range a))) as H3.
  pose proof (Qabs_nonneg (focusMax (range a))) as H4.
  pose proof (pow2_pos (-53)) as H5. pose proof (pow2_pos (-1075)) as H6.
  assert (0 <= (Qabs (focusMin (range a)) + Qabs (focusMax (range a))
                + stepCoarse (speed a)) * pow2 (-53))
      by (apply Qmult_le_0_compat; lra).
  lra.
Qed.



(** The amended bound is needed: with the focus range [[0, 1]] and the
    coarse step 0.1, ten additions of the step give 0.99999999999999989 in
    binary64, which is below [focusMax]; after 11 scan steps the scan is
    still in [Coarse], where exact additions would have taken it to
    [focusMax] in 10, and the 12th step leaves [Coarse]. *)
Lemma coarse_scan_rounding_adds_a_step :
  let a := set_cfg tenthStepCfg Af_new in
  let s := frames (startProgrammedScan a) (slowDecayFrames 60) in
  Qceiling ((focusMax (range a) - focusMin (range a)) / stepCoarse (speed a))
  = 10%Z /\
  coarseStepBoundWith (coarseStepErr a) a = 11%Z /\
  staysCoarse (startProgrammedScan a) (slowDecayFrames 60) = true /\
  length (scanData_ s) = 11%nat /\
  ftarget_ s < focusMax (range a) + stepCoarse (speed a) /\
  scanState_ (frames (startProgrammedScan a) (slowDecayFrames 65)) = Fine.
Proof. vm_compute. repeat split. Qed.



(** * Further properties of the code *)

(** ** PDAF closed-loop control *)

(** The confidence of a frame that [doAF] passes to [doPDAF] is above a
    multiple of [confEpsilon], which is unsigned: the divisor
    [conf + confEpsilon] of [doPDAF] is positive. *)
Lemma tracked_confidence_divisor (a : Af) (cf : Q) :
  (0 <= confEpsilon (cfg_ a))%Z ->
  Qltb ((if (dropCount_ a =? 0)%Z then 0.25 else 1.0)
        * inject_Z (confEpsilon (cfg_ a))) cf = true ->
  0 < cf + inject_Z (confEpsilon (cfg_ a)).
Proof.
  intros He H. apply Qltb_lt in H.
  assert (0 <= inject_Z (confEpsilon (cfg_ a))) as H0
      by (change 0 with (inject_Z 0); rewrite <- Zle_Qle; exact He).
  destruct (dropCount_ a =? 0)%Z; lra.
Qed.

(** X1. [Af::doPDAF] places the target within one slew step of the smoothed
    position, whatever the phase, and whatever the confidence outside
    continuous mode; in continuous mode the confidence is one with a
    positive divisor [conf + confEpsilon], as in every call the code
    makes. *)
Theorem doPDAF_target_within_slew (a : Af) (p cf : Q) :
  0 <= maxSlew (speed a) ->
  (mode_ a = AfModeContinuous ->
   0 < cf + inject_Z (confEpsilon (cfg_ a))) ->
  Qabs (ftarget_ (doPDAF a p cf) - fsmooth_ a) <= maxSlew (speed a).
Proof.
  intros Hs _. apply Qabs_diff_le. unfold doPDAF.
  set (p0 := p * pdafGain (speed a)).
  destruct (AfMode_eqb (mode_ a) AfModeContinuous).
  - set (p1 := p0 * (cf / (cf + inject_Z (confEpsilon (cfg_ a))))).
    destruct (Qltb (Qabs p1) (pdafSquelch (speed a)));
      [set (p2 := p1 * _) | set (p2 := p1)]; clearbody p2;
      repeat cmp_case; af_simpl; split; lra.
  - destruct (stepFrames (speed a) <=? stepCount_ a)%Z.
    + destruct (Qltb (Qabs p0) (pdafSquelch (speed a)));
        clearbody p0; repeat cmp_case; af_simpl; split; lra.
    + set (p2 := p0 * _). clearbody p2.
      repeat cmp_case; af_simpl; split; lra.
Qed.

Lemma doPDAF_target_within_slew_witness :
  Qabs (ftarget_ (doPDAF (set_mode AfModeContinuous trackingPdaf) 1000 50)
        - fsmooth_ trackingPdaf)
  <= maxSlew (speed trackingPdaf).
Proof.
  apply (doPDAF_target_within_slew
           (set_mode AfModeContinuous trackingPdaf) 1000 50).
  - vm_compute. discriminate.
  - intros _. vm_compute. reflexivity.
Defined.

(** X2. In triggered (not Continuous) mode, once fewer than [stepFrames]
    iterations remain, the quotient [stepCount_ / stepFrames] of the two
    unsigned counters is zero: [doPDAF] asks for no lens movement at all
    and reports [Focused]. *)
Theorem doPDAF_triggered_tail_holds_lens (a : Af) (p cf : Q) :
  mode_ a <> AfModeContinuous ->
  (0 <= stepCount_ a < stepFrames (speed a))%Z ->
  0 <= maxSlew (speed a) ->
  ftarget_ (doPDAF a p cf) == fsmooth_ a /\
  reportState_ (doPDAF a p cf) = StateFocused /\
  stepCount_ (doPDAF a p cf) = stepCount_ a.
Proof.
  intros Hm Hc Hs. unfold doPDAF.
  destruct (AfMode_eqb (mode_ a) AfModeContinuous) eqn:Em;
    [apply AfMode_eqb_eq in Em; contradiction|].
  destruct (stepFrames (speed a) <=? stepCount_ a)%Z eqn:El;
    [apply Z.leb_le in El; lia|].
  rewrite Z.div_small by exact Hc. change (inject_Z 0) with 0.
  set (p0 := p * pdafGain (speed a) * 0).
  assert (p0 == 0) as H0 by (subst p0; ring).
  destruct (Qltb p0 (- maxSlew (speed a))) eqn:E1;
    [apply Qltb_lt in E1; lra|].
  destruct (Qltb (maxSlew (speed a)) p0) eqn:E2;
    [apply Qltb_lt in E2; lra|].
  af_simpl. repeat split. lra.
Qed.

Lemma doPDAF_triggered_tail_holds_lens_witness :
  stepCount_ (set_stepCount 3 trackingPdaf) = 3%Z /\
  ftarget_ (doPDAF (set_stepCount 3 trackingPdaf) 1000 50)
  == fsmooth_ trackingPdaf.
Proof.
  split; [reflexivity|].
  apply (doPDAF_triggered_tail_holds_lens (set_stepCount 3 trackingPdaf) 1000 50).
  - vm_compute. discriminate.
  - vm_compute. split; [discriminate | reflexivity].
  - vm_compute. discriminate.
Defined.

Lemma Qabs_mult_le_l (x f : Q) : 0 <= f -> f <= 1 -> Qabs (x * f) <= Qabs x.
Proof.
  intros H0 H1. rewrite Qabs_Qmult, (Qabs_pos f) by exact H0.
  pose proof (Qabs_nonneg x).
  assert (f * Qabs x <= 1 * Qabs x)
    by (apply Qmult_le_compat_r; assumption).
  lra.
Qed.

(** X3. In Continuous mode [doPDAF] only damps the correction: with a
    confidence that is not negative, the displacement it asks for is at
    most the phase times the loop gain, in absolute value. *)
Theorem doPDAF_continuous_damps (a : Af) (p cf : Q) :
  mode_ a = AfModeContinuous ->
  0 <= cf -> 0 < cf + inject_Z (confEpsilon (cfg_ a)) ->
  (0 <= confEpsilon (cfg_ a))%Z ->
  0 <= maxSlew (speed a) ->
  Qabs (ftarget_ (doPDAF a p cf) - fsmooth_ a)
  <= Qabs (p * pdafGain (speed a)).
Proof.
  intros Hm Hcf Hden Heps Hs. unfold doPDAF. rewrite Hm. cbn [AfMode_eqb].
  set (p0 := p * pdafGain (speed a)).
  set (f := cf / (cf + inject_Z (confEpsilon (cfg_ a)))).
  assert (0 <= f /\ f <= 1) as [Hf0 Hf1].
  { assert (0 <= inject_Z (confEpsilon (cfg_ a))) as He
        by (change 0 with (inject_Z 0); rewrite <- Zle_Qle; exact Heps).
    subst f. split.
    - apply Qle_shift_div_l; [exact Hden | lra].
    - apply Qle_shift_div_r; [exact Hden | lra]. }
  pose proof (Qabs_mult_le_l p0 f Hf0 Hf1) as H1.
  set (p1 := p0 * f) in *. clearbody p1.
  assert (exists p2,
            (if Qltb (Qabs p1) (pdafSquelch (speed a))
             then (p1 * (p1 / pdafSquelch (speed a)
                         * (p1 / pdafSquelch (speed a))), a)
             else (p1, a)) = (p2, a) /\ Qabs p2 <= Qabs p1) as (p2 & -> & H2).
  { destruct (Qltb (Qabs p1) (pdafSquelch (speed a))) eqn:E.
    - apply Qltb_lt in E. eexists. split; [reflexivity|].
      pose proof (Qabs_nonneg p1) as Hn.
      set (x := p1 / pdafSquelch (speed a)).
      assert (Qabs x <= 1) as Hx.
      { subst x. unfold Qdiv. rewrite Qabs_Qmult.
        rewrite (Qabs_pos (/ pdafSquelch (speed a)))
          by (apply Qlt_le_weak, Qinv_lt_0_compat; lra).
        apply Qle_shift_div_r; lra. }
      apply Qabs_mult_le_l.
      + assert (x * x == Qabs x * Qabs x) as ->.
        { rewrite <- Qabs_Qmult. symmetry. apply Qabs_pos.
          destruct (Qlt_le_dec x 0).
          - assert (x * x == (- x) * (- x)) as -> by ring.
            apply Qmult_le_0_compat; lra.
          - apply Qmult_le_0_compat; lra. }
        apply Qmult_le_0_compat; apply Qabs_nonneg.
      + assert (x * x == Qabs x * Qabs x) as ->.
        { rewrite <- Qabs_Qmult. symmetry. apply Qabs_pos.
          destruct (Qlt_le_dec x 0).
          - assert (x * x == (- x) * (- x)) as -> by ring.
            apply Qmult_le_0_compat; lra.
          - apply Qmult_le_0_compat; lra. }
        pose proof (Qabs_nonneg x) as Hxn.
        assert (Qabs x * Qabs x <= 1 * Qabs x)
          by (apply Qmult_le_compat_r; assumption).
        lra.
    - exists p1. split; [reflexivity | lra]. }
  assert (Qabs p2 <= Qabs p0) as H3 by lra. clear H1 H2.
  revert H3. generalize (Qabs p0). intros m H3.
  apply Qabs_Qle_condition in H3.
  apply Qabs_Qle_condition.
  repeat cmp_case; af_simpl; split; lra.
Qed.

Lemma doPDAF_continuous_damps_witness :
  Qabs (ftarget_ (doPDAF (set_mode AfModeContinuous trackingPdaf) 10 50)
        - fsmooth_ trackingPdaf)
  <= Qabs (10 * pdafGain (speed trackingPdaf)).
Proof.
  apply (doPDAF_continuous_damps (set_mode AfModeContinuous trackingPdaf) 10 50).
  - reflexivity.
  - vm_compute. discriminate.
  - vm_compute. reflexivity.
  - vm_compute. discriminate.
  - vm_compute. discriminate.
Defined.

(** ** Early termination by phase *)

(** X4. When [Af::earlyTerminationByPhase] accepts, the history is not empty,
    its last sample [(oldFocus, oldPhase)] has a confidence of at least
    [confEpsilon], and the new target is where the straight line through
    [(oldFocus, oldPhase)] and [(ftarget, phase)] crosses zero phase;
    only the target changes. *)
Theorem earlyTerminationByPhase_zero_crossing (a : Af) (p : Q) :
  fst (earlyTerminationByPhase a p) = true ->
  let last := scanAt (length (scanData_ a) - 1) (scanData_ a) in
  let a' := snd (earlyTerminationByPhase a p) in
  scanData_ a <> [] /\
  inject_Z (confEpsilon (cfg_ a)) <= ScanRecord.conf last /\
  ~ p - ScanRecord.phase last == 0 /\
  p + (ftarget_ a' - ftarget_ a)
      * ((p - ScanRecord.phase last) / (ftarget_ a - ScanRecord.focus last))
  == 0 /\
  a' = set_ftarget (ftarget_ a') a.
Proof.
  cbv zeta. unfold earlyTerminationByPhase.
  set (last := scanAt (length (scanData_ a) - 1) (scanData_ a)).
  destruct (0 <? length (scanData_ a))%nat eqn:En; [|discriminate].
  destruct (Qleb _ (ScanRecord.conf last)) eqn:Ec; [|discriminate].
  cbn [andb].
  destruct (Qltb 0.0 _) eqn:Eg; [|discriminate].
  destruct (Qleb (-3.0) _ && Qleb _ 3.5); [|discriminate].
  intros _. cbn [fst snd]. af_simpl.
  apply Qltb_lt in Eg. apply Qleb_le in Ec. apply Nat.ltb_lt in En.
  assert (~ p - ScanRecord.phase last == 0) as Hp.
  { intros H. rewrite H in Eg.
    assert ((ftarget_ a - ScanRecord.focus last) * 0 == 0) as H0 by ring.
    rewrite H0 in Eg. lra. }
  assert (~ ftarget_ a - ScanRecord.focus last == 0) as Hf.
  { intros H. rewrite H in Eg.
    assert (0 * (p - ScanRecord.phase last) == 0) as H0 by ring.
    rewrite H0 in Eg. lra. }
  split; [destruct (scanData_ a); [cbn in En; lia | discriminate]|].
  split; [exact Ec|]. split; [exact Hp|]. split; [|reflexivity].
  field. split; assumption.
Qed.

Lemma earlyTerminationByPhase_zero_crossing_witness :
  ftarget_ (snd (earlyTerminationByPhase phasedScan (-10))) == 4 /\
  -10 + (ftarget_ (snd (earlyTerminationByPhase phasedScan (-10))) - 3)
        * ((-10 - -20) / (3 - 2)) == 0.
Proof.
  destruct (earlyTerminationByPhase_zero_crossing phasedScan (-10))
    as (_ & _ & _ & H & _).
  - vm_compute. reflexivity.
  - split; [vm_compute; reflexivity|]. vm_compute. reflexivity.
Defined.

(** ** Scan history *)

Lemma scanAt_app_l (l : list ScanRecord.t) r i :
  (i < length l)%nat -> scanAt i (l ++ [r]) = scanAt i l.
Proof. intros H. unfold scanAt. apply app_nth1, H. Qed.

Lemma scanAt_app_last (l : list ScanRecord.t) r :
  scanAt (length l) (l ++ [r]) = r.
Proof.
  unfold scanAt. rewrite app_nth2 by lia. rewrite Nat.sub_diag. reflexivity.
Qed.

(** X5. When [Af::doScan] has appended its sample, [scanMaxIndex_] is an index
    of the history and the record there has the highest contrast recorded,
    [scanMaxContrast_]: the [findPeak(scanMaxIndex_)] that ends a scan
    phase reads inside the vector. The property is kept by [doScan]. *)
Theorem doScan_max_index_in_history (a : Af) (c p cf : Q) :
  scanMaxOk a ->
  let b := recordSample a c p cf in
  (scanMaxIndex_ b < length (scanData_ b))%nat /\
  ScanRecord.contrast (scanAt (scanMaxIndex_ b) (scanData_ b))
  == scanMaxContrast_ b /\
  Forall (fun r => ScanRecord.contrast r <= scanMaxContrast_ b) (scanData_ b) /\
  scanMaxOk (doScan a c p cf).
Proof.
  intros Hok. cbv zeta.
  assert (let b := recordSample a c p cf in
          (scanMaxIndex_ b < length (scanData_ b))%nat /\
          ScanRecord.contrast (scanAt (scanMaxIndex_ b) (scanData_ b))
          == scanMaxContrast_ b /\
          Forall (fun r => ScanRecord.contrast r <= scanMaxContrast_ b)
                 (scanData_ b)) as Hb.
  { cbv zeta. unfold recordSample.
    destruct (vec_empty (scanData_ a)) eqn:Ev; cbn [orb].
    - destruct (scanData_ a) eqn:Ed; [|discriminate].
      af_simpl. rewrite ?Ed.
      branch; af_simpl; rewrite ?Ed; cbn;
        (split; [lia|]; split; [reflexivity|]);
        repeat constructor; cbn; lra.
    - destruct Hok as [He | (Hi & Hc & Hall)];
        [rewrite He in Ev; discriminate|].
      destruct (Qltb (scanMaxContrast_ a) c) eqn:Em;
        [apply Qltb_lt in Em | apply Qltb_ge in Em];
        af_simpl; branch; af_simpl; rewrite ?length_app; cbn [length].
      all: split; [lia|]; split.
      all: try (rewrite scanAt_app_last; reflexivity).
      all: try (rewrite scanAt_app_l by exact Hi; exact Hc).
      all: apply Forall_app; split;
        [ eapply Forall_impl; [|exact Hall]; cbn; intros; lra
        | repeat constructor; cbn; lra ]. }
  destruct Hb as (H1 & H2 & H3). repeat split; try assumption.
  change (doScan a c p cf)
    with (let a := recordSample a c p cf in
          let a :=
            match scanState_ a with
            | Coarse =>
                if Qleb (focusMax (range a)) (ftarget_ a) ||
                   Qltb c (b64_mul (contrastRatio (speed a)) (scanMaxContrast_ a))
                then
                  let a :=
                    set_ftarget (std_min (ftarget_ a)
                                   (findPeak a (scanMaxIndex_ a)
                                    + 2.0 * stepFine (speed a))) a in
                  set_scanData [] (set_scanState Fine a)
                else set_ftarget (b64_add (ftarget_ a) (stepCoarse (speed a))) a
            | _ =>
                if Qleb (ftarget_ a) (focusMin (range a)) ||
                   (5 <=? length (scanData_ a))%nat ||
                   Qltb c (b64_mul (contrastRatio (speed a)) (scanMaxContrast_ a))
                then
                  set_scanState Settle
                    (set_ftarget (findPeak a (scanMaxIndex_ a)) a)
                else set_ftarget (b64_sub (ftarget_ a) (stepFine (speed a))) a
            end in
          set_stepCount (if Qeqb (ftarget_ a) (fsmooth_ a) then 0%Z
                         else stepFrames (speed a)) a).
  cbv zeta. set (b := recordSample a c p cf) in *. clearbody b.
  unfold scanMaxOk.
  destruct (scanState_ b); af_simpl;
    repeat (branch; af_simpl);
    solve [left; reflexivity | right; repeat split; assumption].
Qed.

Lemma doScan_max_index_in_history_witness :
  let a := set_scanMaxIndex 2 (set_scanMaxContrast 100 peakedScan) in
  let b := recordSample a 70 0 0 in
  (scanMaxIndex_ b < length (scanData_ b))%nat /\
  scanMaxOk (doScan a 70 0 0).
Proof.
  destruct (doScan_max_index_in_history
              (set_scanMaxIndex 2 (set_scanMaxContrast 100 peakedScan)) 70 0 0)
    as (H1 & _ & _ & H4).
  - right. split; [cbn; lia|]. split; [reflexivity|].
    repeat constructor; cbn; discriminate.
  - split; [exact H1 | exact H4].
Defined.

(** ** Length of the fine scan *)





(** ** Weights of the metering windows *)

Lemma upd_length {A : Type} (n : nat) (f : A -> A) (l : list A) :
  length (upd n f l) = length l.
Proof.
  revert n. induction l as [|x l IH]; intros [|n]; cbn; auto.
Qed.

Lemma nth_upd {A : Type} (n m : nat) (f : A -> A) (l : list A) (d : A) :
  nth m (upd n f l) d
  = if (n =? m)%nat && (n <? length l)%nat then f (nth n l d) else nth m l d.
Proof.
  revert n m. induction l as [|x l IH]; intros n m.
  - cbn. rewrite andb_false_r. destruct n; reflexivity.
  - destruct n as [|n], m as [|m]; cbn [upd nth length]; try reflexivity.
    rewrite IH. reflexivity.
Qed.

Lemma sumZ_upd_add (n : nat) (a : Z) (l : list Z) :
  (n < length l)%nat ->
  sumZ (upd n (fun v => v + a)%Z l) = (sumZ l + a)%Z.
Proof.
  revert n. induction l as [|x l IH]; intros [|n] H; cbn in *; try lia.
  fold (sumZ l). fold (sumZ (upd n (fun v => (v + a)%Z) l)).
  rewrite IH by lia. lia.
Qed.

Lemma gridShape_upd (g : Grid) (i j : nat) (f : Z -> Z) :
  gridShape g -> gridShape (upd i (upd j f) g).
Proof.
  intros [Hl Hr]. split; [rewrite upd_length; exact Hl|].
  clear Hl. revert i. induction Hr as [|r g Hr Hg IH]; intros [|i]; cbn.
  - constructor.
  - constructor.
  - constructor; [rewrite upd_length; exact Hr | exact Hg].
  - constructor; [exact Hr | apply IH].
Qed.

Lemma gridShape_row (g : Grid) (i : nat) :
  gridShape g -> (i < PDAF_DATA_ROWS)%nat ->
  length (nth i g []) = PDAF_DATA_COLS.
Proof.
  intros [Hl Hr] Hi. rewrite Forall_forall in Hr. apply Hr, nth_In. lia.
Qed.

Lemma cell_grid_add (g : Grid) (i j i' j' : nat) (a : Z) :
  gridShape g -> (i < PDAF_DATA_ROWS)%nat -> (j < PDAF_DATA_COLS)%nat ->
  cell (grid_add g i j a) i' j'
  = (cell g i' j' + if (i =? i')%nat && (j =? j')%nat then a else 0)%Z.
Proof.
  intros Hg Hi Hj. unfold cell, grid_add. rewrite nth_upd.
  destruct Hg as [Hl Hr].
  assert ((i <? length g)%nat = true) as -> by (apply Nat.ltb_lt; lia).
  rewrite andb_true_r.
  destruct (i =? i')%nat eqn:Ei; cbn [andb]; [|lia].
  apply Nat.eqb_eq in Ei. subst i'. rewrite nth_upd.
  rewrite (gridShape_row g i (conj Hl Hr) Hi).
  assert ((j <? PDAF_DATA_COLS)%nat = true) as -> by (apply Nat.ltb_lt; lia).
  rewrite andb_true_r.
  destruct (j =? j')%nat eqn:Ej; [|lia].
  apply Nat.eqb_eq in Ej. subst j'. reflexivity.
Qed.

Lemma gridSum_grid_add (g : Grid) (i j : nat) (a : Z) :
  gridShape g -> (i < PDAF_DATA_ROWS)%nat -> (j < PDAF_DATA_COLS)%nat ->
  gridSum (grid_add g i j a) = (gridSum g + a)%Z.
Proof.
  intros [Hl Hr] Hi Hj. unfold gridSum, grid_add. rewrite <- Hl in Hi.
  clear Hl. revert i Hi. induction Hr as [|r g Hr Hg IH]; intros i Hi;
    [cbn in Hi; lia|].
  destruct i as [|i]; cbn [upd List.map sumZ fold_right].
  - rewrite sumZ_upd_add by lia. fold (sumZ (List.map sumZ g)). lia.
  - fold (sumZ (List.map sumZ g)).
    fold (sumZ (List.map sumZ (upd i (upd j (fun v => (v + a)%Z)) g))).
    cbn in Hi. rewrite IH by lia. lia.
Qed.

Section WindowLoops.

Variable sr : Rectangle.
Variables cellH cellW cellA : Z.
Variable w : Rectangle.

Let W := cellOverlapWeight sr cellH cellW cellA w.

(** The loop over the columns of row [i], from column [s] on. *)
Lemma addWindowCell_loop (i : nat) (y0 y1 : Z) (n s : nat) (acc : Grid * Z) :
  y0 = Z.max (rect_y sr + cellH * Z.of_nat i) (rect_y w) ->
  y1 = Z.min (rect_y sr + cellH * (Z.of_nat i + 1))
             (rect_y w + unsigned_to_int (rect_height w)) ->
  (y1 <=? y0)%Z = false ->
  (i < PDAF_DATA_ROWS)%nat -> (s + n <= PDAF_DATA_COLS)%nat ->
  gridShape (fst acc) ->
  let acc' := fold_left (addWindowCell sr cellW cellA w i (y1 - y0))
                        (seq s n) acc in
  gridShape (fst acc') /\
  (gridSum (fst acc') - snd acc' = gridSum (fst acc) - snd acc)%Z /\
  forall i' j',
    cell (fst acc') i' j'
    = (cell (fst acc) i' j'
       + if (i =? i')%nat && (s <=? j')%nat && (j' <? s + n)%nat
         then W i j' else 0)%Z.
Proof.
  intros Hy0 Hy1 Hy Hi. revert s acc.
  induction n as [|n IH]; intros s acc Hs Hg; cbn [seq fold_left].
  - split; [exact Hg|]. split; [reflexivity|]. intros i' j'.
    destruct (i =? i')%nat; cbn [andb]; [|lia].
    destruct (s <=? j')%nat eqn:E; cbn [andb]; [|lia].
    destruct (j' <? s + 0)%nat eqn:E2; [|lia].
    apply Nat.leb_le in E. apply Nat.ltb_lt in E2. lia.
  - set (acc1 := addWindowCell sr cellW cellA w i (y1 - y0) acc s).
    assert (gridShape (fst acc1) /\
            (gridSum (fst acc1) - snd acc1 = gridSum (fst acc) - snd acc)%Z /\
            forall i' j',
              cell (fst acc1) i' j'
              = (cell (fst acc) i' j'
                 + if (i =? i')%nat && (s =? j')%nat then W i s else 0)%Z)
      as (Hg1 & Hsum1 & Hcell1).
    { subst acc1. unfold addWindowCell, W, cellOverlapWeight.
      rewrite <- Hy0, <- Hy1, Hy. cbn [orb].
      match goal with
      | |- context [if (?a <=? ?b)%Z then _ else _] => destruct (a <=? b)%Z
      end.
      - split; [exact Hg|]. split; [reflexivity|]. intros i' j'.
        destruct ((i =? i')%nat && (s =? j')%nat); lia.
      - cbn [fst snd]. split; [apply gridShape_upd, Hg|].
        split; [rewrite gridSum_grid_add by (assumption || lia); lia|].
        intros i' j'. apply cell_grid_add; assumption || lia. }
    destruct (IH (S s) acc1) as (Hg' & Hsum' & Hcell'); [lia | exact Hg1|].
    split; [exact Hg'|]. split; [lia|]. intros i' j'.
    rewrite Hcell', Hcell1.
    destruct (i =? i')%nat; cbn [andb]; [|lia].
    destruct (s =? j')%nat eqn:E1.
    + apply Nat.eqb_eq in E1. subst j'.
      assert ((S s <=? s)%nat = false) as -> by (apply Nat.leb_gt; lia).
      assert ((s <=? s)%nat = true) as -> by (apply Nat.leb_le; lia).
      assert ((s <? s + S n)%nat = true) as -> by (apply Nat.ltb_lt; lia).
      cbn [andb]. lia.
    + apply Nat.eqb_neq in E1.
      replace (s + S n)%nat with (S s + n)%nat by lia.
      destruct (S s <=? j')%nat eqn:E2.
      * apply Nat.leb_le in E2.
        assert ((s <=? j')%nat = true) as -> by (apply Nat.leb_le; lia).
        cbn [andb]. lia.
      * apply Nat.leb_gt in E2.
        assert ((s <=? j')%nat = false) as -> by (apply Nat.leb_gt; lia).
        cbn [andb]. lia.
Qed.

(** The loop over the rows, from row [s] on. *)
Lemma addWindowRow_loop (n s : nat) (acc : Grid * Z) :
  (s + n <= PDAF_DATA_ROWS)%nat ->
  gridShape (fst acc) ->
  let acc' := fold_left (addWindowRow sr cellH cellW cellA w) (seq s n) acc in
  gridShape (fst acc') /\
  (gridSum (fst acc') - snd acc' = gridSum (fst acc) - snd acc)%Z /\
  forall i' j', (j' < PDAF_DATA_COLS)%nat ->
    cell (fst acc') i' j'
    = (cell (fst acc) i' j'
       + if (s <=? i')%nat && (i' <? s + n)%nat then W i' j' else 0)%Z.
Proof.
  revert s acc.
  induction n as [|n IH]; intros s acc Hs Hg; cbn [seq fold_left].
  - split; [exact Hg|]. split; [reflexivity|]. intros i' j' _.
    destruct (s <=? i')%nat eqn:E; cbn [andb]; [|lia].
    destruct (i' <? s + 0)%nat eqn:E2; [|lia].
    apply Nat.leb_le in E. apply Nat.ltb_lt in E2. lia.
  - set (acc1 := addWindowRow sr cellH cellW cellA w acc s).
    assert (gridShape (fst acc1) /\
            (gridSum (fst acc1) - snd acc1 = gridSum (fst acc) - snd acc)%Z /\
            forall i' j', (j' < PDAF_DATA_COLS)%nat ->
              cell (fst acc1) i' j'
              = (cell (fst acc) i' j'
                 + if (s =? i')%nat then W s j' else 0)%Z)
      as (Hg1 & Hsum1 & Hcell1).
    { subst acc1. unfold addWindowRow.
      set (y0 := Z.max (rect_y sr + cellH * Z.of_nat s) (rect_y w)).
      set (y1 := Z.min (rect_y sr + cellH * (Z.of_nat s + 1))
                       (rect_y w + unsigned_to_int (rect_height w))).
      destruct (y1 <=? y0)%Z eqn:Ey.
      - split; [exact Hg|]. split; [reflexivity|]. intros i' j' _.
        unfold W, cellOverlapWeight. fold y0 y1. rewrite Ey. cbn [orb].
        destruct (s =? i')%nat; lia.
      - destruct (addWindowCell_loop s y0 y1 PDAF_DATA_COLS 0 acc
                    eq_refl eq_refl Ey) as (H1 & H2 & H3);
          [lia | cbn; lia | exact Hg|].
        split; [exact H1|]. split; [exact H2|]. intros i' j' Hj.
        rewrite H3.
        assert ((j' <? 0 + PDAF_DATA_COLS)%nat = true) as ->
            by (apply Nat.ltb_lt; lia).
        cbn [Nat.leb andb]. rewrite andb_true_r.
        destruct (s =? i')%nat eqn:E; [|reflexivity].
        apply Nat.eqb_eq in E. subst i'. reflexivity. }
    destruct (IH (S s) acc1) as (Hg' & Hsum' & Hcell'); [lia | exact Hg1|].
    split; [exact Hg'|]. split; [lia|]. intros i' j' Hj.
    rewrite Hcell', Hcell1 by exact Hj.
    destruct (s =? i')%nat eqn:E1.
    + apply Nat.eqb_eq in E1. subst i'.
      assert ((S s <=? s)%nat = false) as -> by (apply Nat.leb_gt; lia).
      assert ((s <=? s)%nat = true) as -> by (apply Nat.leb_le; lia).
      assert ((s <? s + S n)%nat = true) as -> by (apply Nat.ltb_lt; lia).
      cbn [andb]. lia.
    + apply Nat.eqb_neq in E1.
      replace (s + S n)%nat with (S s + n)%nat by lia.
      destruct (S s <=? i')%nat eqn:E2.
      * apply Nat.leb_le in E2.
        assert ((s <=? i')%nat = true) as -> by (apply Nat.leb_le; lia).
        cbn [andb]. lia.
      * apply Nat.leb_gt in E2.
        assert ((s <=? i')%nat = false) as -> by (apply Nat.leb_gt; lia).
        cbn [andb]. lia.
Qed.

(** One window adds its overlap weight to every cell. *)
Lemma addWindow_cells (acc : Grid * Z) :
  gridShape (fst acc) ->
  let acc' := addWindow sr cellH cellW cellA acc w in
  gridShape (fst acc') /\
  (gridSum (fst acc') - snd acc' = gridSum (fst acc) - snd acc)%Z /\
  forall i j, (i < PDAF_DATA_ROWS)%nat -> (j < PDAF_DATA_COLS)%nat ->
    cell (fst acc') i j = (cell (fst acc) i j + W i j)%Z.
Proof.
  intros Hg. unfold addWindow.
  destruct (addWindowRow_loop PDAF_DATA_ROWS 0 acc) as (H1 & H2 & H3);
    [lia | exact Hg|].
  split; [exact H1|]. split; [exact H2|]. intros i j Hi Hj.
  rewrite H3 by exact Hj.
  assert ((i <? 0 + PDAF_DATA_ROWS)%nat = true) as ->
      by (apply Nat.ltb_lt; lia).
  reflexivity.
Qed.

End WindowLoops.

(** The overlap weight lies between 0 and [MaxCellWeight]. *)
Lemma cellOverlapWeight_bounds sr cellH cellW w i j :
  (0 < cellH)%Z -> (0 < cellW)%Z ->
  (0 <= cellOverlapWeight sr cellH cellW (cellH * cellW) w i j
   <= MaxCellWeight)%Z.
Proof.
  intros HH HW. unfold cellOverlapWeight.
  set (y0 := Z.max _ (rect_y w)). set (y1 := Z.min _ (rect_y w + _)).
  set (x0 := Z.max _ (rect_x w)). set (x1 := Z.min _ (rect_x w + _)).
  change MaxCellWeight with 24%Z.
  destruct (y1 <=? y0)%Z eqn:Ey; cbn [orb]; [lia|].
  destruct (x1 <=? x0)%Z eqn:Ex; [lia|].
  apply Z.leb_gt in Ey, Ex.
  assert (0 < y1 - y0 <= cellH)%Z as Hy by (subst y0 y1; lia).
  assert (0 < x1 - x0 <= cellW)%Z as Hx by (subst x0 x1; lia).
  set (dy := (y1 - y0)%Z) in *. set (dx := (x1 - x0)%Z) in *.
  clearbody dy dx. clear y0 y1 x0 x1 Ey Ex.
  assert (0 < dy * dx <= cellH * cellW)%Z as Ha.
  { split; [apply Z.mul_pos_pos; lia|].
    apply Z.mul_le_mono_nonneg; lia. }
  set (A := (cellH * cellW)%Z) in *. set (a := (dy * dx)%Z) in *.
  clearbody A a.
  rewrite Z.quot_div_nonneg by lia. split.
  - apply Z.div_pos; lia.
  - assert ((24 * a + A - 1) / A < 25)%Z
      by (apply Z.div_lt_upper_bound; lia).
    lia.
Qed.

Lemma addWindows_cells sr cellH cellW cellA (windows : list Rectangle)
    (acc : Grid * Z) :
  gridShape (fst acc) ->
  let acc' := fold_left (addWindow sr cellH cellW cellA) windows acc in
  gridShape (fst acc') /\
  (gridSum (fst acc') - snd acc' = gridSum (fst acc) - snd acc)%Z /\
  forall i j, (i < PDAF_DATA_ROWS)%nat -> (j < PDAF_DATA_COLS)%nat ->
    cell (fst acc') i j
    = (cell (fst acc) i j
       + sumZ (List.map (fun w => cellOverlapWeight sr cellH cellW cellA w i j)
                        windows))%Z.
Proof.
  revert acc. induction windows as [|w ws IH]; intros acc Hg;
    cbn [fold_left List.map sumZ fold_right].
  - split; [exact Hg|]. split; [reflexivity|]. intros. lia.
  - destruct (addWindow_cells sr cellH cellW cellA w acc Hg)
      as (H1 & H2 & H3).
    destruct (IH _ H1) as (H4 & H5 & H6).
    split; [exact H4|]. split; [lia|]. intros i j Hi Hj.
    rewrite H6, H3 by assumption.
    fold (sumZ (List.map
                  (fun w0 => cellOverlapWeight sr cellH cellW cellA w0 i j) ws)).
    lia.
Qed.

Lemma gridShape_zeroGrid : gridShape zeroGrid.
Proof. split; [reflexivity|]. repeat constructor. Qed.

Lemma cell_zeroGrid i j :
  (i < PDAF_DATA_ROWS)%nat -> (j < PDAF_DATA_COLS)%nat ->
  cell zeroGrid i j = 0%Z.
Proof.
  intros Hi Hj. unfold cell, zeroGrid.
  rewrite nth_repeat_lt by exact Hi. apply nth_repeat_lt, Hj.
Qed.

(** Two grids with the same cells are the same grid. *)
Lemma grid_ext (g g' : Grid) :
  gridShape g -> gridShape g' ->
  (forall i j, (i < PDAF_DATA_ROWS)%nat -> (j < PDAF_DATA_COLS)%nat ->
     cell g i j = cell g' i j) ->
  g = g'.
Proof.
  intros Hg Hg' Hc. apply (nth_ext g g' [] []).
  - destruct Hg, Hg'. congruence.
  - intros i Hi. destruct Hg as [Hl Hr]. rewrite Hl in Hi.
    apply (nth_ext _ _ 0%Z 0%Z).
    + rewrite (gridShape_row g i (conj Hl Hr) Hi).
      rewrite (gridShape_row g' i Hg' Hi). reflexivity.
    + intros j Hj. rewrite (gridShape_row g i (conj Hl Hr) Hi) in Hj.
      apply Hc; assumption.
Qed.

(** The cells of a grid bound its sum. *)
Lemma gridSum_bounds (g : Grid) (lo hi : Z) :
  gridShape g ->
  (forall i j, (i < PDAF_DATA_ROWS)%nat -> (j < PDAF_DATA_COLS)%nat ->
     lo <= cell g i j <= hi)%Z ->
  (lo * 192 <= gridSum g <= hi * 192)%Z.
Proof.
  intros [Hl Hr] Hc. unfold gridSum.
  pose proof (sumZ_map_bounds sumZ g (lo * 16) (hi * 16)) as Hb.
  rewrite Hl in Hb. change (Z.of_nat PDAF_DATA_ROWS) with 12%Z in Hb.
  assert (forall r, In r g -> (lo * 16 <= sumZ r <= hi * 16)%Z) as Hrow.
  { intros r Hin. destruct (In_nth g r [] Hin) as (i & Hi & <-).
    rewrite Hl in Hi.
    pose proof (sumZ_bounds (nth i g []) lo hi) as Hs.
    rewrite (gridShape_row g i (conj Hl Hr) Hi) in Hs.
    change (Z.of_nat PDAF_DATA_COLS) with 16%Z in Hs. apply Hs.
    intros x Hx. destruct (In_nth _ x 0%Z Hx) as (j & Hj & <-).
    rewrite (gridShape_row g i (conj Hl Hr) Hi) in Hj.
    apply (Hc i j); assumption. }
  specialize (Hb Hrow). lia.
Qed.

(** The block sums have the total of the grid. *)
Lemma blockWeights_sum (g : Grid) :
  gridShape g -> sumZ (blockWeights g) = gridSum g.
Proof.
  intros [Hl Hr]. unfold PDAF_DATA_ROWS in Hl.
  do 12 (destruct g as [|? g]; [discriminate Hl|]).
  destruct g; [|discriminate Hl]. clear Hl.
  repeat match goal with
         | H : Forall _ (_ :: _) |- _ => inversion H; subst; clear H
         | H : Forall _ [] |- _ => clear H
         end.
  unfold PDAF_DATA_COLS in *.
  repeat match goal with
         | H : length ?l = 16%nat |- _ =>
             do 16 (destruct l as [|? l]; [discriminate H|]);
             destruct l; [|discriminate H]; clear H
         end.
  cbv [blockWeights gridSum sumZ flat_map List.map fold_left fold_right seq
       app cell nth YFactor XFactor FocusStatsRows FocusStatsCols
       PDAF_DATA_ROWS PDAF_DATA_COLS Nat.div Nat.divmod fst snd Nat.mul
       Nat.add].
  ring.
Qed.

Lemma sumZ_nonneg (l : list Z) :
  (forall y, In y l -> 0 <= y)%Z -> (0 <= sumZ l)%Z.
Proof.
  induction l as [|y l IH]; intros H; [cbn; lia|].
  cbn [sumZ fold_right]. fold (sumZ l).
  pose proof (H y (or_introl eq_refl)).
  assert (0 <= sumZ l)%Z
      by (apply IH; intros z Hz; apply H; right; exact Hz).
  lia.
Qed.

Lemma sumZ_ge_elem (l : list Z) (x : Z) :
  (forall y, In y l -> 0 <= y)%Z -> In x l -> (x <= sumZ l)%Z.
Proof.
  induction l as [|y l IH]; intros Hn Hin; [contradiction|].
  cbn [sumZ fold_right]. fold (sumZ l).
  assert (0 <= sumZ l)%Z as H0
      by (apply sumZ_nonneg; intros z Hz; apply Hn; right; exact Hz).
  pose proof (Hn y (or_introl eq_refl)).
  destruct Hin as [-> | Hin]; [lia|].
  assert (x <= sumZ l)%Z by (apply IH; [intros; apply Hn; right|]; assumption).
  lia.
Qed.

(** In a grid without negative cells no cell exceeds the sum. *)
Lemma cell_le_gridSum (g : Grid) (i j : nat) :
  gridShape g ->
  (forall i j, (i < PDAF_DATA_ROWS)%nat -> (j < PDAF_DATA_COLS)%nat ->
     0 <= cell g i j)%Z ->
  (i < PDAF_DATA_ROWS)%nat -> (j < PDAF_DATA_COLS)%nat ->
  (cell g i j <= gridSum g)%Z.
Proof.
  intros [Hl Hr] Hn Hi Hj.
  assert (forall i r, (i < PDAF_DATA_ROWS)%nat -> r = nth i g [] ->
            forall y, In y r -> (0 <= y)%Z) as Hrow.
  { intros i0 r Hi0 -> y Hy. destruct (In_nth _ y 0%Z Hy) as (j0 & Hj0 & <-).
    rewrite (gridShape_row g i0 (conj Hl Hr) Hi0) in Hj0.
    apply (Hn i0 j0); assumption. }
  apply Z.le_trans with (sumZ (nth i g [])).
  - apply sumZ_ge_elem; [apply (Hrow i); [exact Hi | reflexivity]|].
    apply nth_In. rewrite (gridShape_row g i (conj Hl Hr) Hi). exact Hj.
  - unfold gridSum. apply sumZ_ge_elem.
    + intros y Hy. apply in_map_iff in Hy. destruct Hy as (r & <- & Hr').
      destruct (In_nth g r [] Hr') as (i0 & Hi0 & <-). rewrite Hl in Hi0.
      pose proof (sumZ_bounds (nth i0 g []) 0 (sumZ (nth i0 g []))) as Hb.
      clear Hb.
      assert (forall l, (forall y, In y l -> 0 <= y)%Z -> (0 <= sumZ l)%Z) as Hs.
      { clear. induction l as [|z l IHl]; intros H; cbn; [lia|]. fold (sumZ l).
        pose proof (H z (or_introl eq_refl)).
        assert (0 <= sumZ l)%Z by (apply IHl; intros; apply H; right; assumption).
        lia. }
      apply Hs. apply (Hrow i0); [exact Hi0 | reflexivity].
    + apply in_map. apply nth_In. lia.
Qed.

(** The accumulators after the loop over the windows. *)
Lemma computeWeights_windows_stage (sr : Rectangle) (windows : list Rectangle)
    (useWindows : bool) :
  let cellH := (rect_height sr / Z.of_nat PDAF_DATA_ROWS)%Z in
  let cellW := (rect_width sr / Z.of_nat PDAF_DATA_COLS)%Z in
  let acc :=
    if windowsUsed sr useWindows
    then fold_left (addWindow sr cellH cellW (cellH * cellW)) windows
                   (zeroGrid, 0%Z)
    else (zeroGrid, 0%Z) in
  gridShape (fst acc) /\
  snd acc = gridSum (fst acc) /\
  (forall i j, (i < PDAF_DATA_ROWS)%nat -> (j < PDAF_DATA_COLS)%nat ->
     cell (fst acc) i j
     = if windowsUsed sr useWindows then windowsWeight sr windows i j else 0%Z) /\
  (forall i j, (i < PDAF_DATA_ROWS)%nat -> (j < PDAF_DATA_COLS)%nat ->
     0 <= cell (fst acc) i j <= MaxCellWeight * Z.of_nat (length windows))%Z.
Proof.
  cbv zeta. destruct (windowsUsed sr useWindows) eqn:Eu.
  - set (cellH := (rect_height sr / Z.of_nat PDAF_DATA_ROWS)%Z).
    set (cellW := (rect_width sr / Z.of_nat PDAF_DATA_COLS)%Z).
    destruct (addWindows_cells sr cellH cellW (cellH * cellW) windows
                (zeroGrid, 0%Z) gridShape_zeroGrid) as (H1 & H2 & H3).
    cbn [fst snd] in H2, H3.
    assert (forall i j, (i < PDAF_DATA_ROWS)%nat -> (j < PDAF_DATA_COLS)%nat ->
              cell (fst (fold_left (addWindow sr cellH cellW (cellH * cellW))
                                   windows (zeroGrid, 0%Z))) i j
              = windowsWeight sr windows i j) as Hc.
    { intros i j Hi Hj. rewrite H3, cell_zeroGrid by assumption. reflexivity. }
    split; [exact H1|]. split; [change (gridSum zeroGrid) with 0%Z in H2; lia|].
    split; [exact Hc|]. intros i j Hi Hj. rewrite Hc by assumption.
    unfold windowsUsed in Eu. apply andb_true_iff in Eu.
    destruct Eu as [Eu Eh]. apply andb_true_iff in Eu. destruct Eu as [_ Ew].
    apply Z.leb_le in Eh, Ew.
    assert (0 < cellH)%Z as HH
        by (subst cellH; apply Z.div_str_pos; cbn in *; lia).
    assert (0 < cellW)%Z as HW
        by (subst cellW; apply Z.div_str_pos; cbn in *; lia).
    unfold windowsWeight. fold cellH cellW.
    pose proof (sumZ_map_bounds
                  (fun w => cellOverlapWeight sr cellH cellW (cellH * cellW) w i j)
                  windows 0 MaxCellWeight) as Hb.
    assert (forall x, In x windows ->
              (0 <= cellOverlapWeight sr cellH cellW (cellH * cellW) x i j
               <= MaxCellWeight)%Z) as Hx
        by (intros; apply cellOverlapWeight_bounds; assumption).
    specialize (Hb Hx). lia.
  - cbn [fst snd]. split; [apply gridShape_zeroGrid|].
    split; [reflexivity|]. split; intros i j Hi Hj;
      rewrite cell_zeroGrid by assumption; [reflexivity|].
    change MaxCellWeight with 24%Z. lia.
Qed.

Lemma computeWeights_of_stages (sr : Rectangle) (windows : list Rectangle)
    (useWindows : bool) :
  computeWeights_of sr windows useWindows
  = let cellH := (rect_height sr / Z.of_nat PDAF_DATA_ROWS)%Z in
    let cellW := (rect_width sr / Z.of_nat PDAF_DATA_COLS)%Z in
    let acc :=
      if windowsUsed sr useWindows
      then fold_left (addWindow sr cellH cellW (cellH * cellW)) windows
                     (zeroGrid, 0%Z)
      else (zeroGrid, 0%Z) in
    let acc := if (snd acc =? 0)%Z then addDefaultWindow acc else acc in
    (fst acc, blockWeights (fst acc), snd acc).
Proof. reflexivity. Qed.

Lemma addDefaultWindow_zero :
  addDefaultWindow (zeroGrid, 0%Z) = (defaultWeights, 768%Z).
Proof. vm_compute. reflexivity. Qed.

Lemma defaultWeights_cells i j :
  (i < PDAF_DATA_ROWS)%nat -> (j < PDAF_DATA_COLS)%nat ->
  (0 <= cell defaultWeights i j <= MaxCellWeight)%Z.
Proof.
  intros Hi Hj. unfold PDAF_DATA_ROWS, PDAF_DATA_COLS in *.
  do 12 (destruct i as [|i]; [do 16 (destruct j as [|j]; [vm_compute; split; discriminate|]); lia|]).
  lia.
Qed.

(** An accumulator whose sum is zero holds the zero grid. *)
Lemma stage_zero (acc : Grid * Z) :
  gridShape (fst acc) -> snd acc = gridSum (fst acc) ->
  (forall i j, (i < PDAF_DATA_ROWS)%nat -> (j < PDAF_DATA_COLS)%nat ->
     0 <= cell (fst acc) i j)%Z ->
  snd acc = 0%Z -> acc = (zeroGrid, 0%Z).
Proof.
  intros Hg Hs Hn H0. destruct acc as [g s]. cbn [fst snd] in *. subst s.
  f_equal; [|exact H0].
  apply grid_ext; [exact Hg | apply gridShape_zeroGrid|].
  intros i j Hi Hj. rewrite cell_zeroGrid by assumption.
  pose proof (cell_le_gridSum g i j Hg Hn Hi Hj).
  pose proof (Hn i j Hi Hj). lia.
Qed.



(** The entries of [contrastWeights_] are sums of cells. *)
Lemma blockWeights_nonneg (g : Grid) :
  (forall i j, (i < PDAF_DATA_ROWS)%nat -> (j < PDAF_DATA_COLS)%nat ->
     0 <= cell g i j)%Z ->
  Forall (fun w => 0 <= w)%Z (blockWeights g).
Proof.
  intros Hc.
  assert (forall i j, (i <? PDAF_DATA_ROWS)%nat = true ->
            (j <? PDAF_DATA_COLS)%nat = true -> 0 <= cell g i j)%Z as Hb
      by (intros i j Hi Hj; apply Hc; apply Nat.ltb_lt; assumption).
  cbv [blockWeights flat_map List.map fold_left seq app FocusStatsRows
       FocusStatsCols YFactor XFactor PDAF_DATA_ROWS PDAF_DATA_COLS
       Nat.div Nat.divmod fst Nat.mul Nat.add].
  repeat constructor;
    repeat match goal with
           | |- context [cell g ?i ?j] =>
               let H := fresh in
               pose proof (Hb i j eq_refl eq_refl) as H;
               generalize dependent (cell g i j); intros
           end; lia.
Qed.

(** The weights of [Af::computeWeights] for any region and windows: a full
    grid, a positive [sumWeights_] that both weight grids add up to, and
    no cell above [MaxCellWeight] times the number of windows (once, for
    the default window). *)
Lemma computeWeights_of_totals (sr : Rectangle) (windows : list Rectangle)
    (useWindows : bool) :
  let '(pw, cw, sw) := computeWeights_of sr windows useWindows in
  gridShape pw /\ length cw = FOCUS_REGIONS /\
  (0 < sw)%Z /\ gridSum pw = sw /\ sumZ cw = sw /\
  Forall (fun w => 0 <= w)%Z cw /\
  forall i j, (i < PDAF_DATA_ROWS)%nat -> (j < PDAF_DATA_COLS)%nat ->
    (0 <= cell pw i j
     <= MaxCellWeight * Z.max 1 (Z.of_nat (length windows)))%Z.
Proof.
  rewrite computeWeights_of_stages. cbv zeta.
  destruct (computeWeights_windows_stage sr windows useWindows)
    as (Hg & Hs & Hc & Hb). cbv zeta in Hg, Hs, Hc, Hb.
  set (acc := if windowsUsed sr useWindows then _ else _) in *.
  assert (forall i j, (i < PDAF_DATA_ROWS)%nat -> (j < PDAF_DATA_COLS)%nat ->
            0 <= cell (fst acc) i j)%Z as Hn
      by (intros; apply Hb; assumption).
  change MaxCellWeight with 24%Z in *.
  destruct (snd acc =? 0)%Z eqn:E0.
  - apply Z.eqb_eq in E0.
    rewrite (stage_zero acc Hg Hs Hn E0), addDefaultWindow_zero.
    cbn [fst snd]. split; [split; [reflexivity | repeat constructor]|].
    split; [reflexivity|]. split; [reflexivity|]. split; [reflexivity|].
    split; [reflexivity|].
    split; [repeat constructor; discriminate|].
    intros i j Hi Hj. pose proof (defaultWeights_cells i j Hi Hj) as H.
    change MaxCellWeight with 24%Z in H. lia.
  - apply Z.eqb_neq in E0. split; [exact Hg|]. split; [reflexivity|].
    split; [|split; [symmetry; exact Hs|split; [|split]]].
    + pose proof (gridSum_bounds (fst acc) 0 _ Hg Hb). lia.
    + rewrite blockWeights_sum by exact Hg. symmetry. exact Hs.
    + apply blockWeights_nonneg. exact Hn.
    + intros i j Hi Hj. pose proof (Hb i j Hi Hj). lia.
Qed.

(** The loop of [Af::setWindows] keeps the first [MaxWindows] windows. *)
Lemma pushWindows_firstn (acc wins : list Rectangle) :
  (length acc < 10)%nat ->
  pushWindows acc wins = acc ++ firstn (10 - length acc) wins.
Proof.
  revert acc. induction wins as [|w rest IH]; intros acc Hlen.
  - cbn. rewrite firstn_nil, app_nil_r. reflexivity.
  - cbn [pushWindows]. rewrite length_app. cbn [length].
    change MaxWindows with 10%Z.
    destruct (10 <=? Z.of_nat (length acc + 1))%Z eqn:E.
    + apply Z.leb_le in E.
      replace (10 - length acc)%nat with 1%nat by lia. reflexivity.
    + apply Z.leb_gt in E. rewrite IH by (rewrite length_app; cbn; lia).
      rewrite length_app. cbn [length].
      replace (10 - length acc)%nat with (S (10 - (length acc + 1)))%nat by lia.
      cbn [firstn]. rewrite <- app_assoc. reflexivity.
Qed.

(** The fields of the object after [Af::computeWeights]. *)
Lemma computeWeights_fields (o : AfW) :
  let w := computeWeights_of (statsRegion_ o) (windows_ o) (useWindows_ o) in
  computeWeights o
  = set_af (set_weights (fst (fst w)) (snd (fst w)) (snd w) (af o)) o.
Proof.
  unfold computeWeights.
  destruct (computeWeights_of _ _ _) as [[pw cw] sw]. reflexivity.
Qed.

(** ** Metering windows *)





(** A window as wide as the largest unsigned value has the width -1 once
    converted: it shares no area with any cell, and [computeWeights] falls
    back to the default window. *)
Lemma computeWeights_wide_window_wraps :
  let wide := mkAfW (initialise Af_new) sampleRegion
                    [mkRectangle 0 0 4294967295 1200] true in
  unsigned_to_int 4294967295 = (-1)%Z /\
  (forall i j, (i < 12)%nat -> (j < 16)%nat ->
     windowsWeight sampleRegion [mkRectangle 0 0 4294967295 1200] i j = 0%Z) /\
  phaseWeights_ (af (computeWeights wide))
  = phaseWeights_ (af (computeWeights
      (mkAfW (initialise Af_new) sampleRegion [] false))) /\
  sumWeights_ (af (computeWeights wide)) = 768%Z.
Proof.
  cbv zeta. split; [reflexivity|]. split; [|split; vm_compute; reflexivity].
  intros i j Hi Hj.
  do 12 (destruct i as [|i]; [do 16 (destruct j as [|j]; [vm_compute; reflexivity|]); lia|]).
  lia.
Qed.

(** X9. With at most [MaxWindows] windows held, and whatever they and the
    statistics region are, [Af::computeWeights] leaves a full grid whose
    cells lie between 0 and 240, a positive [sumWeights_] of at most
    46080, and both weight grids adding up to [sumWeights_]: the fusion
    of [getPhase] and [getContrast] never divides by zero. *)
Theorem computeWeights_totals (o : AfW) (i j : nat) :
  (length (windows_ o) <= 10)%nat ->
  (i < PDAF_DATA_ROWS)%nat -> (j < PDAF_DATA_COLS)%nat ->
  let a := af (computeWeights o) in
  gridShape (phaseWeights_ a) /\
  length (contrastWeights_ a) = FOCUS_REGIONS /\
  (0 < sumWeights_ a <= 46080)%Z /\
  gridSum (phaseWeights_ a) = sumWeights_ a /\
  sumZ (contrastWeights_ a) = sumWeights_ a /\
  (0 <= cell (phaseWeights_ a) i j <= 240)%Z.
Proof.
  intros Hlen Hi Hj. cbv zeta. rewrite computeWeights_fields. cbv zeta.
  cbn [af set_af phaseWeights_ contrastWeights_ sumWeights_ set_weights].
  pose proof (computeWeights_of_totals (statsRegion_ o) (windows_ o)
                (useWindows_ o)) as H.
  destruct (computeWeights_of _ _ _) as [[pw cw] sw]. cbn [fst snd].
  destruct H as (Hg & Hl & Hpos & Hsum & Hcw & _ & Hb).
  change MaxCellWeight with 24%Z in Hb.
  assert (forall i j, (i < PDAF_DATA_ROWS)%nat -> (j < PDAF_DATA_COLS)%nat ->
            0 <= cell pw i j <= 240)%Z as Hb'
      by (intros i' j' Hi' Hj'; pose proof (Hb i' j' Hi' Hj'); lia).
  pose proof (gridSum_bounds pw 0 240 Hg Hb').
  split; [exact Hg|]. split; [exact Hl|]. split; [lia|].
  split; [exact Hsum|]. split; [exact Hcw|]. apply Hb'; assumption.
Qed.

Lemma computeWeights_totals_witness :
  (0 < sumWeights_ (af (computeWeights sampleAfW)) <= 46080)%Z /\
  (0 <= cell (phaseWeights_ (af (computeWeights sampleAfW))) 0 2 <= 240)%Z.
Proof.
  destruct (computeWeights_totals sampleAfW 0 2) as (_ & _ & H & _ & _ & Hc).
  - cbn. lia.
  - unfold PDAF_DATA_ROWS; lia.
  - unfold PDAF_DATA_COLS; lia.
  - split; assumption.
Defined.

(** X10. [Af::setWindows] keeps the first [MaxWindows] of the windows it
    is given and drops the others, leaves the statistics region and the
    metering mode alone, and recomputes the weights from the windows
    kept. *)
Theorem setWindows_keeps_MaxWindows (o : AfW) (wins : list Rectangle) :
  windows_ (setWindows o wins) = firstn 10 wins /\
  (length (windows_ (setWindows o wins)) <= 10)%nat /\
  statsRegion_ (setWindows o wins) = statsRegion_ o /\
  useWindows_ (setWindows o wins) = useWindows_ o /\
  setWindows o wins
  = computeWeights (mkAfW (af o) (statsRegion_ o) (firstn 10 wins)
                          (useWindows_ o)).
Proof.
  assert (pushWindows [] wins = firstn 10 wins) as E
      by (rewrite pushWindows_firstn by (cbn; lia); reflexivity).
  unfold setWindows. rewrite E. rewrite computeWeights_fields. cbv zeta.
  cbn [windows_ statsRegion_ useWindows_ set_af af].
  repeat split. rewrite length_firstn. lia.
Qed.

(** ** Contrast *)

Lemma sumZ_nth_seq (l : list Z) :
  sumZ (List.map (fun i => nth i l 0%Z) (seq 0 (length l))) = sumZ l.
Proof.
  f_equal. apply (nth_ext _ _ 0%Z 0%Z).
  - rewrite length_map, length_seq. reflexivity.
  - intros n Hn. rewrite length_map, length_seq in Hn.
    rewrite (nth_indep _ 0%Z (nth (length l) l 0%Z))
      by (rewrite length_map, length_seq; exact Hn).
    rewrite (map_nth (fun i => nth i l 0%Z)), seq_nth by exact Hn.
    reflexivity.
Qed.

Lemma sumZ_map_nonneg {A : Type} (term : A -> Z) (l : list A) :
  (forall i, In i l -> 0 <= term i)%Z -> (0 <= sumZ (List.map term l))%Z.
Proof.
  induction l as [|i l IH]; intros H; [cbn; lia|].
  cbn [List.map sumZ fold_right]. fold (sumZ (List.map term l)).
  pose proof (H i (or_introl eq_refl)).
  assert (0 <= sumZ (List.map term l))%Z
      by (apply IH; intros k Hk; apply H; right; exact Hk).
  lia.
Qed.

(** A sum accumulated in 32 bits that stays below [2 ^ 32] is exact. *)
Lemma fold_wrap32_exact (term : nat -> Z) (l : list nat) (acc : Z) :
  (0 <= acc)%Z -> (forall i, In i l -> 0 <= term i)%Z ->
  (acc + sumZ (List.map term l) < 2 ^ 32)%Z ->
  fold_left (fun s i => wrap32 (s + term i)) l acc
  = (acc + sumZ (List.map term l))%Z.
Proof.
  revert acc. induction l as [|i l IH]; intros acc Hacc Hterm Hfit.
  - cbn. lia.
  - cbn [fold_left List.map sumZ fold_right] in *.
    fold (sumZ (List.map term l)) in *.
    pose proof (Hterm i (or_introl eq_refl)) as Hi.
    assert (forall k, In k l -> 0 <= term k)%Z as Hl
        by (intros k Hk; apply Hterm; right; exact Hk).
    pose proof (sumZ_map_nonneg term l Hl) as Hs0.
    rewrite wrap32_small by lia.
    rewrite IH by (try assumption; lia). lia.
Qed.

(** The weighted sum of values between [lo] and [hi], with weights that
    are not negative, lies between [lo] and [hi] times the sum of the
    weights. *)
Lemma weighted_sum_bounds (w c : nat -> Z) (l : list nat) (lo hi : Z) :
  (forall i, In i l -> 0 <= w i /\ lo <= c i <= hi)%Z ->
  (lo * sumZ (List.map w l) <= sumZ (List.map (fun i => w i * c i) l)
   <= hi * sumZ (List.map w l))%Z.
Proof.
  induction l as [|i l IH]; intros H; [cbn; lia|].
  cbn [List.map sumZ fold_right].
  fold (sumZ (List.map w l)).
  fold (sumZ (List.map (fun i => w i * c i)%Z l)).
  pose proof (H i (or_introl eq_refl)) as [Hw Hc].
  assert (lo * sumZ (List.map w l) <= sumZ (List.map (fun i => w i * c i) l)
          <= hi * sumZ (List.map w l))%Z
      by (apply IH; intros k Hk; apply H; right; exact Hk).
  nia.
Qed.

(** [Af::getContrast] as a weighted average: with weights that are not
    negative and add up to a positive [sumWeights_], and a weighted sum
    that fits 32 bits, the result lies between the least and the largest
    of the values averaged. *)
Lemma getContrast_average (a : Af) (focus_stats : list Z) (lo hi : Z) :
  length (contrastWeights_ a) = FOCUS_REGIONS ->
  Forall (fun w => 0 <= w)%Z (contrastWeights_ a) ->
  sumZ (contrastWeights_ a) = sumWeights_ a ->
  (0 < sumWeights_ a)%Z ->
  (forall i, (i < FOCUS_REGIONS)%nat ->
     lo <= Z.shiftr (nth i focus_stats 0) 10 <= hi)%Z ->
  (0 <= lo)%Z -> (hi * sumWeights_ a < 2 ^ 32)%Z ->
  inject_Z lo <= getContrast a focus_stats <= inject_Z hi.
Proof.
  intros Hlen Hnn Hsum Hpos Hc Hlo Hfit. unfold getContrast.
  set (w := fun i => nth i (contrastWeights_ a) 0%Z).
  set (c := fun i => Z.shiftr (nth i focus_stats 0%Z) 10).
  assert (forall i, In i (seq 0 FOCUS_REGIONS) ->
            0 <= w i /\ lo <= c i <= hi)%Z as Hwc.
  { intros i Hi. apply in_seq in Hi. split; [|apply Hc; lia].
    subst w. cbv beta. rewrite Forall_forall in Hnn. apply Hnn.
    apply nth_In. rewrite Hlen. lia. }
  pose proof (weighted_sum_bounds w c (seq 0 FOCUS_REGIONS) lo hi Hwc) as Hb.
  assert (sumZ (List.map w (seq 0 FOCUS_REGIONS)) = sumWeights_ a) as Hw.
  { rewrite <- Hlen. subst w. rewrite sumZ_nth_seq. exact Hsum. }
  rewrite Hw in Hb.
  change (fold_left _ (seq 0 FOCUS_REGIONS) 0%Z)
    with (fold_left (fun s i => wrap32 (s + (fun i => w i * c i)%Z i))
                    (seq 0 FOCUS_REGIONS) 0%Z).
  rewrite fold_wrap32_exact; [|lia| |].
  - rewrite Z.add_0_l.
    destruct (sumWeights_ a =? 0)%Z eqn:E0; [apply Z.eqb_eq in E0; lia|].
    assert (0 < inject_Z (sumWeights_ a)) as HposQ
        by (change 0 with (inject_Z 0); rewrite <- Zlt_Qlt; exact Hpos).
    split.
    + apply Qle_shift_div_l; [exact HposQ|].
      rewrite <- inject_Z_mult, <- Zle_Qle. lia.
    + apply Qle_shift_div_r; [exact HposQ|].
      rewrite <- inject_Z_mult, <- Zle_Qle. lia.
  - intros i Hi. destruct (Hwc i Hi) as [H1 H2]. cbv beta. nia.
  - rewrite Z.add_0_l. nia.
Qed.

(** X11. After [Af::computeWeights] with at most [MaxWindows] windows
    held, [Af::getContrast] is a weighted average: when the contrast
    figures of the focus regions, shifted right by 10 bits, lie between
    [lo >= 0] and [hi], and [hi * 46080] fits 32 bits (so that the 32-bit
    sum cannot wrap), the result lies between [lo] and [hi]. *)
Theorem getContrast_weighted_average (o : AfW) (focus_stats : list Z)
    (lo hi : Z) :
  (length (windows_ o) <= 10)%nat ->
  (forall i, (i < FOCUS_REGIONS)%nat ->
     lo <= Z.shiftr (nth i focus_stats 0) 10 <= hi)%Z ->
  (0 <= lo)%Z -> (hi * 46080 < 2 ^ 32)%Z ->
  inject_Z lo <= getContrast (af (computeWeights o)) focus_stats
  <= inject_Z hi.
Proof.
  intros Hlen Hc Hlo Hfit.
  assert (lo <= hi)%Z as Hlh
      by (pose proof (Hc 0%nat ltac:(unfold FOCUS_REGIONS; lia)); lia).
  rewrite computeWeights_fields. cbv zeta. cbn [af set_af].
  pose proof (computeWeights_of_totals (statsRegion_ o) (windows_ o)
                (useWindows_ o)) as H.
  destruct (computeWeights_of _ _ _) as [[pw cw] sw]. cbn [fst snd].
  destruct H as (Hg & Hl & Hpos & Hsum & Hcw & Hnn & Hb).
  change MaxCellWeight with 24%Z in Hb.
  assert (forall i j, (i < PDAF_DATA_ROWS)%nat -> (j < PDAF_DATA_COLS)%nat ->
            0 <= cell pw i j <= 240)%Z as Hb'
      by (intros i' j' Hi' Hj'; pose proof (Hb i' j' Hi' Hj'); lia).
  pose proof (gridSum_bounds pw 0 240 Hg Hb') as Hgs.
  apply getContrast_average;
    cbn [contrastWeights_ sumWeights_ set_weights]; try assumption.
  nia.
Qed.

Lemma getContrast_weighted_average_witness :
  3 <= getContrast (af (computeWeights sampleAfW))
         [3072; 4096; 5120; 6144; 3072; 4096; 5120; 6144; 3072; 4096; 5120; 6144]%Z
  <= 6.
Proof.
  apply (getContrast_weighted_average sampleAfW _ 3 6).
  - cbn. lia.
  - intros i Hi. unfold FOCUS_REGIONS in Hi.
    do 12 (destruct i as [|i]; [vm_compute; split; discriminate|]). lia.
  - lia.
  - lia.
Defined.

(** ** Invariants of the interface *)

Ltac engine_done :=
  repeat split; intros;
  repeat match goal with H : _ \/ _ |- _ => destruct H end;
  try solve [discriminate | congruence | auto].

Lemma doScan_engine a c p cf :
  ScanState_geb (scanState_ a) Coarse = true ->
  ScanState_geb (scanState_ (doScan a c p cf)) Coarse = true /\
  initted_ (doScan a c p cf) = initted_ a.
Proof.
  intros H. unfold doScan.
  split; af_simpl; repeat (branch; af_simpl);
    try match goal with E : scanState_ a = _ |- _ => rewrite E end;
    first [reflexivity | exact H | discriminate H].
Qed.

Lemma doAF_engine_cases a c p cf :
  let b := doAF a c p cf in
  mode_ b = mode_ a /\ pauseFlag_ b = pauseFlag_ a /\
  (initted_ a = true -> initted_ b = true) /\
  ((scanState_ b = scanState_ a /\ scanData_ b = scanData_ a) \/
   (scanState_ a = Pdaf /\
    ((scanState_ b = Idle /\ scanData_ b = scanData_ a) \/
     scanState_ b = Coarse)) \/
   (scanState_ a = Settle /\ scanData_ b = [] /\
    (scanState_ b = Pdaf \/ scanState_ b = Idle)) \/
   (ScanState_geb (scanState_ a) Coarse = true /\
    ScanState_geb (scanState_ b) Coarse = true)).
Proof.
  cbv zeta.
  destruct (doAF_cases a c p cf) as [[(_&_&_&Hm&Hp) [_ Hi]] | [HP E]].
  - split; [exact Hm|]. split; [exact Hp|]. split; [congruence|].
    unfold doAF.
    destruct (0 <? skipCount_ a)%Z; [left; split; reflexivity|].
    destruct (ScanState_eqb (scanState_ a) Pdaf) eqn:EP.
    + apply ScanState_eqb_eq in EP.
      destruct (Qltb _ cf).
      * assert (scanData_ (doPDAF a p cf) = scanData_ a) as Hd
            by (unfold doPDAF; frame).
        pose proof (doPDAF_scanState a p cf) as Hs.
        destruct (0 <? stepCount_ (doPDAF a p cf))%Z; af_simpl.
        -- left. auto.
        -- destruct (negb _); af_simpl.
           ++ right. left. auto.
           ++ left. auto.
      * af_simpl. destruct (_ =? _)%Z.
        -- right. left. split; [exact EP|]. right. reflexivity.
        -- left. split; reflexivity.
    + destruct (ScanState_geb (scanState_ a) Coarse && _) eqn:EC;
        [|left; split; reflexivity].
      apply andb_prop in EC. destruct EC as [EC _].
      destruct (0 <? stepCount_ a)%Z; [left; split; reflexivity|].
      destruct (ScanState_eqb (scanState_ a) Settle) eqn:ES.
      * apply ScanState_eqb_eq in ES. right. right. left.
        split; [exact ES|]. af_simpl. split; [reflexivity|].
        destruct (_ && _ && _); auto.
      * right. right. right. split; [exact EC|].
        destruct (Qleb _ cf).
        -- pose proof (earlyTerminationByPhase_scan a p) as [Hs _].
           destruct (earlyTerminationByPhase a p) as [early a'].
           cbn [snd] in Hs. destruct early.
           ++ reflexivity.
           ++ apply doScan_engine. rewrite Hs. exact EC.
        -- apply doScan_engine. exact EC.
  - rewrite E.
    destruct (startProgrammedScan_setup (set_dropCount (wrap32 (dropCount_ a + 1)) a))
      as (_&_&_&Hm&Hp).
    split; [exact Hm|]. split; [exact Hp|].
    split; [intros _; apply startProgrammedScan_initted|].
    right. left. split; [exact HP|]. right. reflexivity.
Qed.

Lemma engineInv_updateLensPosition a :
  engineInv a -> engineInv (updateLensPosition a).
Proof.
  intros (Hm & Hp & Hi & Hs).
  destruct (updateLensPosition_setup a) as (_ & _ & _ & Em & Ep).
  pose proof (updateLensPosition_scanState a) as Es.
  destruct (updateLensPosition_report a) as [_ Ed].
  unfold engineInv. rewrite Em, Ep, Es, Ed, updateLensPosition_initted.
  auto.
Qed.

Lemma engineInv_startProgrammedScan a :
  mode_ a <> AfModeManual -> engineInv a -> engineInv (startProgrammedScan a).
Proof.
  intros Hnm (Hm & Hp & Hi & Hs).
  destruct (startProgrammedScan_setup a) as (_ & _ & _ & Em & Ep).
  unfold engineInv.
  rewrite Em, Ep, startProgrammedScan_initted.
  assert (scanState_ (startProgrammedScan a) = Coarse) as -> by reflexivity.
  engine_done.
Qed.

Lemma engineInv_goIdle a : engineInv a -> engineInv (goIdle a).
Proof.
  intros (Hm & Hp & Hi & Hs). unfold engineInv, goIdle. af_simpl.
  repeat split; auto. discriminate.
Qed.

Lemma engineInv_startAF a :
  mode_ a <> AfModeManual -> engineInv a -> engineInv (startAF a).
Proof.
  intros Hnm Hinv. unfold startAF.
  destruct (_ && _); [|apply engineInv_startProgrammedScan; assumption].
  assert (engineInv (if negb (initted_ a)
                     then updateLensPosition (set_ftarget (focusDefault (range a)) a)
                     else a) /\
          initted_ (if negb (initted_ a)
                    then updateLensPosition (set_ftarget (focusDefault (range a)) a)
                    else a) = true /\
          mode_ (if negb (initted_ a)
                 then updateLensPosition (set_ftarget (focusDefault (range a)) a)
                 else a) = mode_ a) as (H1 & H2 & H3).
  { destruct (initted_ a) eqn:Ei; cbn [negb]; [auto|].
    split; [|split].
    - apply engineInv_updateLensPosition. exact Hinv.
    - apply updateLensPosition_initted.
    - destruct (updateLensPosition_setup (set_ftarget (focusDefault (range a)) a))
        as (_ & _ & _ & Em & _). exact Em. }
  set (a1 := if negb (initted_ a) then _ else a) in *.
  destruct H1 as (Hm & Hp & Hi & Hs).
  unfold engineInv. af_simpl.
  repeat split; auto. intros E; rewrite H3 in E. contradiction.
Qed.

Lemma engineInv_doAF a c p cf :
  initted_ a = true -> engineInv a -> engineInv (doAF a c p cf).
Proof.
  intros Hinit (Hm & Hp & Hi & Hs).
  destruct (doAF_engine_cases a c p cf) as (Em & Ep & Ei & Hc).
  unfold engineInv. rewrite Em, Ep, (Ei Hinit).
  split; [|split; [exact Hp|split; [reflexivity|]]].
  - intros HM. specialize (Hm HM).
    destruct Hc as [[E _] | [[E _] | [[E _] | [E _]]]];
      rewrite Hm in E; try discriminate E. exact E.
  - intros Hst.
    destruct Hc as [[E Ed] | [[E [[E' Ed] | E']] | [(E & Ed & _) | [_ E]]]].
    + rewrite Ed. apply Hs. rewrite <- E. exact Hst.
    + rewrite Ed. apply Hs. right. exact E.
    + rewrite E' in Hst. destruct Hst; discriminate.
    + exact Ed.
    + destruct Hst as [H | H]; rewrite H in E; discriminate E.
Qed.

Lemma engineInv_prepare a pdaf : engineInv a -> engineInv (fst (prepare a pdaf)).
Proof.
  intros Hinv. unfold prepare. cbn [fst].
  set (a1 := if ScanState_eqb (scanState_ a) Trigger then startAF a else a).
  assert (engineInv a1) as H1.
  { subst a1. destruct (ScanState_eqb (scanState_ a) Trigger) eqn:Et; [|exact Hinv].
    apply ScanState_eqb_eq in Et. apply engineInv_startAF; [|exact Hinv].
    intros HM. destruct Hinv as (Hm & _). rewrite (Hm HM) in Et. discriminate. }
  destruct (initted_ a1) eqn:Ei; [|exact H1].
  destruct (match pdaf with Some _ => _ | None => _ end) as [phase conf].
  unfold frameUpdate. apply engineInv_updateLensPosition.
  apply engineInv_doAF; assumption.
Qed.

Lemma engineInv_setMode a mode : engineInv a -> engineInv (setMode a mode).
Proof.
  intros (Hm & Hp & Hi & Hs). unfold setMode.
  destruct (negb (AfMode_eqb (mode_ a) mode)) eqn:Ene; [|repeat split; assumption].
  destruct (AfMode_eqb mode AfModeContinuous) eqn:Ec.
  - apply AfMode_eqb_eq in Ec. subst mode. unfold engineInv. af_simpl.
    engine_done.
  - destruct (negb (AfMode_eqb mode AfModeAuto) || _) eqn:Eo.
    + unfold engineInv, goIdle. af_simpl. engine_done.
    + apply orb_false_elim in Eo. destruct Eo as [Ea El].
      apply negb_false_iff, AfMode_eqb_eq in Ea. subst mode.
      unfold engineInv. af_simpl.
      repeat split; intros; try discriminate; auto;
        try (match goal with H : _ \/ _ |- _ => destruct H as [H | H] end;
             rewrite H in El; discriminate El).
Qed.

Lemma engineInv_pause a p : engineInv a -> engineInv (pause a p).
Proof.
  intros (Hm & Hp & Hi & Hs). unfold pause.
  destruct (AfMode_eqb (mode_ a) AfModeContinuous) eqn:Ec;
    [|repeat split; assumption].
  apply AfMode_eqb_eq in Ec. cbv zeta. af_simpl.
  destruct (_ && pauseFlag_ a).
  - destruct (ScanState_ltb (scanState_ a) Coarse) eqn:El;
      unfold engineInv; af_simpl; rewrite Ec; engine_done.
  - destruct (_ && negb (pauseFlag_ a)); [|repeat split; assumption].
    destruct (_ || _); unfold engineInv, goIdle; af_simpl; rewrite Ec;
      engine_done.
Qed.

Lemma engineInv_cancelScan a : engineInv a -> engineInv (cancelScan a).
Proof.
  intros H. unfold cancelScan.
  destruct (AfMode_eqb _ _); [apply engineInv_goIdle|]; exact H.
Qed.

Lemma engineInv_triggerScan a : engineInv a -> engineInv (triggerScan a).
Proof.
  intros (Hm & Hp & Hi & Hs). unfold triggerScan.
  destruct (AfMode_eqb (mode_ a) AfModeAuto && _) eqn:E;
    [|repeat split; assumption].
  apply andb_prop in E. destruct E as [Ea _]. apply AfMode_eqb_eq in Ea.
  unfold engineInv. af_simpl. rewrite Ea.
  repeat split; intros; try discriminate; auto;
    try (match goal with H : pauseFlag_ a = true |- _ => apply Hp in H end;
         congruence);
    try (match goal with H : _ \/ _ |- _ => destruct H as [H | H] end;
         discriminate H).
Qed.

Lemma engineInv_setLensPosition a d hw :
  engineInv a -> engineInv (fst (fst (setLensPosition a d hw))).
Proof.
  intros H. unfold setLensPosition.
  destruct (AfMode_eqb (mode_ a) AfModeManual); cbn [fst]; [|exact H].
  apply engineInv_updateLensPosition.
  destruct H as (Hm & Hp & Hi & Hs). unfold engineInv. af_simpl. auto.
Qed.

Lemma engineInv_setRange a r : engineInv a -> engineInv (setRange a r).
Proof.
  intros H. unfold setRange. destruct (_ <? _)%Z; [|exact H].
  destruct H as (Hm & Hp & Hi & Hs). unfold engineInv. af_simpl. auto.
Qed.

Lemma engineInv_setSpeed a s : engineInv a -> engineInv (setSpeed a s).
Proof.
  intros H. unfold setSpeed. destruct (_ <? _)%Z; [|exact H].
  destruct H as (Hm & Hp & Hi & Hs). unfold engineInv.
  destruct (_ && _); af_simpl; auto.
Qed.

Lemma engineInv_process a st : engineInv a -> engineInv (process a st).
Proof.
  intros (Hm & Hp & Hi & Hs). unfold engineInv, process. af_simpl. auto.
Qed.


Lemma same_weights_refl a : same_weights a a.
Proof. repeat split. Qed.

Lemma same_weights_trans a b c :
  same_weights a b -> same_weights b c -> same_weights a c.
Proof.
  unfold same_weights. intros (?&?&?) (?&?&?). repeat split; congruence.
Qed.

Lemma updateLensPosition_weights a : same_weights a (updateLensPosition a).
Proof. unfold same_weights, updateLensPosition. frame. Qed.

Lemma startProgrammedScan_weights a : same_weights a (startProgrammedScan a).
Proof.
  unfold startProgrammedScan. cbv zeta.
  destruct (updateLensPosition_weights (set_ftarget (focusMin (range a)) a))
    as (?&?&?).
  unfold same_weights. af_simpl. auto.
Qed.

Lemma startAF_weights a : same_weights a (startAF a).
Proof.
  unfold startAF. destruct (_ && _); [|apply startProgrammedScan_weights].
  destruct (negb (initted_ a)).
  - destruct (updateLensPosition_weights (set_ftarget (focusDefault (range a)) a))
      as (?&?&?).
    unfold same_weights. af_simpl. auto.
  - unfold same_weights. af_simpl. auto.
Qed.

Lemma doPDAF_weights a p cf : same_weights a (doPDAF a p cf).
Proof. unfold same_weights, doPDAF. frame. Qed.

Lemma doScan_weights a c p cf : same_weights a (doScan a c p cf).
Proof. unfold same_weights, doScan. frame. Qed.

Lemma earlyTerminationByPhase_weights a p :
  same_weights a (snd (earlyTerminationByPhase a p)).
Proof. unfold same_weights, earlyTerminationByPhase. frame. Qed.

Lemma doAF_weights a c p cf : same_weights a (doAF a c p cf).
Proof.
  unfold doAF.
  destruct (0 <? skipCount_ a)%Z; [unfold same_weights; frame|].
  destruct (ScanState_eqb (scanState_ a) Pdaf).
  - destruct (Qltb _ cf).
    + destruct (doPDAF_weights a p cf) as (?&?&?).
      unfold same_weights.
      destruct (0 <? stepCount_ (doPDAF a p cf))%Z; af_simpl; auto.
      destruct (negb _); af_simpl; auto.
    + cbv zeta. af_simpl. destruct (_ =? _)%Z; [|unfold same_weights; frame].
      eapply same_weights_trans; [|apply startProgrammedScan_weights].
      unfold same_weights. frame.
  - destruct (_ && _); [|apply same_weights_refl].
    destruct (0 <? stepCount_ a)%Z; [unfold same_weights; frame|].
    destruct (ScanState_eqb (scanState_ a) Settle); [unfold same_weights; frame|].
    destruct (Qleb _ cf); [|apply doScan_weights].
    pose proof (earlyTerminationByPhase_weights a p) as He.
    destruct (earlyTerminationByPhase a p) as [early a']. cbn [snd] in He.
    destruct early.
    + destruct He as (?&?&?). unfold same_weights. af_simpl. auto.
    + eapply same_weights_trans; [exact He | apply doScan_weights].
Qed.

Lemma prepare_weights a pdaf : same_weights a (fst (prepare a pdaf)).
Proof.
  unfold prepare. cbn [fst].
  set (a1 := if ScanState_eqb (scanState_ a) Trigger then startAF a else a).
  assert (same_weights a a1) as H1
      by (subst a1; destruct (ScanState_eqb _ _);
          [apply startAF_weights | apply same_weights_refl]).
  destruct (initted_ a1); [|exact H1].
  destruct (match pdaf with Some _ => _ | None => _ end) as [phase conf].
  unfold frameUpdate.
  eapply same_weights_trans; [exact H1|].
  eapply same_weights_trans; [apply doAF_weights|].
  apply updateLensPosition_weights.
Qed.

Lemma setLensPosition_weights a d hw :
  same_weights a (fst (fst (setLensPosition a d hw))).
Proof.
  unfold setLensPosition.
  destruct (AfMode_eqb (mode_ a) AfModeManual); cbn [fst];
    [|apply same_weights_refl].
  destruct (updateLensPosition_weights
              (set_ftarget (Pwl.clip (Pwl.domain (map (cfg_ a))) d) a))
    as (?&?&?).
  unfold same_weights. auto.
Qed.

Lemma controls_weights a :
  (forall st, same_weights a (process a st)) /\
  (forall r, same_weights a (setRange a r)) /\
  (forall s, same_weights a (setSpeed a s)) /\
  same_weights a (cancelScan a) /\
  same_weights a (triggerScan a) /\
  (forall m, same_weights a (setMode a m)) /\
  (forall p, same_weights a (pause a p)).
Proof.
  unfold same_weights, process, setRange, setSpeed, cancelScan, triggerScan,
    setMode, pause, goIdle.
  repeat split; cbv zeta; af_simpl; repeat (branch; af_simpl); reflexivity.
Qed.

Lemma weightsInv_same a b : same_weights a b -> weightsInv a -> weightsInv b.
Proof.
  unfold same_weights, weightsInv. intros (-> & -> & ->) H. exact H.
Qed.

Lemma weightsInv_computeWeights (o : AfW) :
  (length (windows_ o) <= 10)%nat -> weightsInv (af (computeWeights o)).
Proof.
  intros Hlen. rewrite computeWeights_fields. cbv zeta. cbn [af set_af].
  pose proof (computeWeights_of_totals (statsRegion_ o) (windows_ o)
                (useWindows_ o)) as H.
  destruct (computeWeights_of _ _ _) as [[pw cw] sw]. cbn [fst snd].
  destruct H as (Hg & Hl & Hpos & Hsum & Hcw & Hnn & Hb).
  change MaxCellWeight with 24%Z in Hb.
  unfold weightsInv. cbn [phaseWeights_ contrastWeights_ sumWeights_ set_weights].
  repeat split; try assumption; try apply Hg;
    pose proof (Hb i j ltac:(assumption) ltac:(assumption)); lia.
Qed.

Lemma engineInv_computeWeights (o : AfW) :
  engineInv (af o) -> engineInv (af (computeWeights o)).
Proof. intros H. rewrite computeWeights_fields. exact H. Qed.

Lemma objectInv_onAf (f : Af -> Af) (o : AfW) :
  (forall a, engineInv a -> engineInv (f a)) ->
  (forall a, same_weights a (f a)) ->
  objectInv o -> objectInv (onAf f o).
Proof.
  intros He Hw (Hl & Hi & Hwi). unfold objectInv, onAf.
  cbn [windows_ set_af af]. split; [exact Hl|]. split; [apply He; exact Hi|].
  apply (weightsInv_same (af o)); [apply Hw | exact Hwi].
Qed.

Lemma objectInv_computeWeights (o : AfW) :
  (length (windows_ o) <= 10)%nat -> engineInv (af o) ->
  objectInv (computeWeights o).
Proof.
  intros Hl Hi. split; [|split].
  - rewrite computeWeights_fields. exact Hl.
  - apply engineInv_computeWeights. exact Hi.
  - apply weightsInv_computeWeights. exact Hl.
Qed.

Lemma objectInv_switchMode (o : AfW) (cm : CameraMode) :
  objectInv o -> objectInv (switchMode o cm).
Proof.
  intros (Hl & Hi & _). unfold switchMode. cbv zeta.
  set (o1 := computeWeights _).
  assert (objectInv o1) as (Hl1 & Hi1 & Hw1)
      by (apply objectInv_computeWeights; assumption).
  set (a1 := if _ && _ then startProgrammedScan (af o1) else af o1).
  assert (engineInv a1 /\ same_weights (af o1) a1) as [Hi2 Hw2].
  { subst a1. destruct (ScanState_geb (scanState_ (af o1)) Coarse && _) eqn:E;
      [|split; [exact Hi1 | apply same_weights_refl]].
    split; [|apply startProgrammedScan_weights].
    apply engineInv_startProgrammedScan; [|exact Hi1].
    intros HM. destruct Hi1 as (Hm & _). rewrite (Hm HM) in E. discriminate E. }
  split; [exact Hl1|]. cbn [af set_af]. split.
  - destruct Hi2 as (?&?&?&?). unfold engineInv. af_simpl. auto.
  - apply (weightsInv_same (af o1)); [|exact Hw1].
    destruct Hw2 as (?&?&?). unfold same_weights. af_simpl. auto.
Qed.

Lemma objectInv_call (o : AfW) (c : Call) : objectInv o -> objectInv (call o c).
Proof.
  intros H. pose proof H as (Hl & Hi & Hw).
  destruct c as [cm | pdaf | st | r | s | mode | wins | d hw | | | m | p];
    cbn [call].
  - apply objectInv_switchMode. exact H.
  - apply objectInv_onAf; [intros; apply engineInv_prepare; assumption
                          | intros; apply prepare_weights | exact H].
  - apply objectInv_onAf; [intros; apply engineInv_process; assumption
                          | intros; apply controls_weights | exact H].
  - apply objectInv_onAf; [intros; apply engineInv_setRange; assumption
                          | intros; apply controls_weights | exact H].
  - apply objectInv_onAf; [intros; apply engineInv_setSpeed; assumption
                          | intros; apply controls_weights | exact H].
  - unfold setMetering. destruct (negb _); [|exact H].
    apply objectInv_computeWeights; assumption.
  - unfold setWindows. apply objectInv_computeWeights; [|exact Hi].
    cbn [windows_]. rewrite pushWindows_firstn by (cbn; lia).
    cbn [app length]. rewrite length_firstn. lia.
  - apply objectInv_onAf; [intros; apply engineInv_setLensPosition; assumption
                          | intros; apply setLensPosition_weights | exact H].
  - apply objectInv_onAf; [intros; apply engineInv_cancelScan; assumption
                          | intros; apply controls_weights | exact H].
  - apply objectInv_onAf; [intros; apply engineInv_triggerScan; assumption
                          | intros; apply controls_weights | exact H].
  - apply objectInv_onAf; [intros; apply engineInv_setMode; assumption
                          | intros; apply controls_weights | exact H].
  - apply objectInv_onAf; [intros; apply engineInv_pause; assumption
                          | intros; apply controls_weights | exact H].
Qed.

Lemma objectInv_configured (cfg : CfgParams) : objectInv (AfW_configured cfg).
Proof.
  unfold objectInv, AfW_configured. cbn [windows_ set_af AfW_new af length].
  split; [lia|]. split.
  - unfold engineInv. af_simpl. cbn. engine_done.
  - unfold weightsInv. af_simpl. cbn [Af_new phaseWeights_ contrastWeights_ sumWeights_].
    split; [apply gridShape_zeroGrid|]. split.
    + intros i j Hi Hj. change (repeat _ _) with zeroGrid.
      rewrite cell_zeroGrid by assumption. lia.
    + repeat split. repeat constructor; discriminate.
Qed.

(** X12. Whatever the configuration and whatever calls the client makes
    on the constructed object ([switchMode], [prepare], [process],
    [setRange], [setSpeed], [setMetering], [setWindows], [setLensPosition],
    [cancelScan], [triggerScan], [setMode], [pause]), in any order and
    number: at most [MaxWindows] windows are held; in manual mode the scan
    is idle; only continuous mode is ever paused; tracking and scanning
    happen only with a known lens position; an idle or tracking engine
    holds no scan history; and the weights form a full grid with cells
    between 0 and 240 whose sum, like the sum of the contrast weights, is
    [sumWeights_]. *)
Theorem interface_keeps_invariant (cfg : CfgParams) (cs : list Call) :
  objectInv (calls (AfW_configured cfg) cs).
Proof.
  unfold calls.
  assert (forall o, objectInv o -> objectInv (fold_left call cs o)) as H.
  { induction cs as [|c cs IH]; intros o Ho; [exact Ho|].
    cbn [fold_left]. apply IH. apply objectInv_call. exact Ho. }
  apply H. apply objectInv_configured.
Qed.

(** ** Frames to skip and mode switches *)

(** With a known lens position [updateLensPosition] touches no counter. *)
Lemma updateLensPosition_counters a :
  initted_ a = true ->
  skipCount_ (updateLensPosition a) = skipCount_ a /\
  stepCount_ (updateLensPosition a) = stepCount_ a /\
  dropCount_ (updateLensPosition a) = dropCount_ a.
Proof.
  intros Hi. unfold updateLensPosition.
  destruct (ScanState_geb (scanState_ a) Pdaf); af_simpl; rewrite Hi;
    af_simpl; auto.
Qed.

(** A frame with frames left to skip only counts down. *)
Lemma frameUpdate_skip a c p cf :
  initted_ a = true -> (0 < skipCount_ a)%Z ->
  let b := frameUpdate a c p cf in
  skipCount_ b = (skipCount_ a - 1)%Z /\ initted_ b = true /\
  scanState_ b = scanState_ a /\ scanData_ b = scanData_ a /\
  stepCount_ b = stepCount_ a /\ dropCount_ b = dropCount_ a /\
  reportState_ b = reportState_ a.
Proof.
  intros Hi Hs. cbv zeta. unfold frameUpdate, doAF.
  apply Z.ltb_lt in Hs. rewrite Hs.
  destruct (updateLensPosition_counters (set_skipCount (skipCount_ a - 1) a) Hi)
    as (E1 & E2 & E3).
  destruct (updateLensPosition_report (set_skipCount (skipCount_ a - 1) a))
    as (E4 & E5).
  rewrite E1, E2, E3, E4, E5, updateLensPosition_scanState,
    updateLensPosition_initted.
  af_simpl. repeat split.
Qed.

(** X13. While there are frames to skip (at startup and after a sensor
    mode switch) and the lens position is known, the per-frame update only
    counts them down: after [n <= skipCount_] frames, whatever their
    statistics, scan state, scan history, step and dropout counters and the
    reported state are as before, and [skipCount_] is lower by [n]. *)
Theorem skip_frames_freeze_engine (a : Af) (inputs : list FrameInput) :
  initted_ a = true ->
  (Z.of_nat (length inputs) <= skipCount_ a)%Z ->
  let b := frames a inputs in
  skipCount_ b = (skipCount_ a - Z.of_nat (length inputs))%Z /\
  scanState_ b = scanState_ a /\ scanData_ b = scanData_ a /\
  stepCount_ b = stepCount_ a /\ dropCount_ b = dropCount_ a /\
  reportState_ b = reportState_ a.
Proof.
  cbv zeta. revert a. induction inputs as [|[[c p] cf] rest IH]; intros a Hi Hn.
  - cbn. repeat split. lia.
  - cbn [length] in Hn. rewrite Nat2Z.inj_succ in Hn.
    unfold frames. cbn [fold_left frameStep]. fold (frames (frameUpdate a c p cf) rest).
    destruct (frameUpdate_skip a c p cf Hi ltac:(lia))
      as (E1 & E2 & E3 & E4 & E5 & E6 & E7).
    destruct (IH (frameUpdate a c p cf) E2 ltac:(lia))
      as (F1 & F2 & F3 & F4 & F5 & F6).
    cbn [length]. rewrite Nat2Z.inj_succ.
    rewrite F1, F2, F3, F4, F5, F6, E1, E3, E4, E5, E6, E7.
    repeat split. lia.
Qed.

Lemma skip_frames_freeze_engine_witness :
  let b := frames coarseStart [(10, 0, 0); (20, 0, 0); (30, 0, 0)] in
  skipCount_ b = 2%Z /\ scanState_ b = Coarse /\ scanData_ b = [].
Proof.
  destruct (skip_frames_freeze_engine coarseStart
              [(10, 0, 0); (20, 0, 0); (30, 0, 0)])
    as (H1 & H2 & H3 & _).
  - reflexivity.
  - vm_compute. discriminate.
  - repeat split; assumption.
Defined.

(** X14. [Af::switchMode] sets [skipCount_] to [skipFrames] and keeps the
    mode and the pause flag. A scan in [Coarse] or [Fine] is started again:
    the state is [Coarse], the history empty, the lens position known, the
    target [focusMin] clamped to the range, and the report [Scanning].
    In every other state the scan state, the history, the target, the
    lens position and the report are left as they are. *)
Theorem switchMode_restarts_scan (o : AfW) (cameraMode : CameraMode) :
  let a := af o in
  let b := af (switchMode o cameraMode) in
  skipCount_ b = skipFrames (cfg_ a) /\
  mode_ b = mode_ a /\ pauseFlag_ b = pauseFlag_ a /\
  (scanState_ a = Coarse \/ scanState_ a = Fine ->
   scanState_ b = Coarse /\ scanData_ b = [] /\ initted_ b = true /\
   ftarget_ b
   = std_clamp (focusMin (range a)) (focusMin (range a)) (focusMax (range a)) /\
   stepCount_ b = stepFrames (speed a) /\ reportState_ b = StateScanning) /\
  (scanState_ a <> Coarse -> scanState_ a <> Fine ->
   scanState_ b = scanState_ a /\ scanData_ b = scanData_ a /\
   ftarget_ b = ftarget_ a /\ fsmooth_ b = fsmooth_ a /\
   initted_ b = initted_ a /\ reportState_ b = reportState_ a).
Proof.
  cbv zeta. unfold switchMode. cbv zeta. rewrite computeWeights_fields.
  cbv zeta. cbn [af set_af].
  set (a := af o).
  set (a1 := set_weights _ _ _ a).
  change (scanState_ a1) with (scanState_ a).
  destruct (ScanState_geb (scanState_ a) Coarse
            && ScanState_ltb (scanState_ a) Settle) eqn:Er.
  - assert (scanState_ a = Coarse \/ scanState_ a = Fine) as Hcf
        by (destruct (scanState_ a); try discriminate Er; auto).
    assert (ScanState_geb (scanState_ a) Pdaf = true) as Hp
        by (destruct Hcf as [-> | ->]; reflexivity).
    unfold startProgrammedScan, updateLensPosition. af_simpl.
    change (scanState_ a1) with (scanState_ a). rewrite Hp. af_simpl.
    change (cfg_ a1) with (cfg_ a). change (range_ a1) with (range_ a).
    change (speed_ a1) with (speed_ a). change (mode_ a1) with (mode_ a).
    change (pauseFlag_ a1) with (pauseFlag_ a).
    destruct (initted_ a1) eqn:Ei; af_simpl; rewrite ?Ei;
      repeat split; intros; try reflexivity; destruct Hcf; congruence.
  - af_simpl. repeat split; intros; try reflexivity;
      match goal with H : _ \/ _ |- _ => destruct H as [H | H] end;
      rewrite H in Er; discriminate Er.
Qed.

(** ** Triggered tracking and scans *)

(** [doPDAF] never raises [stepCount_]; outside continuous mode it lowers
    it to [stepFrames] at most. *)
Lemma doPDAF_counters a p cf :
  (stepCount_ (doPDAF a p cf) <= stepCount_ a)%Z /\
  skipCount_ (doPDAF a p cf) = skipCount_ a /\
  dropCount_ (doPDAF a p cf) = dropCount_ a.
Proof.
  unfold doPDAF.
  destruct (AfMode_eqb (mode_ a) AfModeContinuous).
  - split; [|split]; af_simpl; repeat (branch; af_simpl);
      first [reflexivity | lia].
  - destruct (stepFrames (speed a) <=? stepCount_ a)%Z eqn:E.
    + apply Z.leb_le in E.
      split; [|split]; af_simpl; repeat (branch; af_simpl);
        first [reflexivity | lia | exact E].
    + split; [|split]; af_simpl; repeat (branch; af_simpl);
        first [reflexivity | lia].
Qed.

(** One frame of a triggered PDAF tracking that stays in [Pdaf] uses up
    one of the frames left. *)
Lemma pdaf_frame_uses_one a c p cf :
  mode_ a <> AfModeContinuous -> initted_ a = true ->
  (0 <= skipCount_ a)%Z -> (0 <= stepCount_ a)%Z ->
  (0 <= dropCount_ a < dropoutFrames (speed a))%Z ->
  (dropoutFrames (speed a) < 2 ^ 32)%Z ->
  scanState_ a = Pdaf ->
  let b := frameUpdate a c p cf in
  scanState_ b = Pdaf ->
  same_setup a b /\ initted_ b = true /\
  (0 <= skipCount_ b)%Z /\ (0 <= stepCount_ b)%Z /\
  (0 <= dropCount_ b < dropoutFrames (speed a))%Z /\
  (pdafFramesLeft b + 1 <= pdafFramesLeft a)%Z.
Proof.
  intros Hm Hi Hskip Hstep Hdrop Hfit Hst. cbv zeta. intros Hb.
  pose proof (frameUpdate_setup a c p cf) as Hset.
  split; [exact Hset|].
  assert (speed (frameUpdate a c p cf) = speed a) as Hsp
      by (destruct Hset as (E1 & _ & E3 & _); unfold speed; rewrite E1, E3;
          reflexivity).
  unfold pdafFramesLeft. rewrite Hsp.
  unfold frameUpdate in *.
  rewrite updateLensPosition_scanState in Hb.
  rewrite updateLensPosition_initted.
  assert (initted_ (doAF a c p cf) = true) as Hi'.
  { destruct (doAF_cases a c p cf) as [[_ [_ E]] | [_ E]].
    - rewrite E. exact Hi.
    - rewrite E. apply startProgrammedScan_initted. }
  destruct (updateLensPosition_counters _ Hi') as (-> & -> & ->).
  split; [reflexivity|].
  revert Hb. unfold doAF.
  destruct (0 <? skipCount_ a)%Z eqn:Es.
  - apply Z.ltb_lt in Es. af_simpl. intros _. repeat split; lia.
  - apply Z.ltb_ge in Es. rewrite Hst.
    change (ScanState_eqb Pdaf Pdaf) with true. cbv iota.
    destruct (Qltb _ cf).
    + destruct (doPDAF_counters a p cf) as (Hle & Ek & Ed).
      assert (mode_ (doPDAF a p cf) = mode_ a) as Em
          by (destruct (doPDAF_setup a p cf) as (_ & _ & _ & E & _); exact E).
      destruct (0 <? stepCount_ (doPDAF a p cf))%Z eqn:E1.
      * apply Z.ltb_lt in E1. af_simpl. intros _. rewrite Ek.
        repeat split; try lia. nia.
      * rewrite Em.
        assert (AfMode_eqb (mode_ a) AfModeContinuous = false) as ->.
        { destruct (AfMode_eqb (mode_ a) AfModeContinuous) eqn:E;
            [apply AfMode_eqb_eq in E; contradiction | reflexivity]. }
        cbn [negb]. af_simpl. discriminate.
    + cbv zeta. af_simpl.
      rewrite (wrap32_small (dropCount_ a + 1)) by lia.
      destruct (dropCount_ a + 1 =? dropoutFrames (speeds (cfg_ a) (speed_ a)))%Z
        eqn:E1.
      * intros H. discriminate H.
      * apply Z.eqb_neq in E1. af_simpl. intros _. repeat split; lia.
Qed.

(** X15. Outside continuous mode, PDAF tracking ends by itself, whatever
    the statistics: with a known lens position and [dropCount_] below
    [dropoutFrames], the engine stays in [Pdaf] for at most
    [skipCount_ + stepCount_ * dropoutFrames + dropoutFrames - 1 - dropCount_]
    frames. Every frame in [Pdaf] skips, or steps down [stepCount_], or
    counts a dropout. *)
Theorem triggered_pdaf_ends (a : Af) (inputs : list FrameInput) :
  mode_ a <> AfModeContinuous -> initted_ a = true ->
  (0 <= skipCount_ a)%Z -> (0 <= stepCount_ a)%Z ->
  (0 <= dropCount_ a < dropoutFrames (speed a))%Z ->
  (dropoutFrames (speed a) < 2 ^ 32)%Z ->
  staysPdaf a inputs = true ->
  (Z.of_nat (length inputs) <= pdafFramesLeft a)%Z.
Proof.
  revert a. induction inputs as [|[[c p] cf] rest IH];
    intros a Hm Hi Hskip Hstep Hdrop Hfit Hstay.
  - unfold pdafFramesLeft. cbn [length Z.of_nat]. nia.
  - cbn [staysPdaf frameStep] in Hstay. apply andb_prop in Hstay.
    destruct Hstay as [Hst Hrest]. apply ScanState_eqb_eq in Hst.
    assert (scanState_ (frameUpdate a c p cf) = Pdaf) as Hb.
    { destruct rest; cbn [staysPdaf] in Hrest;
        [rewrite andb_true_r in Hrest|
         apply andb_prop in Hrest; destruct Hrest as [Hrest _]];
        apply ScanState_eqb_eq in Hrest; exact Hrest. }
    destruct (pdaf_frame_uses_one a c p cf Hm Hi Hskip Hstep Hdrop Hfit Hst Hb)
      as (Hset & Hi' & Hskip' & Hstep' & Hdrop' & Hless).
    assert (speed (frameUpdate a c p cf) = speed a) as Hsp
        by (destruct Hset as (E1 & _ & E3 & _); unfold speed; rewrite E1, E3;
            reflexivity).
    assert (mode_ (frameUpdate a c p cf) = mode_ a) as Hmo
        by (destruct Hset as (_ & _ & _ & E & _); exact E).
    specialize (IH (frameUpdate a c p cf)).
    rewrite Hsp, Hmo in IH. specialize (IH Hm Hi' Hskip' Hstep' Hdrop' Hfit Hrest).
    cbn [length]. rewrite Nat2Z.inj_succ. lia.
Qed.

Lemma triggered_pdaf_ends_witness :
  (9 <= pdafFramesLeft triggeredPdaf)%Z /\ pdafFramesLeft triggeredPdaf = 130%Z.
Proof.
  split; [|vm_compute; reflexivity].
  apply (triggered_pdaf_ends triggeredPdaf (repeat (0, 0, 100) 9)).
  - vm_compute. discriminate.
  - vm_compute. reflexivity.
  - vm_compute. discriminate.
  - vm_compute. discriminate.
  - vm_compute. split; [discriminate | reflexivity].
  - vm_compute. reflexivity.
  - vm_compute. reflexivity.
Defined.

Lemma startAF_initted a : initted_ (startAF a) = true.
Proof.
  unfold startAF. destruct (_ && _); [|apply startProgrammedScan_initted].
  destruct (initted_ a) eqn:Ei; cbn [negb]; af_simpl;
    [exact Ei | apply updateLensPosition_initted].
Qed.

Lemma startAF_setup a : same_setup a (startAF a).
Proof.
  unfold startAF. destruct (_ && _); [|apply startProgrammedScan_setup].
  destruct (negb (initted_ a)).
  - destruct (updateLensPosition_setup (set_ftarget (focusDefault (range a)) a))
      as (?&?&?&?&?).
    unfold same_setup. af_simpl. auto.
  - unfold same_setup. af_simpl. auto.
Qed.

(** Outside continuous mode [doPDAF] leaves a positive [stepCount_]
    positive, when [stepFrames] is. *)
Lemma doPDAF_step_positive a p cf :
  mode_ a <> AfModeContinuous -> (0 < stepFrames (speed a))%Z ->
  (0 < stepCount_ a)%Z -> (0 < stepCount_ (doPDAF a p cf))%Z.
Proof.
  intros Hm Hs Hc. unfold doPDAF.
  assert (AfMode_eqb (mode_ a) AfModeContinuous = false) as ->.
  { destruct (AfMode_eqb (mode_ a) AfModeContinuous) eqn:E;
      [apply AfMode_eqb_eq in E; contradiction | reflexivity]. }
  af_simpl. repeat (branch; af_simpl); assumption.
Qed.

(** The first frame after [startAF] never ends in [Idle]. *)
Lemma doAF_after_startAF a c p cf :
  mode_ a <> AfModeContinuous -> (0 < stepFrames (speed a))%Z ->
  scanState_ (doAF (startAF a) c p cf) <> Idle.
Proof.
  intros Hm Hs.
  assert (mode_ (startAF a) = mode_ a /\ speed (startAF a) = speed a) as [Em Esp].
  { destruct (startAF_setup a) as (E1 & _ & E3 & E4 & _). split; [exact E4|].
    unfold speed. rewrite E1, E3. reflexivity. }
  assert ((scanState_ (startAF a) = Pdaf /\ (0 < stepCount_ (startAF a))%Z) \/
          scanState_ (startAF a) = Coarse) as [[Hp Hc] | Hco].
  { unfold startAF.
    destruct (_ && (AfMode_eqb (mode_ a) AfModeContinuous || _)) eqn:E;
      [left | right; reflexivity].
    apply andb_prop in E. destruct E as [_ E].
    assert (AfMode_eqb (mode_ a) AfModeContinuous = false) as Ec.
    { destruct (AfMode_eqb (mode_ a) AfModeContinuous) eqn:E';
        [apply AfMode_eqb_eq in E'; contradiction | reflexivity]. }
    rewrite Ec in E. cbn [orb] in E. apply Z.ltb_lt in E.
    destruct (negb (initted_ a)).
    - destruct (updateLensPosition_setup (set_ftarget (focusDefault (range a)) a))
        as (E1 & _ & E3 & E4 & _).
      af_simpl. rewrite E4, Ec, E1, E3. split; [reflexivity | exact E].
    - af_simpl. rewrite Ec. split; [reflexivity | exact E]. }
  - set (a1 := startAF a) in *. unfold doAF.
    destruct (0 <? skipCount_ a1)%Z; [af_simpl; rewrite Hp; discriminate|].
    rewrite Hp. change (ScanState_eqb Pdaf Pdaf) with true. cbv iota.
    destruct (Qltb _ cf).
    + pose proof (doPDAF_step_positive a1 p cf) as Hpos.
      rewrite Em, Esp in Hpos. specialize (Hpos Hm Hs Hc).
      apply Z.ltb_lt in Hpos. rewrite Hpos. af_simpl.
      rewrite doPDAF_scanState, Hp. discriminate.
    + cbv zeta. af_simpl. destruct (_ =? _)%Z; af_simpl;
        [discriminate | rewrite Hp; discriminate].
  - destruct (doAF_engine_cases (startAF a) c p cf) as (_ & _ & _ & Hc).
    rewrite Hco in Hc.
    destruct Hc as [[E _] | [[E _] | [[E _] | [_ E]]]];
      try discriminate E; [rewrite E; discriminate|].
    intros HI. rewrite HI in E. discriminate E.
Qed.

(** X16. In mode [AfModeAuto] with an idle engine and [stepFrames > 0],
    [triggerScan] followed by one [prepare] never ends the scan at once:
    whatever the PDAF data, the published state is [StateScanning], a lens
    setting is published, the lens position is known, and the engine is in
    [Pdaf] or in a scan state. *)
Theorem triggerScan_prepare_reports_scanning (a : Af) (pdaf : option PdafData) :
  mode_ a = AfModeAuto -> scanState_ a = Idle ->
  (0 < stepFrames (speed a))%Z ->
  let r := prepare (triggerScan a) pdaf in
  state (snd r) = StateScanning /\
  (exists pos, lensSetting (snd r) = Some pos) /\
  initted_ (fst r) = true /\
  (scanState_ (fst r) = Pdaf \/ ScanState_geb (scanState_ (fst r)) Coarse = true).
Proof.
  intros Hm Hst Hs. cbv zeta.
  assert (triggerScan a = set_scanState Trigger a) as ->
      by (unfold triggerScan; rewrite Hm, Hst; reflexivity).
  set (a0 := set_scanState Trigger a).
  assert (mode_ a0 <> AfModeContinuous) as Hm0
      by (subst a0; af_simpl; rewrite Hm; discriminate).
  assert (0 < stepFrames (speed a0))%Z as Hs0 by exact Hs.
  unfold prepare.
  change (ScanState_eqb (scanState_ a0) Trigger) with true. cbv iota.
  rewrite startAF_initted.
  destruct (match pdaf with Some _ => _ | None => _ end) as [phase conf].
  set (b := frameUpdate (startAF a0) (prevContrast_ (startAF a0)) phase conf).
  assert (initted_ b = true) as Hi
      by (subst b; unfold frameUpdate; apply updateLensPosition_initted).
  assert (mode_ b = AfModeAuto) as Hmb.
  { destruct (frameUpdate_setup (startAF a0) (prevContrast_ (startAF a0)) phase conf)
      as (_ & _ & _ & E & _).
    destruct (startAF_setup a0) as (_ & _ & _ & E' & _).
    subst b. rewrite E, E'. exact Hm. }
  assert (scanState_ b <> Idle) as Hb.
  { subst b. unfold frameUpdate. rewrite updateLensPosition_scanState.
    apply doAF_after_startAF; assumption. }
  cbn [fst snd state lensSetting]. rewrite Hi, Hmb.
  split; [|split; [eexists; reflexivity | split; [reflexivity|]]].
  - destruct (scanState_ b); [contradiction| | | | |]; reflexivity.
  - assert (scanState_ b <> Trigger) as Ht.
    { subst b. unfold frameUpdate. rewrite updateLensPosition_scanState.
      destruct (doAF_engine_cases (startAF a0) (prevContrast_ (startAF a0)) phase conf)
        as (_ & _ & _ & Hc).
      assert (scanState_ (startAF a0) = Pdaf \/ scanState_ (startAF a0) = Coarse)
        as Hsa by (unfold startAF; destruct (_ && _); [left | right]; reflexivity).
      intros HT. rewrite HT in Hc.
      destruct Hc as [[E _] | [[_ [[E _] | E]] | [(_ & _ & [E | E]) | [_ E]]]];
        try discriminate E.
      destruct Hsa as [H | H]; rewrite H in E; discriminate E. }
    destruct (scanState_ b); try contradiction; auto.
Qed.

Lemma triggerScan_prepare_reports_scanning_witness :
  state (snd (prepare (triggerScan (set_mode AfModeAuto (initialise Af_new))) None))
  = StateScanning.
Proof.
  apply (triggerScan_prepare_reports_scanning
           (set_mode AfModeAuto (initialise Af_new)) None).
  - reflexivity.
  - reflexivity.
  - vm_compute. reflexivity.
Defined.

(** X17. For every scan history and every index, [Af::findPeak] returns
    the focus of the sample itself moved by a fraction between 0 and 1/2
    of the way to one of its two neighbours: it never leaves the half of
    the interval next to the sample. *)
Theorem findPeak_at_most_halfway (a : Af) (i : nat) :
  let f := ScanRecord.focus (scanAt i (scanData_ a)) in
  exists t : Q,
    0 <= t <= 1 # 2 /\
    (findPeak a i == f + t * (ScanRecord.focus (scanAt (i - 1) (scanData_ a)) - f) \/
     findPeak a i == f + t * (ScanRecord.focus (scanAt (i + 1) (scanData_ a)) - f)).
Proof.
  cbv zeta. unfold findPeak.
  destruct ((0 <? i)%nat && (i + 1 <? length (scanData_ a))%nat);
    [|exists 0; split; [lra | left; ring]].
  set (dropLo := ScanRecord.contrast (scanAt i (scanData_ a))
                 - ScanRecord.contrast (scanAt (i - 1) (scanData_ a))).
  set (dropHi := ScanRecord.contrast (scanAt i (scanData_ a))
                 - ScanRecord.contrast (scanAt (i + 1) (scanData_ a))).
  destruct (Qleb 0.0 dropLo && Qltb dropLo dropHi) eqn:E1.
  - apply andb_prop in E1. destruct E1 as [H0 H1].
    apply Qleb_le in H0. apply Qltb_lt in H1.
    destruct (ratio_bounds dropLo dropHi) as [R0 R1]; [lra | lra |].
    destruct (peak_offset_bounds (dropLo / dropHi) R0 R1) as [P0 P1].
    exists (0.3125 * (1.0 - dropLo / dropHi) * (1.6 - dropLo / dropHi)).
    split; [split; lra | left; reflexivity].
  - destruct (Qleb 0.0 dropHi && Qltb dropHi dropLo) eqn:E2.
    + apply andb_prop in E2. destruct E2 as [H0 H1].
      apply Qleb_le in H0. apply Qltb_lt in H1.
      destruct (ratio_bounds dropHi dropLo) as [R0 R1]; [lra | lra |].
      destruct (peak_offset_bounds (dropHi / dropLo) R0 R1) as [P0 P1].
      exists (0.3125 * (1.0 - dropHi / dropLo) * (1.6 - dropHi / dropLo)).
      split; [split; lra | right; reflexivity].
    + exists 0. split; [lra | left; ring].
Qed.

(** ** Idle engine *)

(** One slew-limited step towards the target: it reaches the target when
    that is within [s], and else comes closer by [s]. *)
Lemma clamp_approach (ft fs s : Q) :
  0 <= s ->
  (Qabs (ft - fs) <= s -> std_clamp ft (fs - s) (fs + s) == ft) /\
  (s <= Qabs (ft - fs) ->
   Qabs (ft - std_clamp ft (fs - s) (fs + s)) == Qabs (ft - fs) - s).
Proof.
  intros Hs. unfold std_clamp.
  destruct (Qltb ft (fs - s)) eqn:E1.
  - apply Qltb_lt in E1.
    assert (Qabs (ft - fs) == - (ft - fs)) as Ha by (apply Qabs_neg; lra).
    assert (Qabs (ft - (fs - s)) == - (ft - (fs - s))) as Hb
        by (apply Qabs_neg; lra).
    split; intros H; [lra|]. rewrite Ha, Hb. ring.
  - apply Qltb_ge in E1. destruct (Qltb (fs + s) ft) eqn:E2.
    + apply Qltb_lt in E2.
      assert (Qabs (ft - fs) == ft - fs) as Ha by (apply Qabs_pos; lra).
      assert (Qabs (ft - (fs + s)) == ft - (fs + s)) as Hb
          by (apply Qabs_pos; lra).
      split; intros H; [lra|]. rewrite Ha, Hb. ring.
    + apply Qltb_ge in E2. split; intros H; [reflexivity|].
      assert (Qabs (ft - fs) <= s) as Hle by (apply Qabs_diff_le; split; lra).
      assert (ft - ft == 0) as -> by ring.
      change (Qabs 0) with 0. lra.
Qed.

(** In [Idle], [doAF] only counts the frames to skip. *)
Lemma doAF_idle a c p cf :
  scanState_ a = Idle ->
  doAF a c p cf
  = if (0 <? skipCount_ a)%Z then set_skipCount (skipCount_ a - 1) a else a.
Proof.
  intros Hst. unfold doAF. rewrite Hst.
  change (ScanState_eqb Idle Pdaf) with false.
  change (ScanState_geb Idle Coarse) with false. reflexivity.
Qed.

(** A [prepare] of an idle engine with a known lens position only moves
    the lens. *)
Lemma prepare_idle a pdaf :
  scanState_ a = Idle -> initted_ a = true ->
  let b := fst (prepare a pdaf) in
  scanState_ b = Idle /\ initted_ b = true /\ same_setup a b /\
  ftarget_ b = ftarget_ a /\ reportState_ b = reportState_ a /\
  scanData_ b = scanData_ a /\
  fsmooth_ b = std_clamp (ftarget_ a) (fsmooth_ a - maxSlew (speed a))
                         (fsmooth_ a + maxSlew (speed a)).
Proof.
  intros Hst Hi. cbv zeta.
  destruct (prepare_is_frameUpdate a pdaf) as (phase & conf & -> & _);
    [rewrite Hst; reflexivity | exact Hi |].
  split; [|split; [|split; [apply frameUpdate_setup|]]].
  - unfold frameUpdate. rewrite updateLensPosition_scanState, doAF_idle by exact Hst.
    destruct (0 <? skipCount_ a)%Z; exact Hst.
  - unfold frameUpdate. apply updateLensPosition_initted.
  - unfold frameUpdate. rewrite doAF_idle by exact Hst.
    unfold updateLensPosition.
    destruct (0 <? skipCount_ a)%Z; cbv zeta; af_simpl; rewrite Hst;
      change (ScanState_geb Idle Pdaf) with false; cbv iota; af_simpl;
      rewrite Hi; af_simpl; repeat split.
Qed.

(** X18. An idle engine with a known lens position never starts a scan by
    itself: over any number of calls of [prepare], whatever the PDAF data,
    it stays [Idle] with the same target, report and history; a lens at
    the target stays there; the lens never ends further from the target
    than it started; and while [n * maxSlew] is less than the distance at
    the start, the distance left after [n] frames is that distance minus
    [n * maxSlew]. *)
Theorem idle_lens_approaches_target (a : Af) (pdafs : list (option PdafData)) :
  scanState_ a = Idle -> initted_ a = true -> 0 <= maxSlew (speed a) ->
  let b := prepares a pdafs in
  let n := inject_Z (Z.of_nat (length pdafs)) in
  let d := Qabs (ftarget_ a - fsmooth_ a) in
  scanState_ b = Idle /\ ftarget_ b = ftarget_ a /\
  reportState_ b = reportState_ a /\ scanData_ b = scanData_ a /\
  (fsmooth_ a == ftarget_ a -> fsmooth_ b == ftarget_ a) /\
  Qabs (ftarget_ a - fsmooth_ b) <= d /\
  (n * maxSlew (speed a) < d ->
   Qabs (ftarget_ a - fsmooth_ b) == d - n * maxSlew (speed a)).
Proof.
  cbv zeta. revert a.
  induction pdafs as [|pdaf rest IH]; intros a Hst Hi Hs.
  - cbn [prepares fold_left length Z.of_nat]. change (inject_Z 0) with 0.
    split; [exact Hst|]. split; [reflexivity|]. split; [reflexivity|].
    split; [reflexivity|]. split; [intros H; exact H|].
    split; [apply Qle_refl|]. intros _. ring.
  - unfold prepares. cbn [fold_left]. fold (prepares (fst (prepare a pdaf)) rest).
    destruct (prepare_idle a pdaf Hst Hi)
      as (Hst1 & Hi1 & Hset & Hft & Hrep & Hdat & Hfs).
    set (b1 := fst (prepare a pdaf)) in *.
    assert (speed b1 = speed a) as Hsp
        by (destruct Hset as (E1 & _ & E3 & _); unfold speed; rewrite E1, E3;
            reflexivity).
    specialize (IH b1 Hst1 Hi1). rewrite Hsp, Hft in IH. specialize (IH Hs).
    destruct IH as (I1 & I2 & I3 & I4 & I5 & I6 & I7).
    destruct (clamp_approach (ftarget_ a) (fsmooth_ a) (maxSlew (speed a)) Hs)
      as [C1 C2].
    rewrite <- Hfs in C1, C2.
    cbn [length]. rewrite Nat2Z.inj_succ. unfold Z.succ. rewrite inject_Z_plus.
    change (inject_Z 1) with 1.
    set (k := inject_Z (Z.of_nat (length rest))) in *.
    set (s := maxSlew (speed a)) in *.
    set (d := Qabs (ftarget_ a - fsmooth_ a)) in *.
    set (d1 := Qabs (ftarget_ a - fsmooth_ b1)) in *.
    assert (0 <= k) as Hk.
    { subst k. change 0 with (inject_Z 0). rewrite <- Zle_Qle. lia. }
    assert (0 <= k * s) as Hks by (apply Qmult_le_0_compat; assumption).
    assert ((k + 1) * s == k * s + s) as Hexp by ring.
    assert (0 <= d) as Hd by (subst d; apply Qabs_nonneg).
    assert ((d <= s -> d1 == 0) /\ (s <= d -> d1 == d - s)) as [D1 D2].
    { split; intros H.
      - subst d1. rewrite (C1 H).
        assert (ftarget_ a - ftarget_ a == 0) as -> by ring. reflexivity.
      - apply C2. exact H. }
    assert (d1 <= d) as Hd1.
    { destruct (Qlt_le_dec s d) as [Hlt | Hle].
      - rewrite D2 by lra. lra.
      - rewrite D1 by exact Hle. exact Hd. }
    split; [rewrite I1; reflexivity|]. split; [rewrite I2; reflexivity|].
    split; [rewrite I3; exact Hrep|]. split; [rewrite I4; exact Hdat|].
    split; [|split].
    + intros H. apply I5. apply C1.
      assert (d == 0) as Hd0.
      { subst d. rewrite H.
        assert (ftarget_ a - ftarget_ a == 0) as -> by ring. reflexivity. }
      lra.
    + lra.
    + rewrite Hexp. intros H.
      rewrite I7 by (rewrite D2 by lra; lra). rewrite D2 by lra. ring.
Qed.

Lemma idle_lens_approaches_target_witness :
  ftarget_ manualFiveToTwelve == 12 /\ fsmooth_ manualFiveToTwelve == 7 /\
  Qabs (ftarget_ manualFiveToTwelve
        - fsmooth_ (prepares manualFiveToTwelve [None; None])) == 1.
Proof.
  split; [vm_compute; reflexivity|]. split; [vm_compute; reflexivity|].
  destruct (idle_lens_approaches_target manualFiveToTwelve [None; None])
    as (_ & _ & _ & _ & _ & _ & H).
  - reflexivity.
  - vm_compute. reflexivity.
  - vm_compute. discriminate.
  - rewrite H by (vm_compute; reflexivity). vm_compute. reflexivity.
Defined.

(** X19. After [Af::setMode] the mode read by [getMode] is the one asked
    for; the pause flag survives only when the mode did not change; and a
    second call with the same mode changes nothing. *)
Theorem setMode_idempotent (a : Af) (mode : AfMode) :
  getMode (setMode a mode) = mode /\
  pauseFlag_ (setMode a mode) = (AfMode_eqb (mode_ a) mode && pauseFlag_ a) /\
  setMode (setMode a mode) mode = setMode a mode.
Proof.
  assert (getMode (setMode a mode) = mode) as Hget.
  { unfold getMode, setMode.
    destruct (AfMode_eqb (mode_ a) mode) eqn:E; cbn [negb].
    - apply AfMode_eqb_eq in E. exact E.
    - cbv zeta. unfold goIdle. repeat (branch; af_simpl); reflexivity. }
  split; [exact Hget|]. split.
  - unfold setMode. destruct (AfMode_eqb (mode_ a) mode); cbn [negb andb];
      [reflexivity|].
    cbv zeta. unfold goIdle. repeat (branch; af_simpl); reflexivity.
  - unfold getMode in Hget. unfold setMode at 1. rewrite Hget.
    assert (AfMode_eqb mode mode = true) as -> by (apply AfMode_eqb_eq; reflexivity).
    reflexivity.
Qed.

(** ** Phase fusion on the weights of the interface *)

(** X20. On weights as the interface leaves them (a full grid with cells
    between 0 and 240), with [0 <= confThresh <= confClip < 2 ^ 32] and
    PDAF statistics of 16-bit confidences and signed 16-bit phases, the
    32-bit and 64-bit sums of [Af::getPhase] never wrap: they are the
    exact sums, and [getPhase] returns the fusion of the specification. *)
Theorem getPhase_exact_under_invariant (a : Af) (data : PdafData) :
  weightsInv a ->
  (0 <= confThresh (cfg_ a) <= confClip (cfg_ a))%Z ->
  (confClip (cfg_ a) < 2 ^ 32)%Z ->
  (forall i j, (i < PDAF_DATA_ROWS)%nat -> (j < PDAF_DATA_COLS)%nat ->
     0 <= cell (pdaf_conf data) i j < 2 ^ 16 /\
     - 2 ^ 15 <= cell (pdaf_phase data) i j < 2 ^ 15)%Z ->
  getPhase_sums a data = (spec_sumWc a data, spec_sumWcp a data) /\
  getPhase a data = spec_getPhase a data.
Proof.
  intros (_ & Hw & _) Hcfg Hclip Hdata.
  destruct (spec_sums_fit a data Hcfg) as [Hwc Hwcp].
  { intros i j Hi Hj. destruct (Hdata i j Hi Hj) as [H1 H2].
    split; [apply Hw; assumption | split; assumption]. }
  destruct Hcfg as [Ht Hc].
  assert (getPhase_sums a data = (spec_sumWc a data, spec_sumWcp a data)) as E.
  { rewrite (getPhase_sums_spec a data Ht Hc Hclip).
    rewrite (wrap32_small _ Hwc), (wrap64s_small _ Hwcp). reflexivity. }
  split; [exact E|].
  unfold getPhase, spec_getPhase. rewrite E. reflexivity.
Qed.

Lemma getPhase_exact_under_invariant_witness :
  getPhase (af (computeWeights sampleAfW)) flatPdaf
  = spec_getPhase (af (computeWeights sampleAfW)) flatPdaf.
Proof.
  apply (getPhase_exact_under_invariant (af (computeWeights sampleAfW)) flatPdaf).
  - apply weightsInv_computeWeights. cbn. lia.
  - vm_compute. split; discriminate.
  - reflexivity.
  - intros i j Hi Hj. unfold PDAF_DATA_ROWS, PDAF_DATA_COLS in *.
    do 12 (destruct i as [|i];
           [do 16 (destruct j as [|j];
                   [vm_compute; repeat split; discriminate|]); lia|]).
    lia.
Defined.
